(** * Pack calculator: the decomposition engine and the adaptive cache

    A shallow embedding of [internal/algorithm/optimizer.go] and
    [internal/cache/cache.go], of the tables of
    [internal/repo/repository.go] and of the handlers of the API that
    call them, and the properties of these components.

    Conventions.
    - A Go [int] is a 64-bit two's complement integer.  It is a [Z]
      here and every arithmetic operation of the source is followed by
      [GoInt.wrap].
    - A Go slice is a [list]; reading or writing outside of it panics.
      An allocation panics when its length is negative or above the
      limit of the runtime, [maxAlloc] bytes ([2^48] on linux/amd64,
      so [2^45] elements of type [int]); an allocation within the
      limit succeeds: the machine is taken to have the memory.
    - A Go [map[int]int] is a [gmap Z Z].
    - A function that can panic returns an [outcome].
    - The Redis server behind the cache is a finite map from keys to
      values with the time at which each expires, and the two counters
      of the statistics.  The time is an argument of every call of the
      cache, in nanoseconds as in [time.Duration].  The server is
      reachable and a value is read back as it was written (JSON
      encoding and decoding are not modelled).
    - [crypto/sha256], the verbs of [fmt] and the arithmetic of
      [float64] (IEEE 754 binary64, from [SpecFloat]) are modelled as
      far as [cache.go] uses them.
    - The database is its two tables; a statement fails only by a
      violated constraint.
    - A handler takes the decoded body of the request and returns the
      state of the server and what it writes; the clock and the time
      that a calculation takes are arguments. *)

From Stdlib Require Import ZArith Lia String Ascii.
From Stdlib Require Import DecimalString DecimalZ DecimalPos Floats.SpecFloat.
From stdpp Require Import base decidable option numbers list list_numbers sorting gmap strings.

Local Open Scope Z_scope.

(** ** Machine integers *)

Module GoInt.

Definition MinInt64 : Z := - 2 ^ 63.
Definition MaxInt64 : Z := 2 ^ 63 - 1.
(** [math.MaxInt32] *)
Definition MaxInt32 : Z := 2147483647.

(** The values of type [int]. *)
Definition int64 (z : Z) : Prop := MinInt64 ≤ z ≤ MaxInt64.

(** Two's complement reduction to 64 bits. *)
Definition wrap (z : Z) : Z := (z + 2 ^ 63) `mod` 2 ^ 64 - 2 ^ 63.

Definition add (x y : Z) : Z := wrap (x + y).
Definition sub (x y : Z) : Z := wrap (x - y).
Definition mul (x y : Z) : Z := wrap (x * y).

End GoInt.

(** ** Outcomes of a call *)

Inductive outcome (A : Type) : Type :=
| Returns (a : A)   (* normal return *)
| Panics            (* run-time panic: index or length out of range *)
| OutOfFuel.        (* the loop bound of the model was too small *)

Arguments Returns {A} a.
Arguments Panics {A}.
Arguments OutOfFuel {A}.

Definition bind {A B : Type} (c : outcome A) (k : A → outcome B) : outcome B :=
  match c with
  | Returns a => k a
  | Panics => Panics
  | OutOfFuel => OutOfFuel
  end.

Notation "x ←! c ; k" := (bind c (λ x, k))
  (at level 20, c at level 100, k at level 200, right associativity,
   format "'[' x  ←!  c ; '/' k ']'").
Notation "' p ←! c ; k" := (bind c (λ p, k))
  (at level 20, p pattern, c at level 100, k at level 200, right associativity,
   format "'[' ' p  ←!  c ; '/' k ']'").

(** A [for _, x := range l] loop whose body can panic. *)
Fixpoint foldM {A B : Type} (f : A → B → outcome A) (a : A) (l : list B) : outcome A :=
  match l with
  | [] => Returns a
  | x :: l' => a' ←! f a x; foldM f a' l'
  end.

(** ** Slices *)

Module Slice.

(** The limit of the runtime on an allocation, in bytes
    ([runtime.maxAlloc] on linux/amd64), and the length of the longest
    [[]int] within it, [maxAlloc / 8]. *)
Definition maxAlloc : Z := 2 ^ 48.
Definition MaxLen : Z := 2 ^ 45.

(** [make([]int, n)], filled with [v].  [makeslice] panics on a
    negative length and on a length whose size in bytes is above
    [maxAlloc]. *)
Definition make (n : Z) (v : Z) : outcome (list Z) :=
  if bool_decide (0 ≤ n ∧ n * 8 ≤ maxAlloc) then Returns (replicate (Z.to_nat n) v)
  else Panics.

(** [a[i]] *)
Definition index (a : list Z) (i : Z) : outcome Z :=
  if bool_decide (0 ≤ i < Z.of_nat (length a)) then
    match a !! Z.to_nat i with
    | Some v => Returns v
    | None => Panics
    end
  else Panics.

(** [a[i] = v] *)
Definition assign (a : list Z) (i v : Z) : outcome (list Z) :=
  if bool_decide (0 ≤ i < Z.of_nat (length a)) then Returns (<[Z.to_nat i := v]> a)
  else Panics.

End Slice.

(** [sort.Ints] *)
Definition sort_Ints (l : list Z) : list Z := merge_sort Z.le l.

(** ** internal/algorithm/optimizer.go *)

Module algorithm.
Import GoInt.

Record Result : Type := mkResult {
  PackCounts : gmap Z Z;  (* pack size -> count *)
  TotalItems : Z;
  TotalPacks : Z;
  Waste : Z
}.

(** [Result{PackCounts: make(map[int]int)}] *)
Definition emptyResult : Result :=
  {| PackCounts := ∅; TotalItems := 0; TotalPacks := 0; Waste := 0 |}.

(** [m[k]++] on a [map[int]int]: a missing key reads as zero. *)
Definition incr (k : Z) (m : gmap Z Z) : gmap Z Z :=
  <[k := add (default 0 (m !! k)) 1]> m.

(** The body of the inner loop of the table fill, for one [size] at row [i]. *)
Definition relax (i : Z) (st : list Z * list Z) (size : Z) : outcome (list Z * list Z) :=
  let '(dp, parent) := st in
  if bool_decide (size ≤ i) then
    prev ←! Slice.index dp (sub i size);
    if bool_decide (prev ≠ MaxInt32) then
      cur ←! Slice.index dp i;
      if bool_decide (add prev 1 < cur) then
        dp' ←! Slice.assign dp i (add prev 1);
        parent' ←! Slice.assign parent i size;
        Returns (dp', parent')
      else Returns st
    else Returns st
  else Returns st.

(** [for i := 1; i <= limit; i++ { for _, size := range sizes { ... } }] *)
Definition fill (sizes : list Z) (limit : Z) (st : list Z * list Z)
  : outcome (list Z * list Z) :=
  foldM (λ st i, foldM (relax i) st sizes) st (seqZ 1 limit).

(** The selection loop over [items]; [range] is what is left of
    [order..limit], [best] is [(bestItems, bestPacks)].  The fourth
    branch is the [break]. *)
Fixpoint scan (dp : list Z) (range : list Z) (best : Z * Z) : outcome (Z * Z) :=
  match range with
  | [] => Returns best
  | items :: rest =>
      d ←! Slice.index dp items;
      if bool_decide (d ≠ MaxInt32) then
        if bool_decide (best.1 = -1) then scan dp rest (items, d)
        else if bool_decide (items < best.1) then scan dp rest (items, d)
        else if bool_decide (items = best.1 ∧ d < best.2) then scan dp rest (best.1, d)
        else if bool_decide (items > best.1) then Returns best
        else scan dp rest best
      else scan dp rest best
  end.

(** [for current > 0 { size := parent[current]; packCounts[size]++; current -= size }] *)
Fixpoint backtrack (fuel : nat) (parent : list Z) (current : Z) (packCounts : gmap Z Z)
  : outcome (gmap Z Z) :=
  if bool_decide (current > 0) then
    match fuel with
    | O => OutOfFuel
    | S fuel' =>
        size ←! Slice.index parent current;
        backtrack fuel' parent (sub current size) (incr size packCounts)
    end
  else Returns packCounts.

Definition Calculate (order : Z) (packSizes : list Z) : outcome Result :=
  if bool_decide (order ≤ 0) then Returns emptyResult
  else if bool_decide (length packSizes = 0%nat) then Returns emptyResult
  else
    let sizes := sort_Ints packSizes in
    maxSize ←! Slice.index sizes (Z.of_nat (length sizes) - 1);
    let limit := add order maxSize in
    dp ←! Slice.make (add limit 1) MaxInt32;
    dp ←! Slice.assign dp 0 0;
    parent ←! Slice.make (add limit 1) 0;
    '(dp, parent) ←! fill sizes limit (dp, parent);
    '(bestItems, bestPacks) ←! scan dp (seqZ order (limit - order + 1)) (-1, MaxInt32);
    if bool_decide (bestItems = -1) then Returns emptyResult
    else
      packCounts ←! backtrack (Z.to_nat bestItems) parent bestItems ∅;
      Returns {| PackCounts := packCounts;
                 TotalItems := bestItems;
                 TotalPacks := bestPacks;
                 Waste := sub bestItems order |}.

Definition Validate (packSizes : list Z) : bool :=
  if bool_decide (length packSizes = 0%nat) then false
  else forallb (λ size, negb (bool_decide (size ≤ 0))) packSizes.

End algorithm.

Import algorithm.

(** ** crypto/sha256, fmt and float64, as far as the cache uses them *)

(** SHA-256 as FIPS 180-4 defines it, on bytes and 32-bit words as [Z]. *)
Module sha256.

Definition w32 (x : Z) : Z := x `mod` 2 ^ 32.
Definition rotr (n x : Z) : Z := Z.lor (Z.shiftr x n) (w32 (Z.shiftl x (32 - n))).
Definition not32 (x : Z) : Z := Z.lxor x (2 ^ 32 - 1).

Definition Ch (x y z : Z) : Z := Z.lxor (Z.land x y) (Z.land (not32 x) z).
Definition Maj (x y z : Z) : Z := Z.lxor (Z.lxor (Z.land x y) (Z.land x z)) (Z.land y z).
Definition Sigma0 (x : Z) : Z := Z.lxor (Z.lxor (rotr 2 x) (rotr 13 x)) (rotr 22 x).
Definition Sigma1 (x : Z) : Z := Z.lxor (Z.lxor (rotr 6 x) (rotr 11 x)) (rotr 25 x).
Definition sigma0 (x : Z) : Z := Z.lxor (Z.lxor (rotr 7 x) (rotr 18 x)) (Z.shiftr x 3).
Definition sigma1 (x : Z) : Z := Z.lxor (Z.lxor (rotr 17 x) (rotr 19 x)) (Z.shiftr x 10).

(** The sixty-four round constants and the initial hash value. *)
Definition K : list Z :=
  [1116352408; 1899447441; 3049323471; 3921009573; 961987163; 1508970993;
   2453635748; 2870763221; 3624381080; 310598401; 607225278; 1426881987;
   1925078388; 2162078206; 2614888103; 3248222580; 3835390401; 4022224774;
   264347078; 604807628; 770255983; 1249150122; 1555081692; 1996064986;
   2554220882; 2821834349; 2952996808; 3210313671; 3336571891; 3584528711;
   113926993; 338241895; 666307205; 773529912; 1294757372; 1396182291;
   1695183700; 1986661051; 2177026350; 2456956037; 2730485921; 2820302411;
   3259730800; 3345764771; 3516065817; 3600352804; 4094571909; 275423344;
   430227734; 506948616; 659060556; 883997877; 958139571; 1322822218;
   1537002063; 1747873779; 1955562222; 2024104815; 2227730452; 2361852424;
   2428436474; 2756734187; 3204031479; 3329325298].

Definition H0 : list Z :=
  [1779033703; 3144134277; 1013904242; 2773480762;
   1359893119; 2600822924; 528734635; 1541459225].

(** The message schedule: [win] holds the sixteen words [W t .. W (t+15)],
    the result lists [W t], [W (t+1)], ... *)
Fixpoint schedule (n : nat) (win : list Z) : list Z :=
  match n, win with
  | S n', w0 :: rest =>
      let w := w32 (sigma1 (nth 14 win 0) + nth 9 win 0 + sigma0 (nth 1 win 0) + w0) in
      w0 :: schedule n' (rest ++ [w])
  | _, _ => []
  end.

(** One round on the working variables [a .. h], with [kw = (K t, W t)]. *)
Definition round (v : list Z) (kw : Z * Z) : list Z :=
  match v with
  | [a; b; c; d; e; f; g; h] =>
      let t1 := h + Sigma1 e + Ch e f g + kw.1 + kw.2 in
      let t2 := Sigma0 a + Maj a b c in
      [w32 (t1 + t2); a; b; c; w32 (d + t1); e; f; g]
  | _ => v
  end.

(** The compression of one block of sixteen words into the hash value. *)
Definition compress (h : list Z) (block : list Z) : list Z :=
  let v := foldl round h (zip K (schedule 64 block)) in
  zip_with (λ x y, w32 (x + y)) h v.

(** Big-endian words of a sequence of bytes. *)
Fixpoint words (bytes : list Z) : list Z :=
  match bytes with
  | b0 :: b1 :: b2 :: b3 :: rest => (((b0 * 256 + b1) * 256 + b2) * 256 + b3) :: words rest
  | _ => []
  end.

Fixpoint blocks (n : nat) (ws : list Z) : list (list Z) :=
  match n with
  | O => []
  | S n' => take 16 ws :: blocks n' (drop 16 ws)
  end.

(** The [n] bytes of [x], the most significant first. *)
Definition be_bytes (n : nat) (x : Z) : list Z :=
  (λ i, (x `div` 256 ^ Z.of_nat i) `mod` 256) <$> rev (seq 0 n).

(** The padding: a one bit, zeros, and the length in bits on 64 bits. *)
Definition pad (msg : list Z) : list Z :=
  let len := Z.of_nat (length msg) in
  msg ++ [128] ++ replicate (Z.to_nat ((55 - len) `mod` 64)) 0 ++ be_bytes 8 (8 * len).

(** [sha256.Sum256]: the 32 bytes of the digest. *)
Definition Sum256 (msg : list Z) : list Z :=
  let ws := words (pad msg) in
  let h := foldl compress H0 (blocks (length ws / 16) ws) in
  h ≫= be_bytes 4.

End sha256.

Module fmt.

(** [[]byte(s)] *)
Definition bytes (s : string) : list Z :=
  (λ c, Z.of_N (N_of_ascii c)) <$> list_ascii_of_string s.

(** The verb [%d] on an [int]. *)
Definition int (z : Z) : string := NilZero.string_of_int (Z.to_int z).

(** The verb [%v] on a [[]int]. *)
Definition ints (l : list Z) : string :=
  String.append "[" (String.append (String.concat " " (int <$> l)) "]").

Definition hex_digit (d : Z) : ascii :=
  if bool_decide (d < 10) then ascii_of_N (Z.to_N (48 + d))
  else ascii_of_N (Z.to_N (87 + d)).

(** The verb [%x] on a [[]byte]. *)
Definition hex (bs : list Z) : string :=
  string_of_list_ascii (bs ≫= λ b, [hex_digit (b `div` 16); hex_digit (b `mod` 16)]).

End fmt.

(** [float64]: IEEE 754 binary64, rounding to nearest, ties to even. *)
Module float64.

Definition t : Type := spec_float.
Definition prec : Z := 53.
Definition emax : Z := 1024.
(** The conversion [float64(n)] of an integer, to the nearest. *)
Definition of_int (n : Z) : t := binary_normalize prec emax n 0 false.
Definition div (x y : t) : t := SFdiv prec emax x y.
Definition mul (x y : t) : t := SFmul prec emax x y.
Definition zero : t := S754_zero false.

End float64.

(** ** internal/cache/cache.go *)

Module cache.
Import GoInt.

(** [time.Minute] and [time.Hour], in nanoseconds. *)
Definition Minute : Z := 60 * 1000000000.
Definition Hour : Z := 60 * Minute.
Definition InitialTTL : Z := 5 * Minute.
Definition MaxTTL : Z := 24 * Hour.
Definition CacheKeyPrefix : string := "packcalc:".

Record CachedResult : Type := mkCachedResult {
  Items : Z;
  PackSizes : list Z;
  Result : gmap Z Z;
  TotalItems : Z;
  TotalPacks : Z;
  Waste : Z;
  CalculationTimeMs : Z;
  CachedAt : Z;
  HitCount : Z;
  CurrentTTL : Z
}.

(** The statistics, without [TotalKeys], [MemoryUsed] and [Uptime], which
    come from the server's own bookkeeping. *)
Record CacheStats : Type := mkCacheStats {
  Hits : Z;
  Misses : Z;
  HitRate : float64.t
}.

(** The server: under each cache key a value and the time at which
    it expires, if it does; the counters under [StatsHitsKey] and
    [StatsMissesKey], absent until the first increment and after
    [Clear]. *)
Record Redis : Type := mkRedis {
  entries : gmap string (CachedResult * option Z);
  hits : option Z;
  misses : option Z
}.

Record Cache : Type := mkCache {
  client : Redis;
  enabled : bool
}.

(** [client.Get]: the value under [key], unless it has expired. *)
Definition redis_get (now : Z) (key : string) (r : Redis) : option CachedResult :=
  match entries r !! key with
  | Some (v, None) => Some v
  | Some (v, Some expiry) => if bool_decide (now < expiry) then Some v else None
  | None => None
  end.

(** [client.Set] with an expiration: a positive one sets the expiry, -1
    ([redis.KeepTTL]) keeps the one of the key, any other sets none. *)
Definition redis_set (now : Z) (key : string) (v : CachedResult) (ttl : Z) (r : Redis)
  : Redis :=
  let expiry :=
    if bool_decide (0 < ttl) then Some (now + ttl)
    else if bool_decide (ttl = -1) then ((entries r !! key) ≫= snd)
    else None in
  {| entries := <[key := (v, expiry)]> (entries r); hits := hits r; misses := misses r |}.

(** [client.Incr]: a missing counter counts as zero; at the largest
    64-bit value the server refuses and the counter stays. *)
Definition redis_incr (counter : option Z) : option Z :=
  let v := default 0 counter in
  if bool_decide (v = MaxInt64) then counter else Some (v + 1).

(** [fmt.Sprintf("%d:%v", items, sorted)] *)
Definition data (items : Z) (sorted : list Z) : string :=
  String.append (fmt.int items) (String.append ":" (fmt.ints sorted)).

Definition generateKey (items : Z) (packSizes : list Z) : string :=
  let sorted := sort_Ints packSizes in
  let hash := sha256.Sum256 (fmt.bytes (data items sorted)) in
  String.append CacheKeyPrefix (fmt.hex (take 16 hash)).

Definition incrementHits (c : Cache) : Cache :=
  {| client := {| entries := entries (client c);
                  hits := redis_incr (hits (client c));
                  misses := misses (client c) |};
     enabled := enabled c |}.

Definition incrementMisses (c : Cache) : Cache :=
  {| client := {| entries := entries (client c);
                  hits := hits (client c);
                  misses := redis_incr (misses (client c)) |};
     enabled := enabled c |}.

Definition set (c : Cache) (now : Z) (key : string) (result : CachedResult) (ttl : Z)
  : Cache :=
  {| client := redis_set now key result ttl (client c); enabled := enabled c |}.

Definition Get (c : Cache) (now : Z) (items : Z) (packSizes : list Z)
  : Cache * option CachedResult :=
  if negb (enabled c) then (c, None)
  else
    let key := generateKey items packSizes in
    match redis_get now key (client c) with
    | None => (incrementMisses c, None)
    | Some result =>
        let hitCount := add (HitCount result) 1 in
        let newTTL := mul (CurrentTTL result) 2 in
        let newTTL := if bool_decide (newTTL > MaxTTL) then MaxTTL else newTTL in
        let result :=
          {| Items := Items result; PackSizes := PackSizes result; Result := Result result;
             TotalItems := TotalItems result; TotalPacks := TotalPacks result;
             Waste := Waste result; CalculationTimeMs := CalculationTimeMs result;
             CachedAt := CachedAt result; HitCount := hitCount; CurrentTTL := newTTL |} in
        let c := set c now key result newTTL in
        (incrementHits c, Some result)
    end.

(** [Set] (a reserved word here, hence the underscore). *)
Definition Set_ (c : Cache) (now : Z) (items : Z) (packSizes : list Z) (result : gmap Z Z)
    (totalItems totalPacks waste calcTime : Z) : Cache :=
  if negb (enabled c) then c
  else
    let key := generateKey items packSizes in
    let cached :=
      {| Items := items; PackSizes := packSizes; Result := result;
         TotalItems := totalItems; TotalPacks := totalPacks; Waste := waste;
         CalculationTimeMs := calcTime; CachedAt := now;
         HitCount := 0; CurrentTTL := InitialTTL |} in
    set c now key cached InitialTTL.

Definition GetStats (c : Cache) : CacheStats :=
  if negb (enabled c) then {| Hits := 0; Misses := 0; HitRate := float64.zero |}
  else
    let hits := default 0 (hits (client c)) in
    let misses := default 0 (misses (client c)) in
    let total := add hits misses in
    let hitRate :=
      if bool_decide (total > 0)
      then float64.mul (float64.div (float64.of_int hits) (float64.of_int total))
                       (float64.of_int 100)
      else float64.zero in
    {| Hits := hits; Misses := misses; HitRate := hitRate |}.

End cache.

(** ** internal/algorithm/optimizer.go, the functions around [Calculate] *)

Module optimizer.

(** [CalculateWithSizes] *)
Definition CalculateWithSizes (order : Z) (packSizes : list Z)
  : outcome (gmap Z Z * Z * Z * Z) :=
  result ←! Calculate order packSizes;
  Returns (PackCounts result, TotalItems result, TotalPacks result, Waste result).

(** [for b != 0 { a, b = b, a%b }; return a].  [%] is the remainder of
    the division that truncates, [Z.rem]; it never leaves the range of
    [int]. *)
Fixpoint gcd_loop (fuel : nat) (a b : Z) : outcome Z :=
  if bool_decide (b ≠ 0) then
    match fuel with
    | O => OutOfFuel
    | S fuel' => gcd_loop fuel' b (Z.rem a b)
    end
  else Returns a.

(** Twice the number of the bits of [b], and one: enough rounds. *)
Definition gcd_fuel (b : Z) : nat := S (2 * Z.to_nat (Z.log2 (Z.abs b) + 1)).

Definition gcd (a b : Z) : outcome Z := gcd_loop (gcd_fuel b) a b.

Definition CalculateGCD (packSizes : list Z) : outcome Z :=
  match packSizes with
  | [] => Returns 0
  | first :: rest => foldM gcd first rest
  end.

End optimizer.

(** ** internal/cache/cache.go, the functions around [Get] and [Set] *)

Module cache_ops.
Import GoInt cache.

Definition StatsHitsKey : string := "packcalc:stats:hits".
Definition StatsMissesKey : string := "packcalc:stats:misses".

Definition IsEnabled (c : Cache) : bool := enabled c.

(** An entry that is on the server at the time [now]: [redis_get] finds
    it. *)
Definition live (now : Z) (e : CachedResult * option Z) : bool :=
  match e.2 with
  | Some expiry => bool_decide (now < expiry)
  | None => true
  end.

(** [client.Keys(prefix + "*")]: the keys on the server that begin
    with [prefix], those of the two counters among them. *)
Definition redis_keys (now : Z) (prefix : string) (r : Redis) : list string :=
  (map_to_list (filter (λ kv, String.prefix prefix kv.1 = true ∧ live now kv.2 = true)
                       (entries r))).*1
  ++ (if bool_decide (is_Some (hits r)) && String.prefix prefix StatsHitsKey
      then [StatsHitsKey] else [])
  ++ (if bool_decide (is_Some (misses r)) && String.prefix prefix StatsMissesKey
      then [StatsMissesKey] else []).

(** [client.Del(keys...)] *)
Definition redis_del (keys : list string) (r : Redis) : Redis :=
  {| entries := foldr delete (entries r) keys;
     hits := if bool_decide (StatsHitsKey ∈ keys) then None else hits r;
     misses := if bool_decide (StatsMissesKey ∈ keys) then None else misses r |}.

Definition Clear (c : Cache) (now : Z) : Cache :=
  if negb (enabled c) then c
  else
    let keys := redis_keys now CacheKeyPrefix (client c) in
    let r := client c in
    let r := if bool_decide (0 < length keys)%nat then redis_del keys r else r in
    let r := redis_del [StatsHitsKey; StatsMissesKey] r in
    {| client := r; enabled := enabled c |}.

(** The field [TotalKeys] of the statistics that [GetStats] returns at
    the time [now]. *)
Definition TotalKeys (c : Cache) (now : Z) : Z :=
  if negb (enabled c) then 0
  else Z.of_nat (length (redis_keys now CacheKeyPrefix (client c))).

End cache_ops.

(** [parseInfoField], the reader of the server's [INFO] text *)

Module info.

(** The line feed, ['\n']. *)
Definition newline : ascii := "010"%char.

(** The loop over [i]; [fuel] is [len(lines) - i], the number of the
    rounds that are left. *)
Fixpoint scan_lines (fuel : nat) (lines field : list ascii) (i start : nat) : list ascii :=
  match fuel with
  | O => []
  | S fuel' =>
      if bool_decide (lines !! i = Some newline) then
        let line := take (i - start) (drop start lines) in
        let start := S i in
        if bool_decide (length field + 1 < length line)%nat
           && bool_decide (take (length field) line = field)
           && bool_decide (line !! length field = Some ":"%char)
        then drop (length field + 1) line
        else scan_lines fuel' lines field (S i) start
      else scan_lines fuel' lines field (S i) start
  end.

Definition parseInfoField (info field : string) : string :=
  let lines := list_ascii_of_string info in
  string_of_list_ascii (scan_lines (length lines) lines (list_ascii_of_string field) 0 0).

End info.

(** ** internal/models *)

Module models.

(** [CalculateRequest], the decoded body of a request; its two fields
    carry the prefix [Req] here. *)
Record CalculateRequest : Type := mkCalculateRequest {
  ReqItems : Z;
  ReqPackSizes : list Z
}.

(** [CalculateResponse].  [CacheTTL] holds the duration, in
    nanoseconds, that the handler prints into the field, and [None]
    where the field is left empty. *)
Record CalculateResponse : Type := mkCalculateResponse {
  Items : Z;
  PackSizes : list Z;
  Result : gmap Z Z;
  TotalItems : Z;
  TotalPacks : Z;
  Waste : Z;
  CalculationTimeMs : Z;
  Cached : bool;
  CacheTTL : option Z;
  CacheHitCount : Z
}.

Definition GetDefaultPackSizes : list Z := [250; 500; 1000; 2000; 5000].

End models.

(** ** internal/repo/repository.go

    The database is modelled by its two tables.  [pack_sizes] has the
    size as its primary key, so it is a set of sizes; [calculations]
    holds its rows in the order of their insertion.  A statement fails
    only by a violated constraint: the connection does not break. *)

Module repo.

(** A row of [calculations], without its [id] and [timestamp]. *)
Record calculation : Type := mkCalculation {
  items : Z;
  packSizes : list Z;
  result : gmap Z Z;
  total_items : Z;
  total_packs : Z;
  waste : Z
}.

Record Repository : Type := mkRepository {
  pack_sizes : gset Z;
  calculations : list calculation
}.

(** [SELECT size FROM pack_sizes ORDER BY size], and the default
    sizes when there is no row. *)
Definition GetPackSizes (r : Repository) : list Z :=
  let sizes := merge_sort Z.le (elements (pack_sizes r)) in
  if bool_decide (length sizes = 0%nat) then models.GetDefaultPackSizes else sizes.

(** [INSERT INTO pack_sizes (size) VALUES (?)]: a size that is in the
    table already violates the primary key. *)
Definition insert_size (table : gset Z) (size : Z) : option (gset Z) :=
  if bool_decide (size ∈ table) then None else Some ({[ size ]} ∪ table).

(** The transaction of [SetPackSizes]: [None] is the error, on which
    the deferred rollback leaves the table as it was. *)
Definition SetPackSizes (r : Repository) (sizes : list Z) : option Repository :=
  table ← foldl (λ table size, table ≫= λ t, insert_size t size) (Some ∅) sizes;
  Some {| pack_sizes := table; calculations := calculations r |}.

Definition SaveCalculation (r : Repository) (items : Z) (packSizes : list Z)
    (result : gmap Z Z) (totalItems totalPacks waste : Z) : Repository :=
  {| pack_sizes := pack_sizes r;
     calculations := calculations r ++
       [{| items := items; packSizes := packSizes; result := result;
           total_items := totalItems; total_packs := totalPacks; waste := waste |}] |}.

Definition ClearHistory (r : Repository) : Repository :=
  {| pack_sizes := pack_sizes r; calculations := [] |}.

End repo.

(** ** cmd: the start of the server

    [runAPI] and [runServe] prepare the pack sizes in the same way
    before they serve; [None] is the fatal error that ends the
    process. *)

Module cmd.

Definition init_pack_sizes (r : repo.Repository) : option repo.Repository :=
  let packSizes := repo.GetPackSizes r in
  if bool_decide (length packSizes = 0%nat)
  then repo.SetPackSizes r [250; 500; 1000; 2000; 5000]
  else Some r.

End cmd.

(** ** The handlers of the API *)

Module api.

Record Handler : Type := mkHandler {
  repo : repo.Repository;
  cache : cache.Cache
}.

(** What a handler writes: a body with the status 200, or the
    [ErrorResponse] of [respondError] with its status and message. *)
Inductive reply : Type :=
| Calculated (response : models.CalculateResponse)
| Config (packSizes : list Z)
| Updated (packSizes : list Z)
| Cleared
| Failure (code : Z) (error : string).

(** The pack sizes of a request: its own, or those of the database
    when it has none. *)
Definition sizes_of (h : Handler) (req : models.CalculateRequest) : list Z :=
  let packSizes := models.ReqPackSizes req in
  if bool_decide (length packSizes = 0%nat) then repo.GetPackSizes (repo h)
  else packSizes.

(** [HandleCalculate].  [body] is the decoded request, [None] when it
    does not decode; [now] is the time of the call and [elapsed] the
    time that [Calculate] takes, both in nanoseconds.  A panic of
    [Calculate] leaves the handler; the state is the one at that
    point. *)
Definition HandleCalculate (h : Handler) (now elapsed : Z)
    (body : option models.CalculateRequest) : Handler * outcome reply :=
  match body with
  | None => (h, Returns (Failure 400 "Invalid request body"))
  | Some req =>
      if bool_decide (models.ReqItems req ≤ 0)
      then (h, Returns (Failure 400 "Items must be greater than 0"))
      else
        let packSizes := sizes_of h req in
        if negb (Validate packSizes)
        then (h, Returns (Failure 400 "Invalid pack sizes"))
        else
          match cache.Get (cache h) now (models.ReqItems req) packSizes with
          | (c, Some cached) =>
              ({| repo := repo h; cache := c |},
               Returns (Calculated
                 {| models.Items := cache.Items cached;
                    models.PackSizes := cache.PackSizes cached;
                    models.Result := cache.Result cached;
                    models.TotalItems := cache.TotalItems cached;
                    models.TotalPacks := cache.TotalPacks cached;
                    models.Waste := cache.Waste cached;
                    models.CalculationTimeMs := cache.CalculationTimeMs cached;
                    models.Cached := true;
                    models.CacheTTL := Some (cache.CurrentTTL cached);
                    models.CacheHitCount := cache.HitCount cached |}))
          | (c, None) =>
              match Calculate (models.ReqItems req) packSizes with
              | Returns result =>
                  let ms := elapsed `quot` 1000000 in
                  let c := cache.Set_ c (now + elapsed) (models.ReqItems req) packSizes
                             (PackCounts result) (TotalItems result) (TotalPacks result)
                             (Waste result) ms in
                  let r := repo.SaveCalculation (repo h) (models.ReqItems req) packSizes
                             (PackCounts result) (TotalItems result) (TotalPacks result)
                             (Waste result) in
                  ({| repo := r; cache := c |},
                   Returns (Calculated
                     {| models.Items := models.ReqItems req;
                        models.PackSizes := packSizes;
                        models.Result := PackCounts result;
                        models.TotalItems := TotalItems result;
                        models.TotalPacks := TotalPacks result;
                        models.Waste := Waste result;
                        models.CalculationTimeMs := ms;
                        models.Cached := false;
                        models.CacheTTL := None;
                        models.CacheHitCount := 0 |}))
              | Panics => ({| repo := repo h; cache := c |}, Panics)
              | OutOfFuel => ({| repo := repo h; cache := c |}, OutOfFuel)
              end
          end
  end.

Definition HandleGetPackConfig (h : Handler) : Handler * outcome reply :=
  (h, Returns (Config (repo.GetPackSizes (repo h)))).

Definition HandleUpdatePackConfig (h : Handler) (body : option (list Z))
  : Handler * outcome reply :=
  match body with
  | None => (h, Returns (Failure 400 "Invalid request body"))
  | Some packSizes =>
      if negb (Validate packSizes)
      then (h, Returns (Failure 400 "Invalid pack sizes"))
      else
        match repo.SetPackSizes (repo h) packSizes with
        | None => (h, Returns (Failure 500 "Failed to update pack config"))
        | Some r => ({| repo := r; cache := cache h |}, Returns (Updated packSizes))
        end
  end.

Definition HandleClearHistory (h : Handler) : Handler * outcome reply :=
  ({| repo := repo.ClearHistory (repo h); cache := cache h |}, Returns Cleared).

Definition HandleCacheClear (h : Handler) (now : Z) : Handler * outcome reply :=
  ({| repo := repo h; cache := cache_ops.Clear (cache h) now |}, Returns Cleared).

(** The requests that the router passes to these handlers. *)
Inductive request : Type :=
| PostCalculate (now elapsed : Z) (body : option models.CalculateRequest)
| GetPackConfig
| PostPackConfig (body : option (list Z))
| PostHistoryClear
| PostCacheClear (now : Z).

Definition serve (h : Handler) (req : request) : Handler * outcome reply :=
  match req with
  | PostCalculate now elapsed body => HandleCalculate h now elapsed body
  | GetPackConfig => HandleGetPackConfig h
  | PostPackConfig body => HandleUpdatePackConfig h body
  | PostHistoryClear => HandleClearHistory h
  | PostCacheClear now => HandleCacheClear h now
  end.

End api.

(** * The vocabulary of the properties *)

(** ** Multisets of packs

    A multiset of packs is written as the list of the sizes of its packs;
    the pack counts of a [Result] are a map from size to count. *)

Definition total (ms : list Z) : Z := foldr Z.add 0 ms.

(** The sum over the entries of a map of [w size count]. *)
Definition weigh (w : Z → Z → Z) (m : gmap Z Z) : Z :=
  map_fold (λ size count acc, w size count + acc) 0 m.

(** The items and the packs that a map of pack counts stands for. *)
Definition items_of (m : gmap Z Z) : Z := weigh (λ size count, size * count) m.
Definition packs_of (m : gmap Z Z) : Z := weigh (λ _ count, count) m.

(** How often the size [k] occurs in a multiset. *)
Fixpoint count_in (k : Z) (ms : list Z) : Z :=
  match ms with
  | [] => 0
  | s :: ms' => (if bool_decide (s = k) then 1 else 0) + count_in k ms'
  end.

(** The map [m] holds the pack counts of the multiset [ms]: the sizes of
    [ms], each with the number of its occurrences. *)
Definition counts_as (m : gmap Z Z) (ms : list Z) : Prop :=
  ∀ k, m !! k = if bool_decide (count_in k ms = 0) then None else Some (count_in k ms).

(** [walk parent j ms]: following [parent] from [j] down to zero takes the
    packs [ms], in this order. *)
Inductive walk (parent : list Z) : Z → list Z → Prop :=
| walk_done : walk parent 0 []
| walk_step j s ms :
    0 < j → parent !! Z.to_nat j = Some s → 0 < s ≤ j →
    walk parent (j - s) ms → walk parent j (s :: ms).

(** What holds of the two tables while row [i] is being filled: every
    entry that is not the marker [GoInt.MaxInt32] lies at or below row [i]
    and is the length of the walk from it. *)
Record table_ok (sizes : list Z) (i : Z) (st : list Z * list Z) : Prop := {
  tk_len : length st.2 = length st.1;
  tk_len64 : Z.of_nat (length st.1) ≤ GoInt.MaxInt64;
  tk_bound : ∀ j d, st.1 !! j = Some d → 0 ≤ d ≤ GoInt.MaxInt32;
  tk_walk : ∀ j d, 0 ≤ j → st.1 !! Z.to_nat j = Some d → d ≠ GoInt.MaxInt32 →
    j ≤ i ∧ ∃ ms, walk st.2 j ms ∧ Z.of_nat (length ms) = d ∧ Forall (λ s, s ∈ sizes) ms
}.

(** [lower_bound i dp]: up to row [i], no multiset of packs reaches a
    total with fewer packs than the table says. *)
Definition lower_bound (sizes : list Z) (i : Z) (dp : list Z) : Prop :=
  ∀ j d ms, 0 ≤ j ≤ i → dp !! Z.to_nat j = Some d →
    Forall (λ s, s ∈ sizes) ms → total ms = j → d ≤ Z.of_nat (length ms).

(** The requests whose tables can be made: positive sizes, and
    [order + size + 1], the length of a table, within the limit of the
    runtime for every size. *)
Definition in_domain (order : Z) (packSizes : list Z) : Prop :=
  Forall (λ s, 0 < s ∧ order + s < Slice.MaxLen) packSizes.

(** A multiset of packs drawn from the allowed sizes. *)
Definition drawn_from (packSizes ms : list Z) : Prop := Forall (λ s, s ∈ packSizes) ms.

(** [r] is an optimal answer to the request: its pack counts are those
    of a multiset drawn from the sizes, with the total and the number of
    packs that [r] reports; the total covers the order; no multiset that
    covers the order has a smaller total; no multiset with this total
    has fewer packs. *)
Definition optimal (order : Z) (packSizes : list Z) (r : Result) : Prop :=
  (∃ ms, drawn_from packSizes ms ∧ counts_as (PackCounts r) ms ∧
         total ms = TotalItems r ∧ Z.of_nat (length ms) = TotalPacks r) ∧
  order ≤ TotalItems r ∧
  (∀ ms, drawn_from packSizes ms → order ≤ total ms → TotalItems r ≤ total ms) ∧
  (∀ ms, drawn_from packSizes ms → total ms = TotalItems r →
         TotalPacks r ≤ Z.of_nat (length ms)).

(** The result covers the order with a total of the scanned range
    [order..order + maxSize], where [maxSize] is the largest size, and
    reports the difference as waste. *)
Definition feasible (order : Z) (packSizes : list Z) (r : Result) : Prop :=
  order ≤ TotalItems r ∧
  Waste r = TotalItems r - order ∧ 0 ≤ Waste r ∧
  (∃ maxSize, maxSize ∈ packSizes ∧ (∀ s, s ∈ packSizes → s ≤ maxSize) ∧
              TotalItems r ≤ order + maxSize) ∧
  r ≠ emptyResult.

(** The least total that covers the order is the total of a multiset
    of fewer than [GoInt.MaxInt32] packs: the table holds the numbers
    of packs below this marker only. *)
Definition few_packs (order : Z) (packSizes : list Z) : Prop :=
  ∃ ms, drawn_from packSizes ms ∧ order ≤ total ms ∧
        (∀ ms2, drawn_from packSizes ms2 → order ≤ total ms2 → total ms ≤ total ms2) ∧
        Z.of_nat (length ms) < GoInt.MaxInt32.

(** Some total of the scanned range is the total of a multiset of
    fewer than [GoInt.MaxInt32] packs. *)
Definition within_reach (order : Z) (packSizes : list Z) : Prop :=
  ∃ ms size, drawn_from packSizes ms ∧ size ∈ packSizes ∧
             order ≤ total ms ≤ order + size ∧
             Z.of_nat (length ms) < GoInt.MaxInt32.

(** The characters that [data] puts between the numbers. *)
Definition separator (c : ascii) : Prop := c = ":"%char ∨ c = " "%char ∨ c = "]"%char.

(** A run of [Get] calls, each with its time and its request. *)
Fixpoint Gets (c : cache.Cache) (reqs : list (Z * Z * list Z))
  : cache.Cache * list (option cache.CachedResult) :=
  match reqs with
  | [] => (c, [])
  | (now, items, packSizes) :: rest =>
      let (c1, r) := cache.Get c now items packSizes in
      let (c2, rs) := Gets c1 rest in
      (c2, r :: rs)
  end.

(** The hits and the misses among the answers of a run. *)
Definition hits_in (rs : list (option cache.CachedResult)) : Z :=
  Z.of_nat (length (filter (λ r, is_Some r) rs)).
Definition misses_in (rs : list (option cache.CachedResult)) : Z :=
  Z.of_nat (length (filter (λ r, r = None) rs)).

(** An enabled cache on an empty server. *)
Definition fresh_cache : cache.Cache :=
  {| cache.client := {| cache.entries := ∅; cache.hits := None; cache.misses := None |};
     cache.enabled := true |}.

(** A cache after one hit and one miss: an entry is stored at time 0 and
    read at time 1, another one is asked for at time 2. *)
Definition one_hit_one_miss : cache.Cache :=
  let c1 := cache.Set_ fresh_cache 0 250 [250; 500] {[ 250 := 1 ]} 250 1 0 5 in
  (Gets c1 [(1, 250, [250; 500]); (2, 999, [250; 500])]).1.

(** The hit count and the time to live, in minutes, of an answer. *)
Definition ttl_of (r : option cache.CachedResult) : option (Z * Z) :=
  match r with
  | Some e => Some (cache.HitCount e, cache.CurrentTTL e `div` cache.Minute)
  | None => None
  end.

(** A sorted list without its repetitions: of equal neighbours the
    first is dropped. *)
Fixpoint squeeze (l : list Z) : list Z :=
  match l with
  | [] => []
  | x :: l' =>
      match l' with
      | [] => [x]
      | y :: _ => if bool_decide (x = y) then squeeze l' else x :: squeeze l'
      end
  end.

(** The time to live of an entry after [n] hits. *)
Definition TTL_after (n : nat) : Z :=
  Z.min (2 ^ Z.of_nat n * cache.InitialTTL) cache.MaxTTL.

(** Every call of the row comes before the entry expires: [prev] is
    the time of the call before, after which the entry had [n] hits. *)
Fixpoint in_time (prev : Z) (n : nat) (times : list Z) : Prop :=
  match times with
  | [] => True
  | t :: rest => t < prev + TTL_after n ∧ in_time t (S n) rest
  end.

(** The entry that [Set_] stores, after [n] hits. *)
Definition hit_n_times (e : cache.CachedResult) (n : nat) : cache.CachedResult :=
  {| cache.Items := cache.Items e; cache.PackSizes := cache.PackSizes e;
     cache.Result := cache.Result e; cache.TotalItems := cache.TotalItems e;
     cache.TotalPacks := cache.TotalPacks e; cache.Waste := cache.Waste e;
     cache.CalculationTimeMs := cache.CalculationTimeMs e;
     cache.CachedAt := cache.CachedAt e;
     cache.HitCount := Z.of_nat n; cache.CurrentTTL := TTL_after n |}.

(** A text of lines, each closed by a line feed, and what follows the
    last line feed. *)
Definition text (lines : list string) (rest : string) : string :=
  foldr (λ line acc, line +:+ String info.newline acc) rest lines.

(** A string without a line feed. *)
Definition one_line (s : string) : Prop := info.newline ∉ list_ascii_of_string s.

(** The line gives the field a value that is not empty. *)
Definition gives (field line : string) : Prop :=
  ∃ value, value ≠ ""%string ∧ line = field +:+ ":" +:+ value.

(** The test that [info.scan_lines] makes on a line. *)
Definition is_field (field line : list ascii) : bool :=
  bool_decide (length field + 1 < length line)%nat
  && bool_decide (take (length field) line = field)
  && bool_decide (line !! length field = Some ":"%char).

(** A run of the server: the requests are served one after the other,
    a panic ends the request and not the server. *)
Fixpoint run (h : api.Handler) (reqs : list api.request)
  : api.Handler * list (outcome api.reply) :=
  match reqs with
  | [] => (h, [])
  | req :: rest =>
      let (h1, out) := api.serve h req in
      let (h2, outs) := run h1 rest in
      (h2, out :: outs)
  end.

(** The response holds what [Calculate] returns for the request
    [(order, packSizes)]. *)
Definition answers (order : Z) (packSizes : list Z) (response : models.CalculateResponse)
  : Prop :=
  Calculate order packSizes
  = Returns {| PackCounts := models.Result response;
               TotalItems := models.TotalItems response;
               TotalPacks := models.TotalPacks response;
               Waste := models.Waste response |}.

(** Every entry of the cache lies under the key of the request that
    it names, and holds what [Calculate] returns for this request. *)
Definition stored_right (c : cache.Cache) : Prop :=
  ∀ key e expiry,
    cache.entries (cache.client c) !! key = Some (e, expiry) →
    key = cache.generateKey (cache.Items e) (cache.PackSizes e) ∧
    Calculate (cache.Items e) (cache.PackSizes e)
    = Returns {| PackCounts := cache.Result e; TotalItems := cache.TotalItems e;
                 TotalPacks := cache.TotalPacks e; Waste := cache.Waste e |}.

(** A state of the server in which the sizes of the database pass
    [Validate] and the entries of the cache are right. *)
Definition sound (h : api.Handler) : Prop :=
  Validate (repo.GetPackSizes (api.repo h)) = true ∧ stored_right (api.cache h).

(** A server on an empty database, with an empty cache. *)
Definition fresh_handler : api.Handler :=
  {| api.repo := {| repo.pack_sizes := ∅; repo.calculations := [] |};
     api.cache := fresh_cache |}.

(** * Properties *)

(** ** The model on the cases of the test suites *)

Section tests.

(** TestCalculate_MinimizeItems: fewer items come before fewer packs. *)
Example test_rule_priority :
  Calculate 10 [3; 5]
  = Returns {| PackCounts := {[ 5 := 2 ]}; TotalItems := 10; TotalPacks := 2; Waste := 0 |}.
Proof. by vm_compute. Qed.

Example test_tie_break_on_packs :
  Calculate 6 [1; 2; 3]
  = Returns {| PackCounts := {[ 3 := 2 ]}; TotalItems := 6; TotalPacks := 2; Waste := 0 |}.
Proof. by vm_compute. Qed.

Example test_overfill :
  Calculate 4 [3; 5]
  = Returns {| PackCounts := {[ 5 := 1 ]}; TotalItems := 5; TotalPacks := 1; Waste := 1 |}.
Proof. by vm_compute. Qed.

Example test_single_pack_size :
  Calculate 100 [50]
  = Returns {| PackCounts := {[ 50 := 2 ]}; TotalItems := 100; TotalPacks := 2; Waste := 0 |}.
Proof. by vm_compute. Qed.

Example test_small_order_large_packs :
  Calculate 1 [250; 500; 1000]
  = Returns {| PackCounts := {[ 250 := 1 ]}; TotalItems := 250; TotalPacks := 1;
               Waste := 249 |}.
Proof. by vm_compute. Qed.

(** TestCalculate_EmptyInput. *)
Example test_empty_input :
  Calculate 0 [250; 500] = Returns emptyResult ∧
  Calculate (-100) [250; 500] = Returns emptyResult ∧
  Calculate 100 [] = Returns emptyResult.
Proof. by vm_compute. Qed.

(** Sizes that [Validate] refuses: zero is never chosen, a negative size
    reads the table above its end. *)
Example test_sizes_not_positive :
  Calculate 1 [0; 3]
  = Returns {| PackCounts := {[ 3 := 1 ]}; TotalItems := 3; TotalPacks := 1; Waste := 2 |} ∧
  Calculate 1 [-5; 3] = Panics.
Proof. by vm_compute. Qed.

(** TestValidate. *)
Example test_Validate :
  Validate [250; 500; 1000] = true ∧ Validate [] = false ∧
  Validate [0; 250; 500] = false ∧ Validate [-100; 250; 500] = false.
Proof. by vm_compute. Qed.

(** The digest of ["abc"], as in FIPS 180-4. *)
Example test_Sum256 :
  fmt.hex (sha256.Sum256 (fmt.bytes "abc"))
  = "ba7816bf8f01cfea414140de5dae2223b00361a396177a9cb410ff61f20015ad"%string.
Proof. by vm_compute. Qed.

(** TestGenerateCacheKey and TestGenerateCacheKey_DifferentInputs. *)
Example test_cache_key :
  cache.generateKey 250 [1000; 500; 250] = cache.generateKey 250 [250; 500; 1000] ∧
  cache.generateKey 250 [250; 500] = "packcalc:32f45ee2653013d51716e385ffb5fc92"%string ∧
  cache.generateKey 251 [250; 500] = "packcalc:fd1c326668a07d07d9986afa401e4818"%string ∧
  cache.generateKey 250 [250; 500; 1000] = "packcalc:8c633e11a7f407232410c0837444a5eb"%string.
Proof. by vm_compute. Qed.

(** TestCache_AdaptiveTTL and TestCache_MaxTTL: the hit counts and the
    times to live, in minutes, of eleven hits in a row. *)
Example test_adaptive_TTL :
  map ttl_of
    (Gets (cache.Set_ fresh_cache 0 250 [250; 500] {[ 250 := 1 ]} 250 1 0 0)
          (map (λ t, (t, 250, [250; 500])) (seqZ 1 11))).2
  = [Some (1, 10); Some (2, 20); Some (3, 40); Some (4, 80); Some (5, 160);
     Some (6, 320); Some (7, 640); Some (8, 1280); Some (9, 1440); Some (10, 1440);
     Some (11, 1440)].
Proof. by vm_compute. Qed.

(** TestCache_Disabled. *)
Example test_disabled :
  let c := {| cache.client := cache.client fresh_cache; cache.enabled := false |} in
  cache.Set_ c 0 250 [250; 500] {[ 250 := 1 ]} 250 1 0 0 = c ∧
  cache.Get c 1 250 [250; 500] = (c, None).
Proof. by vm_compute. Qed.

End tests.

(** ** Machine integers *)

Section GoInt_facts.
Import GoInt.

Lemma wrap_id z : int64 z → wrap z = z.
Proof.
  unfold int64, wrap, MinInt64, MaxInt64. intros Hz.
  rewrite Z.mod_small; lia.
Qed.

Lemma wrap_int64 z : int64 (wrap z).
Proof.
  unfold int64, wrap, MinInt64, MaxInt64.
  pose proof (Z.mod_pos_bound (z + 2 ^ 63) (2 ^ 64)). lia.
Qed.

(** A difference [i - s] with [s ≤ i] that is non-negative after
    reduction did not wrap around. *)
Lemma sub_nonneg_exact i s :
  int64 s → 0 ≤ i ≤ MaxInt64 → s ≤ i → 0 ≤ sub i s → sub i s = i - s.
Proof.
  unfold sub, int64, wrap, MinInt64, MaxInt64. intros Hs Hi Hle Hnn.
  destruct (decide (i - s < 2 ^ 63)) as [Hlt|Hge].
  - rewrite Z.mod_small; lia.
  - exfalso. revert Hnn.
    replace (i - s + 2 ^ 63) with ((i - s - 2 ^ 63) + 1 * 2 ^ 64) by lia.
    rewrite Z.mod_add by lia. rewrite Z.mod_small; lia.
Qed.

End GoInt_facts.

(** ** Loops and slices *)

Lemma bind_Returns {A B : Type} (c : outcome A) (k : A → outcome B) b :
  bind c k = Returns b ↔ ∃ a, c = Returns a ∧ k a = Returns b.
Proof.
  destruct c; simpl; split; try (intros (? & ? & ?)); try done; eauto.
  by simplify_eq.
Qed.

Section loop_facts.
Context {A B : Type}.

(** Partial correctness of a loop over a list, with an invariant on
    the part of the list already visited. *)
Lemma foldM_inv (f : A → B → outcome A) (I : list B → A → Prop) l a a' :
  I [] a →
  (∀ pre x a1 a2, x ∈ l → I pre a1 → f a1 x = Returns a2 → I (pre ++ [x]) a2) →
  foldM f a l = Returns a' → I l a'.
Proof.
  intros H0 Hstep.
  assert (∀ suf pre a1, (∀ x, x ∈ suf → x ∈ l) → I pre a1 →
            foldM f a1 suf = Returns a' → I (pre ++ suf) a') as Hgen.
  { induction suf as [|x suf IH]; intros pre a1 Hin Hpre Hrun; simpl in Hrun.
    - simplify_eq. by rewrite app_nil_r.
    - apply bind_Returns in Hrun as (a2 & Hx & Hrest).
      replace (pre ++ x :: suf) with ((pre ++ [x]) ++ suf) by by rewrite <- app_assoc.
      apply (IH _ a2); [| |done].
      + intros y Hy. apply Hin. by right.
      + eapply Hstep; [|done..]. apply Hin. by left. }
  intros Hrun. by apply (Hgen l [] a).
Qed.

(** Totality of a loop over a list. *)
Lemma foldM_total (f : A → B → outcome A) (I : A → Prop) l a :
  I a →
  (∀ x a1, x ∈ l → I a1 → ∃ a2, f a1 x = Returns a2 ∧ I a2) →
  ∃ a', foldM f a l = Returns a' ∧ I a'.
Proof.
  revert a. induction l as [|x l IH]; intros a Ha Hstep; simpl; [eauto|].
  destruct (Hstep x a) as (a2 & -> & Ha2); [by left|done|]. simpl.
  apply IH; [done|]. intros y a1 Hy. apply Hstep. by right.
Qed.

End loop_facts.

Section range_loops.
Context {A : Type}.

(** Partial correctness of [for i := m; i < m + n; i++]. *)
Lemma foldM_seqZ_inv (f : A → Z → outcome A) (I : Z → A → Prop) m n a a' :
  0 ≤ n → I m a →
  (∀ i a1 a2, m ≤ i < m + n → I i a1 → f a1 i = Returns a2 → I (i + 1) a2) →
  foldM f a (seqZ m n) = Returns a' → I (m + n) a'.
Proof.
  intros Hn. revert m a. pattern n. apply natlike_ind; [| |done].
  - intros m a H0 _ Hrun. rewrite seqZ_nil in Hrun by lia. simpl in Hrun.
    simplify_eq. by rewrite Z.add_0_r.
  - clear n Hn. intros n Hn IH m a H0 Hstep Hrun.
    rewrite seqZ_cons in Hrun by lia. simpl in Hrun.
    apply bind_Returns in Hrun as (a2 & Hm & Hrest).
    replace (Z.pred (Z.succ n)) with n in Hrest by lia.
    replace (m + Z.succ n) with (Z.succ m + n) by lia.
    apply (IH (Z.succ m) a2); [| |done].
    + replace (Z.succ m) with (m + 1) by lia. apply (Hstep m a); [lia|done..].
    + intros i a1 a3 Hi. apply Hstep. lia.
Qed.

(** Totality of the same loop. *)
Lemma foldM_seqZ_total (f : A → Z → outcome A) (I : Z → A → Prop) m n a :
  0 ≤ n → I m a →
  (∀ i a1, m ≤ i < m + n → I i a1 → ∃ a2, f a1 i = Returns a2 ∧ I (i + 1) a2) →
  ∃ a', foldM f a (seqZ m n) = Returns a' ∧ I (m + n) a'.
Proof.
  intros Hn. revert m a. pattern n. apply natlike_ind; [| |done].
  - intros m a H0 _. rewrite seqZ_nil by lia. simpl. rewrite Z.add_0_r. eauto.
  - clear n Hn. intros n Hn IH m a H0 Hstep.
    rewrite seqZ_cons by lia. simpl.
    destruct (Hstep m a) as (a2 & -> & Ha2); [lia|done|]. simpl.
    replace (Z.pred (Z.succ n)) with n by lia.
    replace (m + Z.succ n) with (Z.succ m + n) by lia.
    apply IH.
    + by replace (Z.succ m) with (m + 1) by lia.
    + intros i a1 Hi. apply Hstep. lia.
Qed.

End range_loops.

Section slice_facts.
Import Slice.

Lemma index_Returns a i v :
  index a i = Returns v ↔ 0 ≤ i ∧ a !! Z.to_nat i = Some v.
Proof.
  unfold index. case_bool_decide as Hi.
  - destruct (a !! Z.to_nat i) eqn:E; split.
    + intros [= ->]. split; [lia|done].
    + intros [_ [= ->]]. done.
    + done.
    + intros [_ ?]. done.
  - split; [done|]. intros [? Hl]. apply lookup_lt_Some in Hl. lia.
Qed.

Lemma index_in_range a i :
  0 ≤ i < Z.of_nat (length a) → ∃ v, index a i = Returns v ∧ a !! Z.to_nat i = Some v.
Proof.
  intros Hi. destruct (lookup_lt_is_Some_2 a (Z.to_nat i)) as [v Hv]; [lia|].
  exists v. split; [|done]. apply index_Returns. split; [lia|done].
Qed.

Lemma assign_Returns a i v a' :
  assign a i v = Returns a' ↔ 0 ≤ i < Z.of_nat (length a) ∧ a' = <[Z.to_nat i := v]> a.
Proof.
  unfold assign. case_bool_decide as Hi; split.
  - intros [= <-]. done.
  - intros [_ ->]. done.
  - done.
  - intros [? _]. lia.
Qed.

End slice_facts.

Section walk_facts.

Lemma walk_total parent j ms : walk parent j ms → total ms = j.
Proof. induction 1; simpl; lia. Qed.

Lemma walk_length parent j ms : walk parent j ms → Z.of_nat (length ms) ≤ j.
Proof. induction 1; simpl length; lia. Qed.

(** A write above [j] does not change the walk from [j]. *)
Lemma walk_insert parent j ms k s :
  walk parent j ms → j < k → walk (<[Z.to_nat k := s]> parent) j ms.
Proof.
  induction 1 as [|j s' ms Hj Hp Hs Hw IH]; intros Hk; [constructor|].
  econstructor; [done| |done|apply IH; lia].
  rewrite list_lookup_insert_ne by lia. done.
Qed.

End walk_facts.

(** ** The table fill *)

Section fill_facts.
Import GoInt.
Variable sizes : list Z.
Hypothesis sizes64 : Forall int64 sizes.

Lemma table_ok_mono i i' st : i ≤ i' → table_ok sizes i st → table_ok sizes i' st.
Proof.
  intros Hi [H1 H2 H3 H4]. split; try done.
  intros j d Hj Hd Hne. destruct (H4 j d Hj Hd Hne) as [? ?]. split; [lia|done].
Qed.

(** One step of the inner loop. *)
Lemma relax_spec i st size st' :
  0 < i < Z.of_nat (length st.1) → size ∈ sizes → table_ok sizes i st →
  relax i st size = Returns st' →
  table_ok sizes i st' ∧
  length st'.1 = length st.1 ∧
  (∀ j, 0 ≤ j → j ≠ i → st'.1 !! Z.to_nat j = st.1 !! Z.to_nat j) ∧
  (∀ c c', st.1 !! Z.to_nat i = Some c → st'.1 !! Z.to_nat i = Some c' → c' ≤ c) ∧
  (∀ p c', 0 < size ≤ i → st.1 !! Z.to_nat (i - size) = Some p → p ≠ MaxInt32 →
           st'.1 !! Z.to_nat i = Some c' → c' ≤ p + 1).
Proof.
  intros Hi Hsize Hok. destruct st as [dp parent]. unfold relax.
  assert (int64 size) as Hs64 by (by eapply Forall_forall in sizes64).
  pose proof (tk_len _ _ _ Hok) as Hlen. pose proof (tk_len64 _ _ _ Hok) as Hlen64.
  simpl in Hlen, Hlen64, Hi.
  assert (∀ st0 : list Z * list Z, st0 = (dp, parent) →
    (∀ p c', 0 < size ≤ i → dp !! Z.to_nat (i - size) = Some p → p ≠ MaxInt32 →
           dp !! Z.to_nat i = Some c' → c' ≤ p + 1) →
    table_ok sizes i st0 ∧
    length st0.1 = length dp ∧
    (∀ j, 0 ≤ j → j ≠ i → st0.1 !! Z.to_nat j = dp !! Z.to_nat j) ∧
    (∀ c c', dp !! Z.to_nat i = Some c → st0.1 !! Z.to_nat i = Some c' → c' ≤ c) ∧
    (∀ p c', 0 < size ≤ i → dp !! Z.to_nat (i - size) = Some p → p ≠ MaxInt32 →
           st0.1 !! Z.to_nat i = Some c' → c' ≤ p + 1)) as Hsame.
  { intros st0 -> Hlast. simpl.
    split; [done|]. split; [done|]. split; [done|]. split; [|done].
    intros c c' ? ?. simplify_eq. lia. }
  case_bool_decide as Hle; [|intros ?; simplify_eq; apply Hsame; [done|]; intros; lia].
  intros Hrun. apply bind_Returns in Hrun as (prev & Hprev & Hrun).
  apply index_Returns in Hprev as [Hidx Hprev].
  assert (sub i size = i - size) as Hsub.
  { apply sub_nonneg_exact; [done|lia|done|done]. }
  rewrite Hsub in *. clear Hsub.
  case_bool_decide as Hne; [|simplify_eq; apply Hsame; [done|]; intros; simplify_eq].
  apply bind_Returns in Hrun as (cur & Hcur & Hrun).
  apply index_Returns in Hcur as [_ Hcur].
  destruct (tk_walk _ _ _ Hok (i - size) prev Hidx Hprev Hne) as (Hrow & ms & Hms & Hmslen & Hmsin).
  pose proof (tk_bound _ _ _ Hok _ _ Hprev) as Hpb. simpl in Hpb.
  assert (add prev 1 = prev + 1) as Hadd.
  { apply wrap_id. unfold int64, MinInt64, MaxInt64, MaxInt32 in *. lia. }
  rewrite Hadd in *. clear Hadd.
  case_bool_decide as Hlt; [|simplify_eq; apply Hsame; [done|]; intros; simplify_eq; lia].
  apply bind_Returns in Hrun as (dp' & Hdp' & Hrun).
  apply bind_Returns in Hrun as (parent' & Hparent' & Hrun).
  apply assign_Returns in Hdp' as [_ ->]. apply assign_Returns in Hparent' as [_ ->].
  injection Hrun as <-. simpl in *.
  pose proof (tk_bound _ _ _ Hok _ _ Hcur) as Hcb. simpl in Hcb.
  (* the row read is strictly below row [i], so [size] is positive *)
  assert (0 < size) as Hpos.
  { destruct (decide (size = 0)) as [->|]; [|lia].
    rewrite Z.sub_0_r in Hprev. simplify_eq. lia. }
  split; [split; simpl|repeat split].
  - by rewrite !length_insert.
  - by rewrite length_insert.
  - intros j d. destruct (decide (j = Z.to_nat i)) as [->|Hji].
    + rewrite list_lookup_insert_eq by lia. intros [= <-]. lia.
    + rewrite list_lookup_insert_ne by done. apply (tk_bound _ _ _ Hok).
  - intros j d Hj. destruct (decide (j = i)) as [->|Hji].
    + rewrite list_lookup_insert_eq by lia. intros [= <-] _. split; [lia|].
      exists (size :: ms). split; [|split].
      * econstructor; [lia| |lia|].
        -- rewrite list_lookup_insert_eq by lia. done.
        -- apply walk_insert; [done|lia].
      * simpl length. lia.
      * by constructor.
    + rewrite list_lookup_insert_ne by lia. intros Hd Hdne.
      destruct (tk_walk _ _ _ Hok j d Hj Hd Hdne) as (Hjrow & ms' & Hms' & ? & ?).
      split; [done|]. exists ms'. split; [|done].
      apply walk_insert; [done|lia].
  - by rewrite length_insert.
  - intros j Hj Hji. rewrite list_lookup_insert_ne by lia. done.
  - intros c c' Hc. rewrite list_lookup_insert_eq by lia. intros [= <-].
    simplify_eq. lia.
  - intros p c' _ Hp Hpne. rewrite list_lookup_insert_eq by lia. intros [= <-].
    simplify_eq. lia.
Qed.

(** One row: the inner loop over all sizes. *)
Lemma row_spec i st st' :
  0 < i < Z.of_nat (length st.1) → table_ok sizes i st →
  foldM (relax i) st sizes = Returns st' →
  table_ok sizes i st' ∧
  length st'.1 = length st.1 ∧
  (∀ j, 0 ≤ j → j ≠ i → st'.1 !! Z.to_nat j = st.1 !! Z.to_nat j) ∧
  (∀ s p c', s ∈ sizes → 0 < s ≤ i → st.1 !! Z.to_nat (i - s) = Some p →
             p ≠ MaxInt32 → st'.1 !! Z.to_nat i = Some c' → c' ≤ p + 1).
Proof.
  intros Hi Hok.
  apply (foldM_inv (relax i) (λ pre st1,
    table_ok sizes i st1 ∧
    length st1.1 = length st.1 ∧
    (∀ j, 0 ≤ j → j ≠ i → st1.1 !! Z.to_nat j = st.1 !! Z.to_nat j) ∧
    (∀ s p c', s ∈ pre → 0 < s ≤ i → st.1 !! Z.to_nat (i - s) = Some p →
               p ≠ MaxInt32 → st1.1 !! Z.to_nat i = Some c' → c' ≤ p + 1))).
  - split; [done|]. split; [done|]. split; [done|].
    intros s p c' Hs. by apply elem_of_nil in Hs.
  - intros pre x st1 st2 Hx (Hok1 & Hlen1 & Hsame1 & Hmin1) Hrun.
    destruct (relax_spec i st1 x st2) as (Hok2 & Hlen2 & Hsame2 & Hle2 & Hmin2);
      [lia|done..|].
    split; [done|]. split; [congruence|]. split.
    { intros j Hj Hji. rewrite Hsame2 by done. by apply Hsame1. }
    intros s p c' Hs Hsi Hp Hpne Hc'.
    destruct (lookup_lt_is_Some_2 st1.1 (Z.to_nat i)) as [c1 Hc1]; [lia|].
    apply elem_of_app in Hs as [Hs|Hs].
    + transitivity c1; [by eapply Hle2|]. by eapply Hmin1.
    + apply list_elem_of_singleton in Hs as ->.
      eapply Hmin2; [done| |done..]. rewrite Hsame1 by lia. done.
Qed.

(** A row never panics when the sizes are positive. *)
Lemma relax_total i st size :
  0 < i < Z.of_nat (length st.1) → Z.of_nat (length st.1) ≤ MaxInt64 →
  length st.2 = length st.1 → 0 < size →
  ∃ st', relax i st size = Returns st'.
Proof.
  destruct st as [dp parent]. simpl. intros Hi Hlen64 Hlen Hsize. unfold relax.
  case_bool_decide as Hle; [|eauto].
  assert (sub i size = i - size) as ->.
  { apply wrap_id. unfold int64, MinInt64, MaxInt64 in *. lia. }
  destruct (index_in_range dp (i - size)) as (prev & -> & _); [lia|]. simpl.
  case_bool_decide; [|eauto].
  destruct (index_in_range dp i) as (cur & -> & _); [lia|]. simpl.
  case_bool_decide; [|eauto].
  unfold Slice.assign. rewrite !bool_decide_true by lia. simpl. eauto.
Qed.

Lemma row_total i st :
  0 < i < Z.of_nat (length st.1) → table_ok sizes i st → Forall (λ s, 0 < s) sizes →
  ∃ st', foldM (relax i) st sizes = Returns st'.
Proof.
  intros Hi Hok Hpos.
  destruct (foldM_total (relax i)
              (λ st1, table_ok sizes i st1 ∧ length st1.1 = length st.1) sizes st)
    as (st' & Hrun & _); [done| |eauto].
  intros x st1 Hx [Hok1 Hlen1].
  destruct (relax_total i st1 x) as [st2 Hst2].
  - lia.
  - apply Hok1.
  - apply Hok1.
  - by eapply Forall_forall in Hpos.
  - exists st2. split; [done|].
    destruct (relax_spec i st1 x st2) as (Hok2 & Hlen2 & _); [lia|done..|].
    split; [done|congruence].
Qed.

Lemma total_nonneg ms : Forall (λ s, 0 < s) ms → 0 ≤ total ms.
Proof. induction 1; simpl; lia. Qed.

Lemma length_le_total ms : Forall (λ s, 0 < s) ms → Z.of_nat (length ms) ≤ total ms.
Proof. induction 1; simpl total; simpl length; lia. Qed.

Lemma packs_positive ms :
  Forall (λ s, 0 < s) sizes → Forall (λ s, s ∈ sizes) ms → Forall (λ s, 0 < s) ms.
Proof.
  intros Hpos Hms. eapply Forall_impl; [exact Hms|]. simpl.
  intros s Hs. by eapply Forall_forall in Hpos.
Qed.

Lemma lower_bound_row i (st st' : list Z * list Z) :
  0 < i < Z.of_nat (length st.1) → Forall (λ s, 0 < s) sizes →
  table_ok sizes i st' → length st'.1 = length st.1 →
  (∀ j, 0 ≤ j → j ≠ i → st'.1 !! Z.to_nat j = st.1 !! Z.to_nat j) →
  (∀ s p c', s ∈ sizes → 0 < s ≤ i → st.1 !! Z.to_nat (i - s) = Some p →
             p ≠ MaxInt32 → st'.1 !! Z.to_nat i = Some c' → c' ≤ p + 1) →
  lower_bound sizes (i - 1) st.1 → lower_bound sizes i st'.1.
Proof.
  intros Hi Hpos Hok' Hlen Hsame Hmin Hlb j d ms Hj Hd Hms Htot.
  destruct (decide (j = i)) as [->|Hji].
  - destruct ms as [|s ms']; [simpl in Htot; lia|].
    apply Forall_cons in Hms as [Hs Hms']. simpl in Htot.
    assert (0 < s) as Hs0 by (by eapply Forall_forall in Hpos).
    pose proof (total_nonneg ms' (packs_positive _ Hpos Hms')) as Hnn.
    destruct (lookup_lt_is_Some_2 st.1 (Z.to_nat (i - s))) as [p Hp]; [lia|].
    assert (p ≤ Z.of_nat (length ms')) as Hple.
    { apply (Hlb (i - s) p ms'); [lia|done|done|lia]. }
    simpl length. destruct (decide (p = MaxInt32)) as [->|Hpne].
    + pose proof (tk_bound _ _ _ Hok' _ _ Hd). lia.
    + pose proof (Hmin s p d Hs ltac:(lia) Hp Hpne Hd). lia.
  - rewrite Hsame in Hd by lia. apply (Hlb j d ms); [lia|done..].
Qed.

(** The whole table. *)
Lemma fill_spec limit st st' :
  0 ≤ limit < Z.of_nat (length st.1) → table_ok sizes 0 st →
  fill sizes limit st = Returns st' →
  table_ok sizes limit st' ∧
  length st'.1 = length st.1 ∧
  (Forall (λ s, 0 < s) sizes → lower_bound sizes 0 st.1 → lower_bound sizes limit st'.1).
Proof.
  intros Hlimit Hok0 Hrun.
  pose (I := λ (i : Z) (st1 : list Z * list Z),
    table_ok sizes (i - 1) st1 ∧
    length st1.1 = length st.1 ∧
    (Forall (λ s, 0 < s) sizes → lower_bound sizes 0 st.1 → lower_bound sizes (i - 1) st1.1)).
  assert (I (1 + limit) st') as (H1 & H2 & H3).
  { revert Hrun. unfold fill. apply foldM_seqZ_inv; [lia| |].
    - split; [done|]. split; [done|]. intros _ ?. done.
    - intros i st1 st2 Hi (Hok1 & Hlen1 & Hlb1) Hrow.
      destruct (row_spec i st1 st2) as (Hok2 & Hlen2 & Hsame2 & Hmin2);
        [lia|by eapply table_ok_mono; [|exact Hok1]; lia|done|].
      split; [|split].
      + by replace (i + 1 - 1) with i by lia.
      + congruence.
      + intros Hpos Hlb0. replace (i + 1 - 1) with i by lia.
        apply (lower_bound_row i st1 st2); try done; [lia|]. by apply Hlb1. }
  replace (1 + limit - 1) with limit in * by lia. done.
Qed.

Lemma fill_total limit st :
  0 ≤ limit < Z.of_nat (length st.1) → table_ok sizes 0 st → Forall (λ s, 0 < s) sizes →
  ∃ st', fill sizes limit st = Returns st'.
Proof.
  intros Hlimit Hok0 Hpos.
  destruct (foldM_seqZ_total (λ st i, foldM (relax i) st sizes)
              (λ i st1, table_ok sizes (i - 1) st1 ∧ length st1.1 = length st.1) 1 limit st)
    as (st' & Hrun & _); [lia|done| |by exists st'].
  intros i st1 Hi [Hok1 Hlen1].
  assert (table_ok sizes i st1) as Hoki by (eapply table_ok_mono; [|exact Hok1]; lia).
  destruct (row_total i st1) as [st2 Hst2]; [lia|done..|].
  exists st2. split; [done|].
  destruct (row_spec i st1 st2) as (Hok2 & Hlen2 & _); [lia|done..|].
  split; [by replace (i + 1 - 1) with i by lia|congruence].
Qed.

End fill_facts.

(** ** The selection loop *)

Section scan_facts.
Import GoInt.

(** Once a total has been chosen, the rest of the scan keeps it. *)
Lemma scan_done dp n : ∀ m best b,
  best.1 ≠ -1 → best.1 < m →
  scan dp (seqZ m n) best = Returns b → b = best.
Proof.
  destruct (decide (0 ≤ n)) as [Hn|Hn];
    [|intros m best b _ _; rewrite seqZ_nil by lia; simpl; congruence].
  pattern n. apply natlike_ind; [| |done]; clear n Hn.
  - intros m best b _ _. rewrite seqZ_nil by lia. simpl. congruence.
  - intros n Hn IH m best b Hb1 Hb2. rewrite seqZ_cons by lia. simpl.
    replace (Z.pred (Z.succ n)) with n by lia.
    intros Hrun. apply bind_Returns in Hrun as (d & _ & Hrun).
    case_bool_decide.
    + rewrite bool_decide_false in Hrun by done.
      rewrite bool_decide_false in Hrun by lia.
      rewrite bool_decide_false in Hrun by lia.
      rewrite bool_decide_true in Hrun by lia. congruence.
    + apply (IH (Z.succ m)); [done|lia|done].
Qed.

(** The scan returns the first total of the range that the table reaches. *)
Lemma scan_spec dp n : ∀ m b,
  0 < m → scan dp (seqZ m n) (-1, MaxInt32) = Returns b →
  (b = (-1, MaxInt32) ∧ ∀ x, m ≤ x < m + n → dp !! Z.to_nat x = Some MaxInt32) ∨
  (m ≤ b.1 < m + n ∧ dp !! Z.to_nat b.1 = Some b.2 ∧ b.2 ≠ MaxInt32 ∧
   ∀ x, m ≤ x < b.1 → dp !! Z.to_nat x = Some MaxInt32).
Proof.
  destruct (decide (0 ≤ n)) as [Hn|Hn].
  2:{ intros m b _. rewrite seqZ_nil by lia. simpl. intros [= <-]. left.
      split; [done|]. intros; lia. }
  pattern n. apply natlike_ind; [| |done]; clear n Hn.
  - intros m b _. rewrite seqZ_nil by lia. simpl. intros [= <-]. left.
    split; [done|]. intros; lia.
  - intros n Hn IH m b Hm. rewrite seqZ_cons by lia. simpl.
    replace (Z.pred (Z.succ n)) with n by lia.
    intros Hrun. apply bind_Returns in Hrun as (d & Hd & Hrun).
    apply index_Returns in Hd as [_ Hd].
    case_bool_decide as Hne.
    + apply scan_done in Hrun as ->; simpl; [|lia..]. right.
      split; [lia|]. split; [done|]. split; [done|]. intros; lia.
    + subst d.
      destruct (IH (Z.succ m) b) as [[-> Hall]|(Hb & Hbd & Hbne & Hall)]; [lia|done| |].
      * left. split; [done|]. intros x Hx.
        destruct (decide (x = m)) as [->|]; [done|]. apply Hall. lia.
      * right. split; [lia|]. split; [done|]. split; [done|]. intros x Hx.
        destruct (decide (x = m)) as [->|]; [done|]. apply Hall. lia.
Qed.

Lemma scan_total dp range : ∀ best,
  (∀ x, x ∈ range → 0 ≤ x < Z.of_nat (length dp)) →
  ∃ b, scan dp range best = Returns b.
Proof.
  induction range as [|x range IH]; intros best Hin; simpl; [eauto|].
  destruct (index_in_range dp x) as (d & -> & _); [apply Hin; by left|]. simpl.
  assert (∀ best', ∃ b, scan dp range best' = Returns b) as IH'.
  { intros best'. apply IH. intros y Hy. apply Hin. by right. }
  repeat case_bool_decide; eauto.
Qed.

End scan_facts.

(** ** Pack counts *)

Section counts_facts.
Import GoInt.

Lemma weigh_empty w : weigh w ∅ = 0.
Proof. unfold weigh. by rewrite map_fold_empty. Qed.

Lemma weigh_insert_fresh w (m : gmap Z Z) k v :
  m !! k = None → weigh w (<[k:=v]> m) = w k v + weigh w m.
Proof.
  intros Hk. unfold weigh.
  rewrite map_fold_insert_L; [done| |done]. intros; lia.
Qed.

Lemma weigh_insert w (m : gmap Z Z) k v :
  weigh w (<[k:=v]> m)
  = weigh w m + w k v - match m !! k with Some c => w k c | None => 0 end.
Proof.
  destruct (m !! k) as [c|] eqn:Hk.
  - assert (delete k m !! k = None) as Hd by apply lookup_delete_eq.
    assert (<[k:=v]> m = <[k:=v]> (delete k m)) as Hv by by rewrite insert_delete_eq.
    assert (m = <[k:=c]> (delete k m)) as Hc by by rewrite insert_delete_id.
    revert Hd Hv Hc. generalize (delete k m). intros d Hd -> Hc.
    rewrite Hc. rewrite !weigh_insert_fresh by done. lia.
  - rewrite weigh_insert_fresh by done. lia.
Qed.

Lemma count_in_app k l1 l2 : count_in k (l1 ++ l2) = count_in k l1 + count_in k l2.
Proof. induction l1 as [|s l1 IH]; simpl; lia. Qed.

Lemma count_in_bounds k ms : 0 ≤ count_in k ms ≤ Z.of_nat (length ms).
Proof.
  induction ms as [|s ms IH]; [simpl; lia|].
  simpl count_in. simpl length. case_bool_decide; lia.
Qed.

Lemma count_in_absent k ms : k ∉ ms → count_in k ms = 0.
Proof.
  induction ms as [|s ms IH]; [done|]. intros Hk. simpl.
  apply not_elem_of_cons in Hk as [? ?]. rewrite bool_decide_false by done.
  rewrite IH by done. done.
Qed.

Lemma total_app l1 l2 : total (l1 ++ l2) = total l1 + total l2.
Proof. induction l1 as [|s l1 IH]; simpl; lia. Qed.

Lemma counts_as_nil : counts_as ∅ [].
Proof. intros k. by rewrite lookup_empty. Qed.

(** [packCounts[size]++] adds one pack of [size]. *)
Lemma incr_spec m ms s :
  counts_as m ms → Z.of_nat (length ms) < MaxInt64 →
  counts_as (incr s m) (ms ++ [s]) ∧
  items_of (incr s m) = items_of m + s ∧
  packs_of (incr s m) = packs_of m + 1.
Proof.
  intros Hm Hlen. unfold incr.
  pose proof (count_in_bounds s ms) as Hb.
  assert (default 0 (m !! s) = count_in s ms) as Hd.
  { rewrite Hm. case_bool_decide; simpl; lia. }
  assert (add (default 0 (m !! s)) 1 = count_in s ms + 1) as ->.
  { rewrite Hd. apply wrap_id. unfold int64, MinInt64, MaxInt64 in *. lia. }
  split; [|split].
  - intros k. rewrite count_in_app. simpl.
    destruct (decide (s = k)) as [->|Hne].
    + rewrite lookup_insert_eq. rewrite (bool_decide_true (k = k)) by done.
      pose proof (count_in_bounds k ms). rewrite bool_decide_false by lia.
      by rewrite Z.add_0_r.
    + rewrite lookup_insert_ne by done. rewrite (bool_decide_false (s = k)) by done.
      rewrite Hm. rewrite !Z.add_0_r. done.
  - unfold items_of. rewrite weigh_insert.
    destruct (m !! s); simpl in Hd; lia.
  - unfold packs_of. rewrite weigh_insert.
    destruct (m !! s); simpl in Hd; lia.
Qed.

(** Counting the packs of [ms] one after the other, on top of the counts
    of [pre]. *)
Lemma foldl_incr_spec ms : ∀ pc pre,
  counts_as pc pre → Z.of_nat (length (pre ++ ms)) ≤ MaxInt64 →
  let pc' := foldl (λ m s, incr s m) pc ms in
  counts_as pc' (pre ++ ms) ∧
  items_of pc' = items_of pc + total ms ∧
  packs_of pc' = packs_of pc + Z.of_nat (length ms).
Proof.
  induction ms as [|s ms IH]; intros pc pre Hpc Hlen; simpl.
  - rewrite app_nil_r. split; [done|]. lia.
  - rewrite length_app in Hlen. simpl in Hlen.
    destruct (incr_spec pc pre s) as (H1 & H2 & H3); [done|lia|].
    destruct (IH (incr s pc) (pre ++ [s])) as (H4 & H5 & H6); [done| |].
    { rewrite !length_app. simpl. lia. }
    rewrite <- app_assoc in H4. simpl in H4. split; [done|]. lia.
Qed.

(** The backward walk through [parent], as the loop runs it. *)
Lemma backtrack_walk parent j ms :
  walk parent j ms → j ≤ MaxInt64 →
  ∀ fuel pc, (length ms ≤ fuel)%nat →
    backtrack fuel parent j pc = Returns (foldl (λ m s, incr s m) pc ms).
Proof.
  induction 1 as [|j s ms Hj Hp Hs Hw IH]; intros Hj64 fuel pc Hfuel.
  - destruct fuel; simpl; done.
  - destruct fuel as [|fuel]; [simpl in Hfuel; lia|]. simpl.
    rewrite bool_decide_true by lia.
    assert (Slice.index parent j = Returns s) as ->.
    { apply index_Returns. split; [lia|done]. }
    simpl. assert (sub j s = j - s) as ->.
    { apply wrap_id. unfold int64, MinInt64, MaxInt64 in *. lia. }
    apply IH; [lia|]. simpl in Hfuel. lia.
Qed.

End counts_facts.

(** ** Loops that are bounded by their range never run out of fuel *)

Section fuel_facts.

Lemma index_fuel a i : Slice.index a i ≠ OutOfFuel.
Proof. unfold Slice.index. case_bool_decide; [|done]. by destruct (a !! Z.to_nat i). Qed.

Lemma assign_fuel a i v : Slice.assign a i v ≠ OutOfFuel.
Proof. unfold Slice.assign. by case_bool_decide. Qed.

Lemma bind_fuel {A B} (c : outcome A) (k : A → outcome B) :
  c ≠ OutOfFuel → (∀ a, k a ≠ OutOfFuel) → bind c k ≠ OutOfFuel.
Proof. destruct c; simpl; auto. Qed.

Lemma foldM_fuel {A B} (f : A → B → outcome A) l : ∀ a,
  (∀ a x, f a x ≠ OutOfFuel) → foldM f a l ≠ OutOfFuel.
Proof.
  induction l as [|x l IH]; intros a Hf; simpl; [done|].
  apply bind_fuel; [apply Hf|]. intros a'. by apply IH.
Qed.

Lemma relax_fuel i st size : relax i st size ≠ OutOfFuel.
Proof.
  destruct st as [dp parent]. unfold relax.
  case_bool_decide; [|done]. apply bind_fuel; [apply index_fuel|]. intros prev.
  case_bool_decide; [|done]. apply bind_fuel; [apply index_fuel|]. intros cur.
  case_bool_decide; [|done]. apply bind_fuel; [apply assign_fuel|]. intros dp'.
  apply bind_fuel; [apply assign_fuel|]. done.
Qed.

Lemma fill_fuel sizes limit st : fill sizes limit st ≠ OutOfFuel.
Proof.
  unfold fill. apply foldM_fuel. intros st1 i. apply foldM_fuel. intros st2 s.
  apply relax_fuel.
Qed.

Lemma scan_fuel dp range : ∀ best, scan dp range best ≠ OutOfFuel.
Proof.
  induction range as [|x range IH]; intros best; simpl; [done|].
  apply bind_fuel; [apply index_fuel|]. intros d.
  repeat case_bool_decide; try apply IH; done.
Qed.

End fuel_facts.

(** ** Sorting *)

Section sort_facts.

Lemma sort_Ints_perm l : sort_Ints l ≡ₚ l.
Proof. apply merge_sort_Permutation. Qed.

Lemma sort_Ints_elem l x : x ∈ sort_Ints l ↔ x ∈ l.
Proof. by rewrite sort_Ints_perm. Qed.

Lemma sort_Ints_Forall (P : Z → Prop) l : Forall P (sort_Ints l) ↔ Forall P l.
Proof. by rewrite sort_Ints_perm. Qed.

Lemma sort_Ints_length l : length (sort_Ints l) = length l.
Proof. by rewrite sort_Ints_perm. Qed.

Lemma sort_Ints_sorted l : StronglySorted Z.le (sort_Ints l).
Proof. apply StronglySorted_merge_sort; apply _. Qed.

(** The last element of a sorted slice is its maximum. *)
Lemma sorted_last_max l m :
  StronglySorted Z.le l → l !! (length l - 1)%nat = Some m → ∀ x, x ∈ l → x ≤ m.
Proof.
  induction 1 as [|a l Hl IH Ha]; intros Hm x Hx; [by apply elem_of_nil in Hx|].
  destruct l as [|b l].
  - simpl in Hm. apply list_elem_of_singleton in Hx. simplify_eq. lia.
  - assert ((b :: l) !! (length (b :: l) - 1)%nat = Some m) as Hm'.
    { rewrite <- Hm. simpl. by rewrite Nat.sub_0_r. }
    apply elem_of_cons in Hx as [->|Hx]; [|by apply IH].
    eapply Forall_forall in Ha; [exact Ha|]. eapply list_elem_of_lookup_2. exact Hm'.
Qed.

(** Two slices with the same elements sort to the same slice. *)
Lemma sort_Ints_unique l1 l2 : l1 ≡ₚ l2 → sort_Ints l1 = sort_Ints l2.
Proof.
  intros Hp. apply (Sorted_unique Z.le).
  - apply Sorted_merge_sort. apply _.
  - apply Sorted_merge_sort. apply _.
  - by rewrite !sort_Ints_perm.
Qed.

End sort_facts.

(** ** Calculate *)

Section Calculate_facts.
Import GoInt.

(** The tables before the fill. *)
Lemma initial_tables sizes L :
  0 < L ≤ MaxInt64 →
  let dp := <[0%nat := 0]> (replicate (Z.to_nat L) MaxInt32) in
  let parent := replicate (Z.to_nat L) 0 in
  table_ok sizes 0 (dp, parent) ∧ lower_bound sizes 0 dp ∧ Z.of_nat (length dp) = L.
Proof.
  intros HL dp parent.
  assert (∀ j d, dp !! j = Some d → (j = 0%nat ∧ d = 0) ∨ d = MaxInt32) as Hdp.
  { intros j d. unfold dp. destruct j as [|j].
    - rewrite list_lookup_insert_eq by (rewrite length_replicate; lia).
      intros [= <-]. by left.
    - rewrite list_lookup_insert_ne by done. intros [-> _]%lookup_replicate. by right. }
  split; [split; simpl|split].
  - unfold dp, parent. by rewrite length_insert, !length_replicate.
  - unfold dp. rewrite length_insert, length_replicate. lia.
  - intros j d Hd. destruct (Hdp j d Hd) as [[_ ->]| ->]; unfold MaxInt32; lia.
  - intros j d Hj Hd Hne. destruct (Hdp _ d Hd) as [[Hj0 ->]| ->]; [|done].
    assert (j = 0) as -> by lia. split; [done|]. exists []. repeat constructor.
  - intros j d ms Hj Hd _ _. destruct (Hdp _ d Hd) as [[_ ->]| ->]; [lia|].
    assert (j = 0) as -> by lia. unfold dp in Hd. simpl in Hd.
    rewrite list_lookup_insert_eq in Hd by (rewrite length_replicate; lia).
    simplify_eq.
  - unfold dp. rewrite length_insert, length_replicate. lia.
Qed.

Lemma add_one_nonneg x : int64 x → 0 ≤ add x 1 → add x 1 = x + 1 ∧ x < MaxInt64.
Proof.
  intros Hx Hnn. destruct (decide (x = MaxInt64)) as [->|Hne].
  - exfalso. revert Hnn. by vm_compute.
  - split; [|unfold int64 in Hx; lia]. apply wrap_id.
    unfold int64, MinInt64, MaxInt64 in *. lia.
Qed.

(** What a call on a proper request does: it panics, which takes a
    request outside of [in_domain], or it fills the tables up to
    [limit], and then either finds no total in [order..limit] and
    returns the empty result, or returns the first total [T] that the
    table reaches together with the packs [ms] of the walk from [T]. *)
Lemma Calculate_cases order packSizes :
  0 < order → packSizes ≠ [] → int64 order → Forall int64 packSizes →
  (Calculate order packSizes = Panics ∧ ¬ in_domain order packSizes) ∨
  ∃ limit dp parent,
    0 ≤ limit < Slice.MaxLen ∧ Z.of_nat (length dp) = limit + 1 ∧
    table_ok (sort_Ints packSizes) limit (dp, parent) ∧
    (in_domain order packSizes →
       lower_bound (sort_Ints packSizes) limit dp ∧
       ∃ maxSize, maxSize ∈ packSizes ∧ (∀ s, s ∈ packSizes → s ≤ maxSize) ∧
                  limit = order + maxSize) ∧
    ((Calculate order packSizes = Returns emptyResult ∧
      ∀ x, order ≤ x ≤ limit → dp !! Z.to_nat x = Some MaxInt32) ∨
     (∃ T ms pc,
        order ≤ T ≤ limit ∧
        dp !! Z.to_nat T = Some (Z.of_nat (length ms)) ∧
        Z.of_nat (length ms) ≠ MaxInt32 ∧
        (∀ x, order ≤ x < T → dp !! Z.to_nat x = Some MaxInt32) ∧
        walk parent T ms ∧ Forall (λ s, s ∈ packSizes) ms ∧
        counts_as pc ms ∧ items_of pc = T ∧ packs_of pc = Z.of_nat (length ms) ∧
        Calculate order packSizes
        = Returns {| PackCounts := pc; TotalItems := T;
                     TotalPacks := Z.of_nat (length ms); Waste := T - order |})).
Proof.
  intros Ho Hne Ho64 Hs64.
  remember (Calculate order packSizes) as out eqn:Hout.
  unfold Calculate in Hout.
  rewrite bool_decide_false in Hout by lia.
  rewrite bool_decide_false in Hout by (by destruct packSizes).
  cbv zeta in Hout.
  pose proof (sort_Ints_elem packSizes) as Helem.
  pose proof (sort_Ints_length packSizes) as Hslen.
  assert (∀ P : Z → Prop, Forall P packSizes → Forall P (sort_Ints packSizes)) as Hall
    by (intros P; apply sort_Ints_Forall).
  pose proof (sort_Ints_sorted packSizes) as Hsorted.
  set (sizes := sort_Ints packSizes) in *. clearbody sizes.
  destruct (index_in_range sizes (Z.of_nat (length sizes) - 1)) as (maxSize & Hidx & Hmax).
  { rewrite Hslen. destruct packSizes; [done|]. simpl length. lia. }
  rewrite Hidx in Hout. clear Hidx.
  assert (maxSize ∈ packSizes) as HmaxIn.
  { apply Helem. eapply list_elem_of_lookup_2. exact Hmax. }
  assert (∀ s, s ∈ packSizes → s ≤ maxSize) as HmaxLe.
  { intros s Hs. apply (sorted_last_max sizes); [done| |by apply Helem].
    rewrite <- Hmax. f_equal. lia. }
  cbn [bind] in Hout.
  set (limit := add order maxSize) in *.
  assert (int64 limit) as Hl64 by apply wrap_int64.
  assert (in_domain order packSizes → limit = order + maxSize) as Hlimit.
  { intros Hdom. eapply Forall_forall in Hdom; [|exact HmaxIn]. apply wrap_id.
    unfold int64, MinInt64, MaxInt64, Slice.MaxLen in *. lia. }
  clearbody limit.
  (* the two allocations *)
  unfold Slice.make in Hout.
  destruct (decide (0 ≤ add limit 1 ∧ add limit 1 * 8 ≤ Slice.maxAlloc)) as [HL|HL].
  2:{ left. rewrite bool_decide_false in Hout by done. split; [done|].
      intros Hdom. apply HL. rewrite (Hlimit Hdom).
      eapply Forall_forall in Hdom; [|exact HmaxIn].
      unfold add. rewrite wrap_id;
        unfold int64, MinInt64, MaxInt64, Slice.MaxLen, Slice.maxAlloc in *; lia. }
  destruct HL as [HL HLmax].
  destruct (add_one_nonneg limit Hl64 HL) as [HLeq Hlt].
  rewrite !bool_decide_true in Hout by done. cbn [bind] in Hout.
  rewrite HLeq in HL, HLmax, Hout. clear HLeq.
  unfold Slice.assign at 1 in Hout. rewrite length_replicate in Hout.
  destruct (decide (limit = -1)) as [->|Hm1].
  { left. simpl in Hout. split; [done|]. intros Hdom. specialize (Hlimit Hdom).
    eapply Forall_forall in Hdom; [|exact HmaxIn]. lia. }
  assert (0 ≤ limit) as Hl0 by lia.
  rewrite bool_decide_true in Hout by lia. cbn [bind] in Hout.
  change (Z.to_nat 0) with 0%nat in Hout.
  destruct (initial_tables sizes (limit + 1)) as (Hok0 & Hlb0 & Hlen0);
    [unfold MaxInt64 in *; lia|].
  (* the table fill *)
  destruct (fill sizes limit
              (<[0%nat:=0]> (replicate (Z.to_nat (limit + 1)) MaxInt32),
               replicate (Z.to_nat (limit + 1)) 0)) as [[dp parent]| |] eqn:Hfill.
  3:{ by apply fill_fuel in Hfill. }
  2:{ left. split; [done|]. intros Hdom.
      destruct (fill_total sizes (Hall _ Hs64) limit
                  (<[0%nat:=0]> (replicate (Z.to_nat (limit + 1)) MaxInt32),
                   replicate (Z.to_nat (limit + 1)) 0)) as [st' Hst'].
      - simpl. lia.
      - done.
      - apply Hall. eapply Forall_impl; [exact Hdom|]. simpl. intros ? [? _]. done.
      - congruence. }
  cbn [bind] in Hout.
  edestruct (fill_spec sizes (Hall _ Hs64) limit) as (Hok & Hlen & Hlb);
    [|exact Hok0|exact Hfill|]; [simpl; lia|].
  simpl in Hlen. rewrite <- Hlen in Hlen0.
  (* the selection *)
  destruct (scan dp (seqZ order (limit - order + 1)) (-1, MaxInt32))
    as [[bestItems bestPacks]| |] eqn:Hscan.
  3:{ by apply scan_fuel in Hscan. }
  2:{ exfalso. destruct (scan_total dp (seqZ order (limit - order + 1)) (-1, MaxInt32))
        as [b Hb]; [|congruence].
      intros x Hx%elem_of_seqZ. lia. }
  cbn [bind] in Hout.
  right. exists limit, dp, parent.
  split; [unfold Slice.MaxLen, Slice.maxAlloc in *; lia|].
  split; [done|]. split; [done|]. split.
  { intros Hdom. split.
    - apply Hlb; [|done]. apply Hall. eapply Forall_impl; [exact Hdom|].
      simpl. intros ? [? _]. done.
    - exists maxSize. split; [done|]. split; [done|]. by apply Hlimit. }
  apply scan_spec in Hscan as [[Hb Hnone]|(Hrange & Hd & Hdne & Hfirst)]; [| |done].
  - injection Hb as -> ->. left. rewrite bool_decide_true in Hout by done.
    split; [done|]. intros x Hx. apply Hnone. lia.
  - simpl in Hrange, Hd, Hdne, Hfirst. right.
    rewrite bool_decide_false in Hout by lia.
    destruct (tk_walk _ _ _ Hok bestItems bestPacks ltac:(lia) Hd Hdne)
      as (_ & ms & Hwalk & Hmslen & Hmsin).
    simpl in Hwalk.
    rewrite (backtrack_walk parent bestItems ms Hwalk) in Hout; [|lia|].
    2:{ pose proof (walk_length _ _ _ Hwalk). lia. }
    cbn [bind] in Hout.
    destruct (foldl_incr_spec ms ∅ []) as (Hc & Hi & Hp); [apply counts_as_nil| |].
    { pose proof (walk_length _ _ _ Hwalk). simpl. lia. }
    simpl in Hc. unfold items_of, packs_of in Hi, Hp. rewrite weigh_empty in Hi, Hp.
    exists bestItems, ms, (foldl (λ m s, incr s m) ∅ ms).
    split; [lia|]. split; [by rewrite Hmslen|]. split; [by rewrite Hmslen|].
    split; [done|]. split; [done|]. split.
    { eapply Forall_impl; [exact Hmsin|]. simpl. intros s Hs. by apply Helem. }
    split; [done|]. split.
    { unfold items_of. rewrite Hi. rewrite (walk_total _ _ _ Hwalk). lia. }
    split; [unfold packs_of; rewrite Hp; lia|].
    rewrite Hout, Hmslen. do 2 f_equal. apply wrap_id.
    unfold int64, MinInt64, MaxInt64 in *. lia.
Qed.

Lemma in_domain_positive order packSizes :
  in_domain order packSizes → Forall (λ s, 0 < s) packSizes.
Proof. intros H. eapply Forall_impl; [exact H|]. simpl. intros ? [? _]. done. Qed.

Lemma in_domain_int64 order packSizes :
  0 < order → in_domain order packSizes → Forall int64 packSizes.
Proof.
  intros Ho H. eapply Forall_impl; [exact H|]. simpl. intros s [? ?].
  unfold int64, MinInt64, MaxInt64, Slice.MaxLen in *. lia.
Qed.

Lemma Forall_elem_sort_Ints packSizes ms :
  Forall (λ s, s ∈ packSizes) ms → Forall (λ s, s ∈ sort_Ints packSizes) ms.
Proof. intros H. eapply Forall_impl; [exact H|]. simpl. intros s. apply sort_Ints_elem. Qed.

(** Packs can be taken off a multiset that covers the order until it
    has at most [order] packs and overshoots by less than one pack. *)
Lemma trim order ms :
  0 < order → Forall (λ s, 0 < s) ms → order ≤ total ms →
  ∃ ms', (∀ x, x ∈ ms' → x ∈ ms) ∧
         order ≤ total ms' ≤ total ms ∧
         Z.of_nat (length ms') ≤ order ∧
         ∃ s, s ∈ ms' ∧ total ms' < order + s.
Proof.
  intros Ho. induction 1 as [|s ms Hs Hms IH]; simpl; intros Htot; [lia|].
  pose proof (total_nonneg ms Hms) as Hnn.
  destruct (decide (order ≤ total ms)) as [Hle|Hgt].
  - destruct (IH Hle) as (ms' & Hin & Hrange & Hlen & Hlast).
    exists ms'. split; [|split; [lia|done]]. intros x Hx. right. by apply Hin.
  - exists (s :: ms). split; [done|]. split; [simpl; lia|]. split.
    + pose proof (length_le_total ms Hms). simpl length. lia.
    + exists s. split; [by left|]. simpl. lia.
Qed.

(** The table reaches every total that fewer than [MaxInt32] packs
    reach. *)
Lemma reached sizes limit dp ms d :
  lower_bound sizes limit dp →
  Forall (λ s, s ∈ sizes) ms → 0 ≤ total ms ≤ limit →
  Z.of_nat (length ms) < MaxInt32 →
  dp !! Z.to_nat (total ms) = Some d → d ≠ MaxInt32.
Proof.
  intros Hlb Hms Hrange Hlen Hd.
  pose proof (Hlb (total ms) d ms Hrange Hd Hms eq_refl). lia.
Qed.

(** The result on a request of the domain, when some multiset [ms0]
    of fewer than [MaxInt32] packs has its total in the scanned range:
    the least total that fewer than [MaxInt32] packs reach, with the
    least number of packs for it. *)
Lemma Calculate_found order packSizes ms0 s0 :
  0 < order → packSizes ≠ [] → in_domain order packSizes →
  Forall (λ s, s ∈ packSizes) ms0 → s0 ∈ packSizes →
  order ≤ total ms0 ≤ order + s0 → Z.of_nat (length ms0) < MaxInt32 →
  ∃ T ms pc maxSize,
    Calculate order packSizes
    = Returns {| PackCounts := pc; TotalItems := T;
                 TotalPacks := Z.of_nat (length ms); Waste := T - order |} ∧
    maxSize ∈ packSizes ∧ (∀ s, s ∈ packSizes → s ≤ maxSize) ∧
    order ≤ T ≤ order + maxSize ∧ T ≤ total ms0 ∧
    Forall (λ s, s ∈ packSizes) ms ∧ total ms = T ∧
    counts_as pc ms ∧ items_of pc = T ∧ packs_of pc = Z.of_nat (length ms) ∧
    Z.of_nat (length ms) < MaxInt32 ∧
    (∀ ms2, Forall (λ s, s ∈ packSizes) ms2 → order ≤ total ms2 →
            Z.of_nat (length ms2) < MaxInt32 → T ≤ total ms2) ∧
    (∀ ms2, Forall (λ s, s ∈ packSizes) ms2 → total ms2 = T →
            Z.of_nat (length ms) ≤ Z.of_nat (length ms2)).
Proof.
  intros Ho Hne Hdom Hms0 Hs0 Hrange0 Hlen0.
  pose proof (in_domain_positive _ _ Hdom) as Hpos.
  pose proof (in_domain_int64 order packSizes Ho Hdom) as Hs64.
  assert (int64 order) as Ho64.
  { eapply Forall_forall in Hdom; [|exact Hs0].
    unfold int64, MinInt64, MaxInt64, Slice.MaxLen in *. lia. }
  destruct (Calculate_cases order packSizes Ho Hne Ho64 Hs64)
    as [[_ Hnd]|(limit & dp & parent & Hlimit & Hlen & Hok & Hsem & Hres)]; [done|].
  destruct (Hsem Hdom) as (Hlb & maxSize & HmaxIn & HmaxLe & Hlim).
  (* the table reaches the total of every multiset of fewer than
     [MaxInt32] packs that lies in the scanned range *)
  assert (∀ ms2, Forall (λ s, s ∈ packSizes) ms2 → order ≤ total ms2 ≤ limit →
            Z.of_nat (length ms2) < MaxInt32 →
            ∃ d, dp !! Z.to_nat (total ms2) = Some d ∧ d ≠ MaxInt32) as Hreach.
  { intros ms2 Hms2 Hrange Hlen2.
    destruct (lookup_lt_is_Some_2 dp (Z.to_nat (total ms2))) as [d Hd]; [lia|].
    exists d. split; [done|].
    apply (reached (sort_Ints packSizes) limit dp ms2); try done; [|lia].
    by apply Forall_elem_sort_Ints. }
  assert (order ≤ total ms0 ≤ limit) as Hin0.
  { specialize (HmaxLe s0 Hs0). lia. }
  destruct (Hreach ms0 Hms0 Hin0 Hlen0) as (d0 & Hd0 & Hd0ne).
  destruct Hres as [[_ Hnone]|(T & ms & pc & HT & HdT & HdTne & Hfirst & Hwalk & Hms
                                & Hc & Hi & Hp & Hret)].
  { rewrite Hnone in Hd0 by done. congruence. }
  assert (T ≤ total ms0) as HT0.
  { destruct (decide (total ms0 < T)) as [Hlt|]; [|lia].
    rewrite Hfirst in Hd0 by lia. congruence. }
  exists T, ms, pc, maxSize.
  split; [done|]. split; [done|]. split; [done|]. split; [lia|]. split; [done|].
  split; [done|]. split; [by eapply walk_total|]. split; [done|]. split; [done|].
  split; [done|]. split; [|split].
  - pose proof (tk_bound _ _ _ Hok _ _ HdT) as Hb. simpl in Hb. lia.
  - intros ms2 Hms2 Hcover Hlen2.
    destruct (decide (total ms2 ≤ limit)) as [Hle|]; [|lia].
    destruct (Hreach ms2 Hms2 ltac:(lia) Hlen2) as (d & Hd & Hdne).
    destruct (decide (total ms2 < T)) as [Hlt|]; [|lia].
    rewrite Hfirst in Hd by lia. congruence.
  - intros ms2 Hms2 Htot.
    apply (Hlb T (Z.of_nat (length ms)) ms2); [lia|done| |done].
    by apply Forall_elem_sort_Ints.
Qed.

(** With an order below the marker, every multiset that covers the
    order holds one of at most [order] packs, fewer than [MaxInt32]. *)
Lemma Calculate_in_domain order packSizes :
  0 < order < MaxInt32 → packSizes ≠ [] → in_domain order packSizes →
  ∃ T ms pc maxSize,
    Calculate order packSizes
    = Returns {| PackCounts := pc; TotalItems := T;
                 TotalPacks := Z.of_nat (length ms); Waste := T - order |} ∧
    maxSize ∈ packSizes ∧ (∀ s, s ∈ packSizes → s ≤ maxSize) ∧
    order ≤ T ≤ order + maxSize ∧
    Forall (λ s, s ∈ packSizes) ms ∧ total ms = T ∧
    counts_as pc ms ∧ items_of pc = T ∧ packs_of pc = Z.of_nat (length ms) ∧
    (∀ ms2, Forall (λ s, s ∈ packSizes) ms2 → order ≤ total ms2 → T ≤ total ms2) ∧
    (∀ ms2, Forall (λ s, s ∈ packSizes) ms2 → total ms2 = T →
            Z.of_nat (length ms) ≤ Z.of_nat (length ms2)).
Proof.
  intros Ho Hne Hdom.
  pose proof (in_domain_positive _ _ Hdom) as Hpos.
  destruct packSizes as [|s0 rest] eqn:Hsizes; [done|]. rewrite <- Hsizes in *.
  assert (s0 ∈ packSizes) as Hs0 by (rewrite Hsizes; by left).
  assert (0 < s0) as Hs0pos by (by eapply Forall_forall in Hpos).
  assert (∀ n : nat, total (replicate n s0) = Z.of_nat n * s0) as Hreptot.
  { induction n as [|n IHn]; [done|]. simpl replicate. simpl total. lia. }
  assert (Forall (λ s, s ∈ packSizes) (replicate (Z.to_nat order) s0)) as Hrep.
  { by apply Forall_replicate. }
  destruct (trim order (replicate (Z.to_nat order) s0))
    as (ms0 & Hsub & Hrange & Hlen0 & s & Hs & Hlast);
    [lia|by eapply packs_positive|rewrite Hreptot; nia|].
  assert (s = s0) as ->.
  { apply Hsub in Hs. by apply elem_of_replicate in Hs as [-> _]. }
  assert (Forall (λ s, s ∈ packSizes) ms0) as Hms0.
  { apply Forall_forall. intros x Hx. apply Hsub in Hx.
    by apply elem_of_replicate in Hx as [-> _]. }
  destruct (Calculate_found order packSizes ms0 s0)
    as (T & ms & pc & maxSize & Hret & HmaxIn & HmaxLe & HT & _ & Hms & Htot & Hc & Hi
        & Hp & _ & Hmin & Hpacks); [lia|done..|lia|lia|].
  exists T, ms, pc, maxSize.
  split; [done|]. split; [done|]. split; [done|]. split; [done|]. split; [done|].
  split; [done|]. split; [done|]. split; [done|]. split; [done|]. split; [|done].
  intros ms2 Hms2 Hcover.
  destruct (trim order ms2 ltac:(lia) (packs_positive _ _ Hpos Hms2) Hcover)
    as (ms' & Hsub' & Hrange' & Hlen' & _).
  assert (T ≤ total ms'); [|lia].
  apply Hmin; [|lia|lia].
  apply Forall_forall. intros x Hx. eapply Forall_forall in Hms2; [exact Hms2|].
  by apply Hsub'.
Qed.

End Calculate_facts.

(** ** The decomposition engine: the claims *)

Section engine_claims.
Import GoInt.

Lemma total_replicate n s : total (replicate n s) = Z.of_nat n * s.
Proof. induction n as [|n IH]; [done|]. simpl replicate. simpl total. lia. Qed.

Lemma three_sizes x y z ms :
  x ≠ y → x ≠ z → y ≠ z → Forall (λ s, s ∈ [x; y; z]) ms →
  total ms = x * count_in x ms + y * count_in y ms + z * count_in z ms ∧
  Z.of_nat (length ms) = count_in x ms + count_in y ms + count_in z ms.
Proof.
  intros Hxy Hxz Hyz. induction 1 as [|s ms Hs Hms [IH1 IH2]]; [simpl; lia|].
  simpl total. simpl count_in. simpl length.
  assert (s = x ∨ s = y ∨ s = z) as [->|[->| ->]].
  { apply elem_of_cons in Hs as [->|Hs]; [by left|].
    apply elem_of_cons in Hs as [->|Hs]; [by right; left|].
    apply list_elem_of_singleton in Hs as ->. by right; right. }
  - rewrite (bool_decide_true (x = x)), (bool_decide_false (x = y)),
      (bool_decide_false (x = z)) by done. lia.
  - rewrite (bool_decide_true (y = y)), (bool_decide_false (y = x)),
      (bool_decide_false (y = z)) by done. lia.
  - rewrite (bool_decide_true (z = z)), (bool_decide_false (z = x)),
      (bool_decide_false (z = y)) by done. lia.
Qed.

Lemma edge_case_unique a b c :
  0 ≤ a → 0 ≤ b → 0 ≤ c →
  23 * a + 31 * b + 53 * c = 500000 → a + b + c ≤ 9438 →
  a = 2 ∧ b = 7 ∧ c = 9429.
Proof. lia. Qed.

Lemma total_ones ms : Forall (λ s, s ∈ [1]) ms → total ms = Z.of_nat (length ms).
Proof.
  induction 1 as [|s ms Hs Hms IH]; [done|].
  apply list_elem_of_singleton in Hs as ->. simpl total. simpl length. lia.
Qed.

(** With the single size 1 and an order equal to the marker [MaxInt32],
    the entry of every total of the scanned range is the marker: either
    untouched or "reached with [MaxInt32] packs". *)
Lemma marker_collision : Calculate 2147483647 [1] = Returns emptyResult.
Proof.
  assert (in_domain 2147483647 [1]) as Hdom by (by repeat constructor).
  assert (0 < 2147483647) as Ho by lia.
  assert ([1] ≠ ([] : list Z)) as Hne by discriminate.
  assert (int64 2147483647) as Ho64 by (unfold int64, MinInt64, MaxInt64; lia).
  assert (Forall int64 [1]) as Hs64 by (by repeat constructor).
  destruct (Calculate_cases 2147483647 [1] Ho Hne Ho64 Hs64)
    as [[_ Hnd]|(limit & dp & parent & Hlimit & Hlen & Hok & Hsem & Hres)].
  { destruct (Hnd Hdom). }
  destruct Hres as [[Hret _]|(T & ms & pc & HT & HdT & HdTne & _ & Hwalk & Hms & _)].
  { exact Hret. }
  exfalso.
  pose proof (walk_total _ _ _ Hwalk) as Htot.
  rewrite (total_ones ms Hms) in Htot.
  pose proof (tk_bound _ _ _ Hok _ _ HdT) as Hb. cbn [fst] in Hb.
  unfold MaxInt32 in *. lia.
Qed.

(** With the order 1 and the largest [int] as the single size,
    [order + maxSize] wraps around to the least [int], and the length of
    the table, [limit + 1], is negative. *)
Lemma wrapped_limit : Calculate 1 [9223372036854775807] = Panics.
Proof. by vm_compute. Qed.

(** With the order 1 and the single size [2^45 - 1] the table has
    [2^45 + 1] entries, one more than the runtime allocates. *)
Lemma allocation_limit : Calculate 1 [35184372088831] = Panics.
Proof. by vm_compute. Qed.

(** Packs of one size that cover the order and overshoot it by less
    than one pack. *)
Lemma cover_by_one_size order size :
  0 < order → 0 < size →
  let k := (order - 1) `div` size + 1 in
  0 < k ≤ order ∧ order ≤ total (replicate (Z.to_nat k) size) < order + size ∧
  Z.of_nat (length (replicate (Z.to_nat k) size)) = k.
Proof.
  intros Ho Hs k.
  pose proof (Z.div_mod (order - 1) size ltac:(lia)) as Hdm.
  pose proof (Z.mod_pos_bound (order - 1) size Hs) as Hmod.
  assert (0 ≤ (order - 1) `div` size) as Hq by (apply Z.div_pos; lia).
  rewrite total_replicate, length_replicate. unfold k. nia.
Qed.

(** Below the marker every order has a least cover of few packs: a
    least cover can be trimmed to at most [order] packs. *)
Lemma few_packs_small_order order packSizes :
  0 < order < MaxInt32 → packSizes ≠ [] → in_domain order packSizes →
  few_packs order packSizes.
Proof.
  intros Ho Hne Hdom.
  destruct (Calculate_in_domain order packSizes Ho Hne Hdom)
    as (T & ms & pc & maxSize & _ & _ & _ & HT & Hms & Htot & _ & _ & _ & Hmin & _).
  pose proof (in_domain_positive _ _ Hdom) as Hpos.
  destruct (trim order ms ltac:(lia) (packs_positive _ _ Hpos Hms) ltac:(lia))
    as (ms' & Hsub & Hrange & Hlen & _).
  assert (drawn_from packSizes ms') as Hms'.
  { apply Forall_forall. intros x Hx. eapply Forall_forall in Hms; [exact Hms|].
    by apply Hsub. }
  exists ms'. split; [done|]. split; [lia|]. split; [|lia].
  intros ms2 Hms2 Hcover. specialize (Hmin ms2 Hms2 Hcover). lia.
Qed.

(** Orders up to [MaxInt32 - 1] packs of a size are within reach. *)
Lemma within_reach_by_one_size order packSizes size :
  size ∈ packSizes → 0 < size → 0 < order ≤ (MaxInt32 - 1) * size →
  within_reach order packSizes.
Proof.
  intros Hin Hs Ho.
  destruct (cover_by_one_size order size ltac:(lia) Hs) as (Hk & Htot & Hlen).
  exists (replicate (Z.to_nat ((order - 1) `div` size + 1)) size), size.
  split; [by apply Forall_replicate|]. split; [done|]. split; [lia|].
  rewrite Hlen.
  pose proof (Z.div_mod (order - 1) size ltac:(lia)) as Hdm.
  pose proof (Z.mod_pos_bound (order - 1) size Hs) as Hmod.
  unfold MaxInt32 in *. nia.
Qed.

(** An order above the marker that few packs cover: 600000 packs of
    5000 items. *)
Lemma few_packs_large_order :
  in_domain 3000000000 [250; 500; 1000; 2000; 5000] ∧
  few_packs 3000000000 [250; 500; 1000; 2000; 5000].
Proof.
  split; [by repeat constructor|].
  exists (replicate (Z.to_nat 600000) 5000).
  split; [apply Forall_replicate; rewrite !elem_of_cons; tauto|].
  rewrite total_replicate, length_replicate, Z2Nat.id by lia.
  split; [lia|]. split; [|unfold MaxInt32; lia].
  intros ms2 _ Hcover. lia.
Qed.

(** *** Optimality *)

(** C1, as stated, fails.  For the order 1 and the single size
    [2^45 - 1] there is no result: the table would have more entries
    than the runtime allocates, and the call panics.  For the order
    2147483647 and the single size 1 the result reports no items at
    all, below the order, although 2147483647 packs of size 1 fulfil
    it: their number is the marker of the table. *)
Lemma Calculate_optimal_counterexample :
  (0 < 1 ∧ Forall (λ s, 0 < s) [35184372088831] ∧
   ¬ ∃ r, Calculate 1 [35184372088831] = Returns r) ∧
  (0 < 2147483647 ∧ Forall (λ s, 0 < s) [1] ∧
   ∃ r, Calculate 2147483647 [1] = Returns r ∧ ¬ optimal 2147483647 [1] r).
Proof.
  split.
  - split; [lia|]. split; [by repeat constructor|].
    rewrite allocation_limit. intros [r Hr]. discriminate Hr.
  - split; [lia|]. split; [by repeat constructor|].
    exists emptyResult. split; [exact marker_collision|].
    intros (_ & Hcover & _). cbn [TotalItems emptyResult] in Hcover. lia.
Qed.

(** C1 (amended): for every order above zero and every non-empty list
    of strictly positive pack sizes with [order + size < 2^45] for each
    size, so that the two tables are within what the runtime
    allocates, the result of [Calculate] is optimal whenever the least
    total at or above the order is the total of some multiset of fewer
    than [MaxInt32] packs: its total is the least total at or above the
    order that a multiset of the sizes has, and its number of packs is
    the least among the multisets with this total.  Nothing is said of
    the orders whose least cover takes [MaxInt32] packs or more. *)
Theorem Calculate_optimal order packSizes :
  0 < order → packSizes ≠ [] → in_domain order packSizes → few_packs order packSizes →
  ∃ r, Calculate order packSizes = Returns r ∧ optimal order packSizes r.
Proof.
  intros Ho Hne Hdom (ms0 & Hms0 & Hcover0 & Hleast & Hlen0).
  pose proof (in_domain_positive _ _ Hdom) as Hpos.
  destruct packSizes as [|s0 rest] eqn:Hsizes; [done|]. rewrite <- Hsizes in *.
  assert (s0 ∈ packSizes) as Hs0 by (rewrite Hsizes; by left).
  assert (0 < s0) as Hs0pos by (by eapply Forall_forall in Hpos).
  destruct (cover_by_one_size order s0 Ho Hs0pos) as (_ & Hone & _).
  assert (total ms0 ≤ order + s0) as Hin0.
  { etrans; [apply (Hleast (replicate (Z.to_nat ((order - 1) `div` s0 + 1)) s0))|lia].
    - by apply Forall_replicate.
    - lia. }
  destruct (Calculate_found order packSizes ms0 s0)
    as (T & ms & pc & maxSize & Hret & _ & _ & HT & HT0 & Hms & Htot & Hc & _ & _ & _ & _
        & Hpacks); [done..|lia|done|].
  eexists. split; [exact Hret|]. unfold optimal. cbn [PackCounts TotalItems TotalPacks].
  split; [by exists ms|]. split; [lia|]. split; [|done].
  intros ms2 Hms2 Hcover. specialize (Hleast ms2 Hms2 Hcover). lia.
Qed.

Lemma Calculate_optimal_witness :
  (0 < 10 ∧ [3; 5] ≠ [] ∧ in_domain 10 [3; 5] ∧ few_packs 10 [3; 5]) ∧
  ∃ r, Calculate 10 [3; 5] = Returns r ∧ optimal 10 [3; 5] r.
Proof.
  assert (0 < 10) as H1 by lia.
  assert ([3; 5] ≠ ([] : list Z)) as H2 by done.
  assert (in_domain 10 [3; 5]) as H3 by (by repeat constructor).
  assert (few_packs 10 [3; 5]) as H4.
  { exists [5; 5]. split; [repeat constructor; rewrite !elem_of_cons; tauto|].
    split; [simpl; lia|]. split; [|simpl; unfold MaxInt32; lia].
    intros ms2 _ Hcover. simpl. lia. }
  exact (conj (conj H1 (conj H2 (conj H3 H4))) (Calculate_optimal 10 [3; 5] H1 H2 H3 H4)).
Defined.

(** *** Feasibility *)

(** C2, as stated, fails.  For the order 1 and the single size
    [2^45 - 1] nothing is returned: the call panics.  For the order
    2147483647 and the single size 1 the empty result is returned. *)
Lemma Calculate_feasible_counterexample :
  (0 < 1 ∧ [35184372088831] ≠ [] ∧ Forall (λ s, 0 < s) [35184372088831] ∧
   Calculate 1 [35184372088831] = Panics) ∧
  (0 < 2147483647 ∧ [1] ≠ [] ∧ Forall (λ s, 0 < s) [1] ∧
   Calculate 2147483647 [1] = Returns emptyResult ∧
   ¬ feasible 2147483647 [1] emptyResult).
Proof.
  split.
  - split; [lia|]. split; [discriminate|]. split; [by repeat constructor|].
    exact allocation_limit.
  - split; [lia|]. split; [discriminate|]. split; [by repeat constructor|].
    split; [exact marker_collision|]. intros (_ & _ & _ & _ & Hne). by apply Hne.
Qed.

(** C2 (amended): for every order above zero and every non-empty list
    of strictly positive pack sizes with [order + size < 2^45] for each
    size, so that the two tables are within what the runtime
    allocates, [Calculate] returns a result with [TotalItems ≥ order]
    and [Waste = TotalItems - order ≥ 0] whenever some total of the
    scanned range [order..order + maxSize] is the total of a multiset
    of fewer than [MaxInt32] packs; the total lies in the scanned
    range, and the result is not the empty one.  Nothing is said of the
    orders for which every total of the range takes [MaxInt32] packs or
    more. *)
Theorem Calculate_feasible order packSizes :
  0 < order → packSizes ≠ [] → in_domain order packSizes →
  within_reach order packSizes →
  ∃ r, Calculate order packSizes = Returns r ∧ feasible order packSizes r.
Proof.
  intros Ho Hne Hdom (ms0 & s0 & Hms0 & Hs0 & Hrange0 & Hlen0).
  destruct (Calculate_found order packSizes ms0 s0)
    as (T & ms & pc & maxSize & Hret & HmaxIn & HmaxLe & HT & _); [done..|].
  eexists. split; [exact Hret|]. unfold feasible. cbn [TotalItems Waste].
  split; [lia|]. split; [done|]. split; [lia|]. split.
  - exists maxSize. split; [done|]. split; [done|]. lia.
  - intros Heq. apply (f_equal TotalItems) in Heq. cbn [TotalItems emptyResult] in Heq. lia.
Qed.

Lemma Calculate_feasible_witness :
  (0 < 4 ∧ [3; 5] ≠ [] ∧ in_domain 4 [3; 5] ∧ within_reach 4 [3; 5]) ∧
  ∃ r, Calculate 4 [3; 5] = Returns r ∧ feasible 4 [3; 5] r.
Proof.
  assert (0 < 4) as H1 by lia.
  assert ([3; 5] ≠ ([] : list Z)) as H2 by discriminate.
  assert (in_domain 4 [3; 5]) as H3 by (by repeat constructor).
  assert (within_reach 4 [3; 5]) as H4.
  { exists [5], 5. split; [repeat constructor; rewrite !elem_of_cons; tauto|].
    split; [rewrite !elem_of_cons; tauto|]. split; [simpl; lia|].
    simpl. unfold MaxInt32. lia. }
  exact (conj (conj H1 (conj H2 (conj H3 H4))) (Calculate_feasible 4 [3; 5] H1 H2 H3 H4)).
Defined.

(** *** Consistency of the result *)

(** C3: on every input, [Calculate] ends (by a return or by a panic, the
    backtracking loop never runs on), and the result that it returns is
    consistent: over the entries of its pack counts, the sizes times the
    counts add up to [TotalItems] and the counts add up to [TotalPacks]. *)
Theorem Calculate_consistent order packSizes :
  int64 order → Forall int64 packSizes →
  Calculate order packSizes ≠ OutOfFuel ∧
  ∀ r, Calculate order packSizes = Returns r →
       items_of (PackCounts r) = TotalItems r ∧ packs_of (PackCounts r) = TotalPacks r.
Proof.
  intros Ho64 Hs64.
  assert (items_of (PackCounts emptyResult) = TotalItems emptyResult ∧
          packs_of (PackCounts emptyResult) = TotalPacks emptyResult) as Hempty.
  { unfold items_of, packs_of. cbn [PackCounts emptyResult]. by rewrite !weigh_empty. }
  destruct (decide (order ≤ 0)) as [Hle|Hgt].
  { unfold Calculate. rewrite bool_decide_true by done. split; [done|].
    by intros r [= <-]. }
  destruct (decide (packSizes = [])) as [->|Hne].
  { unfold Calculate. rewrite bool_decide_false by done. rewrite bool_decide_true by done.
    split; [done|]. by intros r [= <-]. }
  destruct (Calculate_cases order packSizes ltac:(lia) Hne Ho64 Hs64)
    as [[-> _]|(limit & dp & parent & _ & _ & _ & _ & Hres)]; [done|].
  destruct Hres as [[-> _]|(T & ms & pc & _ & _ & _ & _ & _ & _ & _ & Hi & Hp & ->)].
  - split; [done|]. by intros r [= <-].
  - split; [done|]. by intros r [= <-].
Qed.

Lemma Calculate_consistent_witness :
  (int64 12001 ∧ Forall int64 [250; 500; 1000; 2000; 5000]) ∧
  Calculate 12001 [250; 500; 1000; 2000; 5000] ≠ OutOfFuel ∧
  ∀ r, Calculate 12001 [250; 500; 1000; 2000; 5000] = Returns r →
       items_of (PackCounts r) = TotalItems r ∧ packs_of (PackCounts r) = TotalPacks r.
Proof.
  assert (int64 12001) as H1 by (unfold int64, MinInt64, MaxInt64; lia).
  assert (Forall int64 [250; 500; 1000; 2000; 5000]) as H2.
  { repeat constructor; unfold MinInt64, MaxInt64; lia. }
  split; [done|]. exact (Calculate_consistent 12001 [250; 500; 1000; 2000; 5000] H1 H2).
Defined.

(** *** The given scenario *)

(** The packs of the given scenario: they fulfil the order exactly. *)
Lemma edge_case_packs :
  ∃ ex, Forall (λ s, s ∈ [23; 31; 53]) ex ∧ total ex = 500000 ∧
        Z.of_nat (length ex) = 9438.
Proof.
  exists (replicate (Z.to_nat 2) 23 ++ replicate (Z.to_nat 7) 31
          ++ replicate (Z.to_nat 9429) 53).
  split; [|split].
  - rewrite !Forall_app. repeat split; apply Forall_replicate.
    + by left.
    + right. by left.
    + right. right. by left.
  - rewrite !total_app, !total_replicate. rewrite !Z2Nat.id by lia. lia.
  - rewrite !length_app, !length_replicate. lia.
Qed.

(** The only pack counts with the properties of an optimal answer to the
    given scenario. *)
Lemma edge_case_counts T ms (pc : gmap Z Z) :
  500000 ≤ T → Forall (λ s, s ∈ [23; 31; 53]) ms → total ms = T → counts_as pc ms →
  (∀ ms2, Forall (λ s, s ∈ [23; 31; 53]) ms2 → 500000 ≤ total ms2 → T ≤ total ms2) →
  (∀ ms2, Forall (λ s, s ∈ [23; 31; 53]) ms2 → total ms2 = T →
          Z.of_nat (length ms) ≤ Z.of_nat (length ms2)) →
  T = 500000 ∧ Z.of_nat (length ms) = 9438 ∧ pc = {[ 23 := 2; 31 := 7; 53 := 9429 ]}.
Proof.
  intros HT Hms Htot Hc Hmin Hpacks.
  destruct edge_case_packs as (ex & Hex & Hextot & Hexlen).
  assert (T = 500000) as -> by (specialize (Hmin ex Hex); lia).
  specialize (Hpacks ex Hex Hextot). rewrite Hexlen in Hpacks.
  destruct (three_sizes 23 31 53 ms) as [H1 H2]; [lia|lia|lia|exact Hms|].
  pose proof (count_in_bounds 23 ms). pose proof (count_in_bounds 31 ms).
  pose proof (count_in_bounds 53 ms).
  destruct (edge_case_unique (count_in 23 ms) (count_in 31 ms) (count_in 53 ms))
    as (Ha & Hb & Hc'); [lia..|].
  split; [done|]. split; [lia|].
  apply map_eq. intros k. rewrite Hc.
  destruct (decide (k = 23)) as [->|H23].
  { rewrite Ha. rewrite bool_decide_false by lia. by rewrite lookup_insert_eq. }
  destruct (decide (k = 31)) as [->|H31].
  { rewrite Hb. rewrite bool_decide_false by lia. rewrite lookup_insert_ne by lia.
    by rewrite lookup_insert_eq. }
  destruct (decide (k = 53)) as [->|H53].
  { rewrite Hc'. rewrite bool_decide_false by lia. rewrite !lookup_insert_ne by lia.
    by rewrite lookup_singleton_eq. }
  rewrite !lookup_insert_ne, lookup_singleton_ne by done.
  rewrite count_in_absent; [by rewrite bool_decide_true|]. intros Hk.
  eapply Forall_forall in Hms; [|exact Hk].
  apply elem_of_cons in Hms as [->|Hms]; [done|].
  apply elem_of_cons in Hms as [->|Hms]; [done|].
  apply list_elem_of_singleton in Hms as ->. done.
Qed.

(** C4: [Calculate(500000, [23, 31, 53])] returns exactly the pack counts
    [{23: 2, 31: 7, 53: 9429}], with [TotalItems = 500000] and
    [Waste = 0] (and 9438 packs). *)
Theorem Calculate_edge_case :
  Calculate 500000 [23; 31; 53]
  = Returns {| PackCounts := {[ 23 := 2; 31 := 7; 53 := 9429 ]};
               TotalItems := 500000; TotalPacks := 9438; Waste := 0 |}.
Proof.
  assert (0 < 500000 < MaxInt32) as Ho by (unfold MaxInt32; lia).
  assert ([23; 31; 53] ≠ ([] : list Z)) as Hne by discriminate.
  assert (in_domain 500000 [23; 31; 53]) as Hdom by (by repeat constructor).
  destruct (Calculate_in_domain 500000 [23; 31; 53] Ho Hne Hdom)
    as (T & ms & pc & maxSize & Hret & _ & _ & HT & Hms & Htot & Hc & _ & _ & Hmin & Hpacks).
  destruct (edge_case_counts T ms pc (proj1 HT) Hms Htot Hc Hmin Hpacks) as (-> & Hlen & ->).
  revert Hret. generalize (Calculate 500000 [23; 31; 53]). intros out ->.
  rewrite Hlen. reflexivity.
Qed.

(** *** Degenerate requests *)

(** C8: for every list of pack sizes and every order that is not
    positive, and for every order when the list of pack sizes is empty,
    [Calculate] returns (it does not panic) the empty result: no pack
    counts, no items, no packs, no waste. *)
Theorem Calculate_degenerate order packSizes :
  order ≤ 0 ∨ packSizes = [] →
  Calculate order packSizes
  = Returns {| PackCounts := ∅; TotalItems := 0; TotalPacks := 0; Waste := 0 |}.
Proof.
  intros [Hle| ->]; unfold Calculate.
  - by rewrite bool_decide_true by done.
  - case_bool_decide; [done|]. by rewrite bool_decide_true by done.
Qed.

Lemma Calculate_degenerate_witness :
  (-5 ≤ 0 ∨ [250; 500] = []) ∧
  Calculate (-5) [250; 500]
  = Returns {| PackCounts := ∅; TotalItems := 0; TotalPacks := 0; Waste := 0 |}.
Proof.
  assert (-5 ≤ 0 ∨ [250; 500] = ([] : list Z)) as H by (left; lia).
  split; [exact H|]. exact (Calculate_degenerate (-5) [250; 500] H).
Defined.

(** *** Totality *)

(** C9, as stated, fails: with the order 1 and the single size
    [2^45 - 1] the table would have [2^45 + 1] entries, more than the
    runtime allocates, and with the single size 9223372036854775807
    the sum [order + maxSize] wraps around to a negative length; the
    allocation of the table panics in both cases. *)
Lemma Calculate_total_counterexample :
  ([35184372088831] ≠ [] ∧ Forall (λ s, 0 < s) [35184372088831] ∧
   Calculate 1 [35184372088831] = Panics) ∧
  ([9223372036854775807] ≠ [] ∧ Forall (λ s, 0 < s) [9223372036854775807] ∧
   Calculate 1 [9223372036854775807] = Panics).
Proof.
  split.
  - split; [discriminate|]. split; [by repeat constructor|]. exact allocation_limit.
  - split; [discriminate|]. split; [by repeat constructor|]. exact wrapped_limit.
Qed.

(** C9 (amended): for every order and every non-empty list of strictly
    positive pack sizes with [order + size < 2^45] for each size, so
    that the two tables are within what the runtime allocates,
    [Calculate] returns: the two allocations succeed, no read or write
    of the two tables is out of bounds, during the fill, the selection
    or the backtracking, and the backtracking loop ends. *)
Theorem Calculate_total order packSizes :
  packSizes ≠ [] → in_domain order packSizes →
  ∃ r, Calculate order packSizes = Returns r.
Proof.
  intros Hne Hdom.
  destruct (decide (order ≤ 0)) as [Hle|Hgt].
  { exists emptyResult. unfold Calculate. by rewrite bool_decide_true by done. }
  assert (int64 order) as Ho64.
  { destruct packSizes as [|s l]; [done|]. apply Forall_cons in Hdom as [[? ?] _].
    unfold int64, MinInt64, MaxInt64, Slice.MaxLen in *. lia. }
  pose proof (in_domain_int64 order packSizes ltac:(lia) Hdom) as Hs64.
  destruct (Calculate_cases order packSizes ltac:(lia) Hne Ho64 Hs64)
    as [[_ Hnd]|(limit & dp & parent & _ & _ & _ & _ & Hres)]; [done|].
  destruct Hres as [[-> _]|(T & ms & pc & _ & _ & _ & _ & _ & _ & _ & _ & _ & ->)]; eauto.
Qed.

Lemma Calculate_total_witness :
  ([7; 11; 13] ≠ [] ∧ in_domain 100 [7; 11; 13]) ∧
  ∃ r, Calculate 100 [7; 11; 13] = Returns r.
Proof.
  assert ([7; 11; 13] ≠ ([] : list Z)) as H1 by discriminate.
  assert (in_domain 100 [7; 11; 13]) as H2 by (by repeat constructor).
  split; [done|]. exact (Calculate_total 100 [7; 11; 13] H1 H2).
Defined.

(** *** Validate *)

(** C10: [Validate] accepts exactly the non-empty lists of strictly
    positive sizes.  There is no check of the greatest common divisor:
    [{2, 4}] is accepted although all of its totals are even. *)
Theorem Validate_spec :
  (∀ packSizes,
     Validate packSizes = true ↔ packSizes ≠ [] ∧ Forall (λ size, 0 < size) packSizes) ∧
  Validate [2; 4] = true ∧
  (∀ ms, Forall (λ s, s ∈ [2; 4]) ms → Z.even (total ms) = true).
Proof.
  split; [|split; [done|]].
  - intros packSizes. unfold Validate. destruct packSizes as [|s l].
    + simpl. split; [done|]. by intros [? _].
    + rewrite bool_decide_false by done. rewrite forallb_forall, Forall_forall.
      split.
      * intros H. split; [done|]. intros x Hx%list_elem_of_In. apply H in Hx.
        apply negb_true_iff, bool_decide_eq_false in Hx. lia.
      * intros [_ H] x Hx%list_elem_of_In. apply H in Hx.
        apply negb_true_iff, bool_decide_eq_false. lia.
  - induction 1 as [|s ms Hs Hms IH]; [done|]. simpl total.
    rewrite Z.even_add, IH.
    apply elem_of_cons in Hs as [->|Hs]; [done|].
    apply list_elem_of_singleton in Hs as ->. done.
Qed.

End engine_claims.

(** ** The adaptive cache *)

Section cache_facts.
Import GoInt cache.

Lemma generateKey_perm items l1 l2 :
  l1 ≡ₚ l2 → generateKey items l1 = generateKey items l2.
Proof. intros Hp. unfold generateKey. by rewrite (sort_Ints_unique l1 l2 Hp). Qed.

Lemma generateKey_duplicates :
  generateKey 250 [250; 500] ≠ generateKey 250 [250; 250; 500].
Proof. vm_compute. discriminate. Qed.

Lemma Get_enabled c now items packSizes :
  enabled c = true →
  Get c now items packSizes =
    let key := generateKey items packSizes in
    match redis_get now key (client c) with
    | None => (incrementMisses c, None)
    | Some result =>
        let hitCount := add (HitCount result) 1 in
        let newTTL := mul (CurrentTTL result) 2 in
        let newTTL := if bool_decide (newTTL > MaxTTL) then MaxTTL else newTTL in
        let result :=
          {| Items := Items result; PackSizes := PackSizes result; Result := Result result;
             TotalItems := cache.TotalItems result; TotalPacks := cache.TotalPacks result;
             Waste := cache.Waste result; CalculationTimeMs := CalculationTimeMs result;
             CachedAt := CachedAt result; HitCount := hitCount; CurrentTTL := newTTL |} in
        let c := set c now key result newTTL in
        (incrementHits c, Some result)
    end.
Proof. intros He. unfold Get. by rewrite He. Qed.

(** A hit never reports more than [MaxTTL], whatever is stored. *)
Lemma Get_TTL_capped c now items packSizes c' r :
  Get c now items packSizes = (c', Some r) → CurrentTTL r ≤ MaxTTL.
Proof.
  unfold Get. destruct (enabled c); simpl; [|done].
  destruct (redis_get now (generateKey items packSizes) (client c)) as [res|]; [|done].
  intros [= _ <-]. simpl. case_bool_decide; lia.
Qed.

Lemma Gets_TTL_capped reqs : ∀ c r,
  Some r ∈ (Gets c reqs).2 → CurrentTTL r ≤ MaxTTL.
Proof.
  induction reqs as [|[[now items] packSizes] reqs IH]; intros c r; simpl.
  - intros H. by apply elem_of_nil in H.
  - destruct (Get c now items packSizes) as [c1 r1] eqn:Hget.
    destruct (Gets c1 reqs) as [c2 rs] eqn:Hgets. simpl.
    intros [Heq|Hin]%elem_of_cons.
    + subst r1. by eapply Get_TTL_capped.
    + apply (IH c1). by rewrite Hgets.
Qed.


Lemma Set_then_Get c t0 t1 items packSizes result totalItems totalPacks waste calcTime :
  enabled c = true → t0 ≤ t1 < t0 + InitialTTL →
  (Get (Set_ c t0 items packSizes result totalItems totalPacks waste calcTime)
       t1 items packSizes).2
  = Some {| Items := items; PackSizes := packSizes; Result := result;
            TotalItems := totalItems; TotalPacks := totalPacks; Waste := waste;
            CalculationTimeMs := calcTime; CachedAt := t0;
            HitCount := 1; CurrentTTL := Z.min (2 * InitialTTL) MaxTTL |}.
Proof.
  intros He Ht. unfold Set_. rewrite He. cbn [negb].
  rewrite Get_enabled by done. cbv zeta.
  generalize (generateKey items packSizes). intros key.
  unfold redis_get, set, redis_set. cbn [client entries].
  rewrite lookup_insert_eq.
  rewrite (bool_decide_true (0 < InitialTTL)) by done.
  rewrite bool_decide_true by lia. cbn [HitCount CurrentTTL snd].
  do 2 f_equal.
Qed.

(** The counters after a run, when they do not reach the largest [int]. *)
Lemma Gets_counters reqs : ∀ c,
  enabled c = true →
  default 0 (hits (client c)) + Z.of_nat (length reqs) < MaxInt64 →
  default 0 (misses (client c)) + Z.of_nat (length reqs) < MaxInt64 →
  0 ≤ default 0 (hits (client c)) → 0 ≤ default 0 (misses (client c)) →
  enabled (Gets c reqs).1 = true ∧
  default 0 (hits (client (Gets c reqs).1))
  = default 0 (hits (client c)) + hits_in (Gets c reqs).2 ∧
  default 0 (misses (client (Gets c reqs).1))
  = default 0 (misses (client c)) + misses_in (Gets c reqs).2 ∧
  hits_in (Gets c reqs).2 + misses_in (Gets c reqs).2 = Z.of_nat (length reqs).
Proof.
  unfold hits_in, misses_in.
  induction reqs as [|[[now items] packSizes] reqs IH]; intros c He Hh Hm Hh0 Hm0.
  { simpl. split; [done|]. lia. }
  simpl Gets. simpl length in Hh, Hm.
  rewrite Get_enabled by done. cbv zeta.
  generalize (generateKey items packSizes). intros key.
  assert (∀ o : option Z, 0 ≤ default 0 o → default 0 o + 1 < MaxInt64 →
            default 0 (redis_incr o) = default 0 o + 1) as Hincr.
  { intros o H0 H1. unfold redis_incr. rewrite bool_decide_false by lia. done. }
  destruct (redis_get now key (client c)) as [res|].
  - match goal with |- context [Gets ?c1 reqs] =>
      destruct (IH c1) as (IH1 & IH2 & IH3 & IH4) end.
    { done. }
    { cbn [incrementHits client hits set redis_set]. rewrite Hincr by lia. lia. }
    { cbn [incrementHits client misses set redis_set]. lia. }
    { cbn [incrementHits client hits set redis_set]. rewrite Hincr by lia. lia. }
    { cbn [incrementHits client misses set redis_set]. lia. }
    match goal with |- context [Gets ?c1 reqs] => destruct (Gets c1 reqs) as [c2 rs] end.
    cbn [fst snd] in *. cbn [incrementHits client hits misses set redis_set] in IH2, IH3.
    rewrite Hincr in IH2 by lia.
    rewrite (filter_cons_True _ (Some _)) by done.
    rewrite (filter_cons_False (λ r, r = None) (Some _)) by done.
    simpl length. split; [done|]. lia.
  - match goal with |- context [Gets ?c1 reqs] =>
      destruct (IH c1) as (IH1 & IH2 & IH3 & IH4) end.
    { done. }
    { cbn [incrementMisses client hits]. lia. }
    { cbn [incrementMisses client misses]. rewrite Hincr by lia. lia. }
    { cbn [incrementMisses client hits]. lia. }
    { cbn [incrementMisses client misses]. rewrite Hincr by lia. lia. }
    match goal with |- context [Gets ?c1 reqs] => destruct (Gets c1 reqs) as [c2 rs] end.
    cbn [fst snd] in *. cbn [incrementMisses client hits misses] in IH2, IH3.
    rewrite Hincr in IH3 by lia.
    rewrite (filter_cons_False _ None) by (by intros [? ?]).
    rewrite (filter_cons_True (λ r, r = None) None) by done.
    simpl length. split; [done|]. lia.
Qed.

End cache_facts.

Section data_facts.
Import cache.

Lemma chars_append a b :
  list_ascii_of_string (String.append a b)
  = list_ascii_of_string a ++ list_ascii_of_string b.
Proof. induction a as [|c a IH]; simpl; [done|]. by rewrite IH. Qed.

Lemma chars_inj a b : list_ascii_of_string a = list_ascii_of_string b → a = b.
Proof.
  intros H. rewrite <- (string_of_list_ascii_of_string a),
    <- (string_of_list_ascii_of_string b). by rewrite H.
Qed.

Lemma uint_chars d :
  Forall (λ c, ¬ separator c) (list_ascii_of_string (NilEmpty.string_of_uint d)).
Proof.
  induction d; simpl; constructor; try done;
    intros [H|[H|H]]; discriminate H.
Qed.

Lemma int_chars z : Forall (λ c, ¬ separator c) (list_ascii_of_string (fmt.int z)).
Proof.
  unfold fmt.int.
  assert (∀ d, Forall (λ c, ¬ separator c)
                 (list_ascii_of_string (NilZero.string_of_uint d))) as Hu.
  { intros d. destruct d; try apply uint_chars.
    simpl. constructor; [|done]. intros [H|[H|H]]; discriminate H. }
  destruct (Z.to_int z) as [d|d]; simpl; [apply Hu|].
  constructor; [|apply Hu]. intros [H|[H|H]]; discriminate H.
Qed.

Lemma to_int_proper z :
  Z.to_int z ≠ Decimal.Pos Decimal.Nil ∧ Z.to_int z ≠ Decimal.Neg Decimal.Nil.
Proof.
  destruct z as [|p|p]; simpl; split; try discriminate;
    intros [= H]; by apply Unsigned.to_uint_nonnil in H.
Qed.

Lemma int_inj z1 z2 : fmt.int z1 = fmt.int z2 → z1 = z2.
Proof.
  unfold fmt.int. intros H. apply (f_equal NilZero.int_of_string) in H.
  destruct (to_int_proper z1), (to_int_proper z2).
  rewrite !NilZero.isi in H by done. apply to_int_inj. congruence.
Qed.

Lemma int_nonempty z : list_ascii_of_string (fmt.int z) ≠ [].
Proof.
  unfold fmt.int. destruct (Z.to_int z) as [d|d]; simpl; [|done].
  destruct d; simpl; done.
Qed.

(** Two texts that agree, each a run of plain characters up to a first
    separator, agree on the run, on the separator and on the rest. *)
Lemma span_plain (s1 s2 : list ascii) c1 c2 r1 r2 :
  Forall (λ c, ¬ separator c) s1 → Forall (λ c, ¬ separator c) s2 →
  separator c1 → separator c2 →
  s1 ++ c1 :: r1 = s2 ++ c2 :: r2 → s1 = s2 ∧ c1 = c2 ∧ r1 = r2.
Proof.
  intros H1. revert s2. induction H1 as [|a s1 Ha Hs1 IH]; intros s2 H2 Hc1 Hc2 Heq.
  - destruct H2 as [|b s2 Hb Hs2]; simpl in Heq.
    + by simplify_eq.
    + simplify_eq. done.
  - destruct H2 as [|b s2 Hb Hs2]; simpl in Heq.
    + simplify_eq. done.
    + injection Heq as -> Heq. destruct (IH s2 Hs2 Hc1 Hc2 Heq) as (-> & -> & ->). done.
Qed.

(** The numbers of a slice as [%v] prints them, up to the closing bracket. *)
Lemma body_cons x l :
  list_ascii_of_string (String.concat " " (fmt.int <$> x :: l)) ++ ["]"%char]
  = list_ascii_of_string (fmt.int x)
    ++ match l with
       | [] => ["]"%char]
       | _ => " "%char :: (list_ascii_of_string (String.concat " " (fmt.int <$> l)) ++ ["]"%char])
       end.
Proof.
  destruct l as [|y l]; [done|].
  change (String.concat " " (fmt.int <$> x :: y :: l))
    with (String.append (fmt.int x)
            (String.append " " (String.concat " " (fmt.int <$> y :: l)))).
  rewrite !chars_append. rewrite <- !app_assoc. done.
Qed.

Lemma body_inj l1 : ∀ l2,
  list_ascii_of_string (String.concat " " (fmt.int <$> l1)) ++ ["]"%char]
  = list_ascii_of_string (String.concat " " (fmt.int <$> l2)) ++ ["]"%char] → l1 = l2.
Proof.
  assert (separator "]"%char) as Hb by (right; by right).
  assert (separator " "%char) as Hs by (right; by left).
  induction l1 as [|x l1 IH]; intros [|y l2].
  - done.
  - rewrite body_cons. simpl. intros H. exfalso.
    destruct l2; apply (span_plain [] _ _ _ [] _) in H as (H & _);
      try done; try apply int_chars; by apply (int_nonempty y).
  - rewrite body_cons. simpl. intros H. exfalso.
    destruct l1; symmetry in H; apply (span_plain [] _ _ _ [] _) in H as (H & _);
      try done; try apply int_chars; by apply (int_nonempty x).
  - rewrite !body_cons. intros H.
    destruct l1 as [|x' l1], l2 as [|y' l2];
      apply span_plain in H as (Hx & Hc & Hr); try done; try apply int_chars.
    + apply chars_inj, int_inj in Hx. by subst.
    + apply chars_inj, int_inj in Hx. subst. f_equal. by apply IH.
Qed.

(** The text that is hashed determines the quantity and the sorted sizes. *)
Lemma data_inj q1 q2 l1 l2 : data q1 l1 = data q2 l2 → q1 = q2 ∧ l1 = l2.
Proof.
  unfold data, fmt.ints. intros H. apply (f_equal list_ascii_of_string) in H.
  rewrite !chars_append in H. simpl in H.
  apply span_plain in H as (Hq & _ & Hl); try apply int_chars; try by left.
  split; [by apply int_inj, chars_inj|].
  injection Hl as Hl. by apply body_inj.
Qed.

End data_facts.

(** ** The adaptive cache: the claims *)

Section cache_claims.
Import GoInt cache.

(** *** The cache key *)

(** C5, as stated, fails: [[250, 500]] and [[250, 250, 500]] denote the
    same set of sizes and differ only in a duplicate entry, and their
    keys for the quantity 250 differ. *)
Lemma generateKey_stable_counterexample :
  (∀ x : Z, x ∈ [250; 500] ↔ x ∈ [250; 250; 500]) ∧
  generateKey 250 [250; 500] ≠ generateKey 250 [250; 250; 500].
Proof.
  split; [|exact generateKey_duplicates].
  intros x. rewrite !elem_of_cons. tauto.
Qed.

(** C5 (amended): for every quantity and every two lists of pack sizes
    of which one is a permutation of the other, [generateKey] produces
    the same key.  The text that is hashed, [data], is the same for two
    requests exactly when the quantities are equal and one list is a
    permutation of the other: a change of the quantity or of the sizes,
    the number of the occurrences of a size included, changes the text
    that is hashed. *)
Theorem generateKey_stable q1 q2 l1 l2 :
  (l1 ≡ₚ l2 → generateKey q1 l1 = generateKey q1 l2) ∧
  (data q1 (sort_Ints l1) = data q2 (sort_Ints l2) ↔ q1 = q2 ∧ l1 ≡ₚ l2).
Proof.
  split; [apply generateKey_perm|]. split.
  - intros [-> Hs]%data_inj. split; [done|].
    by rewrite <- (sort_Ints_perm l1), <- (sort_Ints_perm l2), Hs.
  - intros [-> Hp]. by rewrite (sort_Ints_unique l1 l2 Hp).
Qed.

(** *** The growth of the time to live *)

(** C6: after [Set] has stored an entry, with [HitCount = 0] and
    [CurrentTTL = InitialTTL], a [Get] of the same quantity and pack
    sizes before the entry expires returns this entry with
    [HitCount = 1] and [CurrentTTL = min(2 * InitialTTL, MaxTTL)]; and
    over every run of later [Get] calls no answer has a [CurrentTTL]
    above [MaxTTL]. *)
Theorem Set_Get_TTL c t0 t1 items packSizes result totalItems totalPacks waste calcTime :
  enabled c = true → t0 ≤ t1 < t0 + InitialTTL →
  let c1 := Set_ c t0 items packSizes result totalItems totalPacks waste calcTime in
  (∃ e, redis_get t1 (generateKey items packSizes) (client c1) = Some e ∧
        HitCount e = 0 ∧ CurrentTTL e = InitialTTL) ∧
  (∃ r, (Get c1 t1 items packSizes).2 = Some r ∧
        HitCount r = 1 ∧ CurrentTTL r = Z.min (2 * InitialTTL) MaxTTL ∧
        Items r = items ∧ PackSizes r = packSizes ∧ Result r = result ∧
        cache.TotalItems r = totalItems ∧ cache.TotalPacks r = totalPacks ∧
        cache.Waste r = waste) ∧
  (∀ reqs r, Some r ∈ (Gets c1 reqs).2 → CurrentTTL r ≤ MaxTTL).
Proof.
  intros He Ht c1. split; [|split].
  - unfold c1, Set_. rewrite He. cbn [negb].
    generalize (generateKey items packSizes). intros key.
    unfold redis_get, set, redis_set. cbn [client entries].
    rewrite lookup_insert_eq. rewrite (bool_decide_true (0 < InitialTTL)) by done.
    rewrite bool_decide_true by lia. eauto.
  - eexists. split; [by apply Set_then_Get|]. done.
  - intros reqs r. apply Gets_TTL_capped.
Qed.

Lemma Set_Get_TTL_witness :
  let c := fresh_cache in
  (enabled c = true ∧ 0 ≤ 1 < 0 + InitialTTL) ∧
  let c1 := Set_ c 0 250 [250; 500] {[ 250 := 1 ]} 250 1 0 5 in
  (∃ e, redis_get 1 (generateKey 250 [250; 500]) (client c1) = Some e ∧
        HitCount e = 0 ∧ CurrentTTL e = InitialTTL) ∧
  (∃ r, (Get c1 1 250 [250; 500]).2 = Some r ∧
        HitCount r = 1 ∧ CurrentTTL r = Z.min (2 * InitialTTL) MaxTTL ∧
        Items r = 250 ∧ PackSizes r = [250; 500] ∧ Result r = {[ 250 := 1 ]} ∧
        cache.TotalItems r = 250 ∧ cache.TotalPacks r = 1 ∧ cache.Waste r = 0) ∧
  (∀ reqs r, Some r ∈ (Gets c1 reqs).2 → CurrentTTL r ≤ MaxTTL).
Proof.
  intros c.
  assert (enabled c = true) as H1 by reflexivity.
  assert (0 ≤ 1 < 0 + InitialTTL) as H2 by (unfold InitialTTL, Minute; lia).
  split; [done|].
  exact (Set_Get_TTL c 0 1 250 [250; 500] {[ 250 := 1 ]} 250 1 0 5 H1 H2).
Defined.

(** *** The hit rate *)

(** C7, as stated, fails: after one hit and one miss the hit rate is 50,
    not 1/2. *)
Lemma GetStats_hitRate_counterexample :
  let st := GetStats one_hit_one_miss in
  Hits st = 1 ∧ Misses st = 1 ∧
  HitRate st = float64.of_int 50 ∧
  HitRate st ≠ float64.div (float64.of_int (Hits st)) (float64.of_int (Hits st + Misses st)).
Proof. vm_compute. repeat split; discriminate. Qed.

(** C7 (amended): after a run of [Get] calls on a cache whose counters
    were cleared, [GetStats] reports the number of the hits and of the
    misses of the run, and a hit rate in percent:
    [hits / (hits + misses) * 100] in [float64] arithmetic when at least
    one request has occurred, and 0 when there was none. *)
Theorem GetStats_hitRate c reqs :
  enabled c = true → hits (client c) = None → misses (client c) = None →
  Z.of_nat (length reqs) < MaxInt64 →
  let st := GetStats (Gets c reqs).1 in
  let h := hits_in (Gets c reqs).2 in
  let m := misses_in (Gets c reqs).2 in
  Hits st = h ∧ Misses st = m ∧ h + m = Z.of_nat (length reqs) ∧
  HitRate st =
    if bool_decide (0 < h + m)
    then float64.mul (float64.div (float64.of_int h) (float64.of_int (h + m)))
                     (float64.of_int 100)
    else float64.zero.
Proof.
  intros He Hh Hm Hlen st h m.
  destruct (Gets_counters reqs c He) as (He' & Hh' & Hm' & Hsum);
    [rewrite ?Hh, ?Hm; simpl; lia..|].
  rewrite Hh, Hm in *. simpl in Hh', Hm'. fold h in Hh', Hsum. fold m in Hm', Hsum.
  rewrite Z.add_0_l in Hh', Hm'.
  unfold st, GetStats. rewrite He'. cbn [negb Hits Misses HitRate].
  rewrite Hh', Hm'.
  assert (add h m = h + m) as ->.
  { apply wrap_id. unfold int64, MinInt64, MaxInt64, hits_in, misses_in in *. lia. }
  split; [done|]. split; [done|]. split; [done|].
  case_bool_decide; by rewrite ?bool_decide_true, ?bool_decide_false by lia.
Qed.

Lemma GetStats_hitRate_witness :
  let c := fresh_cache in
  let reqs := [(1, 250, [250; 500]); (2, 999, [250; 500])] in
  (enabled c = true ∧ hits (client c) = None ∧ misses (client c) = None ∧
   Z.of_nat (length reqs) < MaxInt64) ∧
  let st := GetStats (Gets c reqs).1 in
  let h := hits_in (Gets c reqs).2 in
  let m := misses_in (Gets c reqs).2 in
  Hits st = h ∧ Misses st = m ∧ h + m = Z.of_nat (length reqs) ∧
  HitRate st =
    if bool_decide (0 < h + m)
    then float64.mul (float64.div (float64.of_int h) (float64.of_int (h + m)))
                     (float64.of_int 100)
    else float64.zero.
Proof.
  intros c reqs.
  assert (enabled c = true) as H1 by reflexivity.
  assert (hits (client c) = None) as H2 by reflexivity.
  assert (misses (client c) = None) as H3 by reflexivity.
  assert (Z.of_nat (length reqs) < MaxInt64) as H4 by (simpl; unfold MaxInt64; lia).
  split; [done|]. exact (GetStats_hitRate c reqs H1 H2 H3 H4).
Defined.

End cache_claims.

(** ** The further functions on some inputs *)

Section more_tests.

(** A table above the limit of the runtime is not made: the size
    [2^62] does not wrap around, and the allocation panics. *)
Example test_allocation_limit :
  Calculate 1 [4611686018427387904] = Panics ∧
  Slice.make 35184372088833 0 = Panics ∧ Slice.make (-1) 0 = Panics ∧
  Slice.make 3 0 = Returns [0; 0; 0].
Proof. by vm_compute. Qed.

(** The sign of the result of [gcd] is that of the last divisor. *)
Example test_gcd :
  optimizer.gcd 12 18 = Returns 6 ∧ optimizer.gcd 0 5 = Returns 5 ∧
  optimizer.gcd 4 (-6) = Returns (-2) ∧
  optimizer.CalculateGCD [250; 500; 1000; 2000; 5000] = Returns 250 ∧
  optimizer.CalculateGCD [23; 31; 53] = Returns 1 ∧
  optimizer.CalculateGCD [] = Returns 0.
Proof. by vm_compute. Qed.

Example test_CalculateWithSizes :
  optimizer.CalculateWithSizes 4 [3; 5] = Returns ({[ 5 := 1 ]}, 5, 1, 1).
Proof. by vm_compute. Qed.

(** The two counters are keys with the prefix of the cache: after one
    hit and one miss there is one entry, and [TotalKeys] is 3. *)
Example test_TotalKeys :
  cache_ops.TotalKeys fresh_cache 3 = 0 ∧ cache_ops.TotalKeys one_hit_one_miss 3 = 3 ∧
  cache_ops.TotalKeys (cache_ops.Clear one_hit_one_miss 3) 3 = 0.
Proof. by vm_compute. Qed.

(** Lines that end in a carriage return and a line feed: the carriage
    return stays in the value. *)
Example test_parseInfoField :
  let cr := String "013" "" in
  info.parseInfoField (text ["# Server" +:+ cr; "uptime_in_seconds:12345" +:+ cr] "")
                      "uptime_in_seconds"
  = "12345" +:+ cr ∧
  info.parseInfoField (text ["used_memory:1101560"; "used_memory_human:1.05M"]%list "")
                      "used_memory_human"
  = "1.05M"%string.
Proof. by vm_compute. Qed.

(** The handler sets no upper bound on the quantity or on the sizes: a
    request whose table cannot be made ends in a panic. *)
Example test_HandleCalculate :
  let big := {| models.ReqItems := 1; models.ReqPackSizes := [4611686018427387904] |} in
  let none := {| models.ReqItems := 0; models.ReqPackSizes := [250] |} in
  let some := {| models.ReqItems := 12; models.ReqPackSizes := [10; 5] |} in
  (api.HandleCalculate fresh_handler 0 0 (Some big)).2 = Panics ∧
  (api.HandleCalculate fresh_handler 0 0 (Some none)).2
  = Returns (api.Failure 400 "Items must be greater than 0") ∧
  (api.HandleCalculate fresh_handler 0 0 (Some some)).2
  = Returns (api.Calculated
      {| models.Items := 12; models.PackSizes := [10; 5];
         models.Result := {[ 5 := 1; 10 := 1 ]}; models.TotalItems := 15;
         models.TotalPacks := 2; models.Waste := 3; models.CalculationTimeMs := 0;
         models.Cached := false; models.CacheTTL := None; models.CacheHitCount := 0 |}).
Proof. by vm_compute. Qed.

End more_tests.

(** ** The greatest common divisor *)

Section gcd_facts.
Import GoInt optimizer.

(** Two rounds of the loop halve the second number. *)
Lemma rem_rem_half a b :
  b ≠ 0 → Z.rem a b ≠ 0 → 2 * Z.abs (Z.rem b (Z.rem a b)) < Z.abs b.
Proof.
  intros Hb Hr.
  pose proof (Z.rem_bound_abs a b Hb) as H1.
  pose proof (Z.rem_bound_abs b (Z.rem a b) Hr) as H2.
  pose proof (Z.rem_abs b (Z.rem a b) Hr) as H3.
  pose proof (Z.quot_rem' (Z.abs b) (Z.abs (Z.rem a b))) as H4.
  assert (0 < Z.abs b ÷ Z.abs (Z.rem a b)) as Hq.
  { apply Z.quot_str_pos. lia. }
  rewrite <- H3. nia.
Qed.

Lemma gcd_loop_returns k : ∀ a b,
  Z.abs b < 2 ^ Z.of_nat k →
  ∃ g, gcd_loop (S (2 * k)) a b = Returns g ∧ Z.abs g = Z.gcd a b ∧
       (0 ≤ a → 0 ≤ b → 0 ≤ g).
Proof.
  induction k as [|k IH]; intros a b Hb.
  - assert (b = 0) as -> by (simpl in Hb; lia).
    exists a. simpl. split; [done|]. split; [by rewrite Z.gcd_0_r|done].
  - replace (S (2 * S k)) with (S (S (S (2 * k)))) by lia.
    cbn [gcd_loop]. case_bool_decide as Hb0.
    2:{ subst b. exists a. split; [done|]. split; [by rewrite Z.gcd_0_r|done]. }
    case_bool_decide as Hr0.
    2:{ exists b. split; [done|]. split.
        - rewrite (Z.gcd_comm a b), <- (Z.gcd_rem a b) by done.
          rewrite Hr0. apply Z.gcd_0_l.
        - done. }
    destruct (IH (Z.rem a b) (Z.rem b (Z.rem a b))) as (g & Hg & Habs & Hnn).
    { pose proof (rem_rem_half a b Hb0 Hr0).
      rewrite Nat2Z.inj_succ, Z.pow_succ_r in Hb by lia. lia. }
    exists g. split; [done|]. split.
    + rewrite Habs, Z.gcd_comm, (Z.gcd_rem b (Z.rem a b)) by done.
      rewrite (Z.gcd_rem a b) by done. apply Z.gcd_comm.
    + intros Ha Hb'. apply Hnn.
      * by apply Z.rem_nonneg.
      * by apply Z.rem_nonneg.
Qed.

Lemma gcd_fuel_enough b : Z.abs b < 2 ^ Z.of_nat (Z.to_nat (Z.log2 (Z.abs b) + 1)).
Proof.
  pose proof (Z.log2_nonneg (Z.abs b)).
  rewrite Z2Nat.id by lia.
  destruct (decide (b = 0)) as [->|Hb]; [done|].
  apply Z.log2_spec. lia.
Qed.

(** X1: [gcd] returns on every pair of numbers, the loop never runs
    on.  Its result is the greatest common divisor of the two up to the
    sign, and the greatest common divisor itself when neither of the two
    is negative. *)
Theorem gcd_spec a b :
  ∃ g, gcd a b = Returns g ∧ Z.abs g = Z.gcd a b ∧
       (0 ≤ a → 0 ≤ b → g = Z.gcd a b).
Proof.
  destruct (gcd_loop_returns _ a b (gcd_fuel_enough b)) as (g & Hg & Habs & Hnn).
  exists g. split; [exact Hg|]. split; [exact Habs|].
  intros Ha Hb. specialize (Hnn Ha Hb). lia.
Qed.

Lemma foldM_gcd rest : ∀ acc,
  ∃ g, foldM gcd acc rest = Returns g ∧
       (g | acc) ∧ Forall (λ s, (g | s)) rest ∧
       (∀ d, (d | acc) → Forall (λ s, (d | s)) rest → (d | g)) ∧
       (0 ≤ acc → Forall (λ s, 0 ≤ s) rest → 0 ≤ g).
Proof.
  induction rest as [|s rest IH]; intros acc.
  - exists acc. simpl. split; [done|]. split; [done|]. split; [done|]. split; done.
  - destruct (gcd_loop_returns _ acc s (gcd_fuel_enough s)) as (g1 & Hg1 & Habs & Hnn).
    change (gcd acc s = Returns g1) in Hg1.
    destruct (IH g1) as (g & Hg & Hdiv & Hall & Hgreatest & Hpos).
    assert ((g1 | acc) ∧ (g1 | s)) as [Hacc Hs].
    { split; apply Z.divide_abs_l; rewrite Habs;
        [apply Z.gcd_divide_l|apply Z.gcd_divide_r]. }
    exists g. cbn [foldM]. rewrite Hg1. split; [exact Hg|].
    split; [by etrans|]. split.
    { constructor; [by etrans|done]. }
    split.
    + intros d Hd Hds. inversion Hds as [|? ? Hd1 Hd2]; subst.
      apply Hgreatest; [|done].
      apply Z.divide_abs_r. rewrite Habs. by apply Z.gcd_greatest.
    + intros Ha Hnns. inversion Hnns as [|? ? Hn1 Hn2]; subst.
      apply Hpos; [|done]. exact (Hnn Ha Hn1).
Qed.

(** X2: [CalculateGCD] returns on every list.  Its result divides every
    size of the list, every number that divides all the sizes divides
    the result, and the result is not negative when no size is; on the
    empty list it is 0. *)
Theorem CalculateGCD_spec packSizes :
  ∃ g, CalculateGCD packSizes = Returns g ∧
       Forall (λ s, (g | s)) packSizes ∧
       (∀ d, Forall (λ s, (d | s)) packSizes → (d | g)) ∧
       (Forall (λ s, 0 ≤ s) packSizes → 0 ≤ g) ∧
       (packSizes = [] → g = 0).
Proof.
  destruct packSizes as [|first rest].
  - exists 0. split; [done|]. split; [done|]. split; [|done].
    intros d _. apply Z.divide_0_r.
  - destruct (foldM_gcd rest first) as (g & Hg & Hdiv & Hall & Hgreatest & Hpos).
    exists g. split; [exact Hg|]. split; [by constructor|]. split; [|split; [|done]].
    + intros d Hd. inversion Hd; subst. by apply Hgreatest.
    + intros Hnn. inversion Hnn; subst. by apply Hpos.
Qed.

Lemma divide_total g packSizes ms :
  Forall (λ s, (g | s)) packSizes → Forall (λ s, s ∈ packSizes) ms → (g | total ms).
Proof.
  intros Hg. induction 1 as [|s ms Hs _ IH]; simpl.
  - apply Z.divide_0_r.
  - apply Z.divide_add_r; [|exact IH].
    rewrite Forall_forall in Hg. by apply Hg.
Qed.

(** X3: the total of every result of [Calculate] is a multiple of the
    number that [CalculateGCD] gives for the sizes.  So an order is
    served without waste only if it is such a multiple: for the sizes
    2 and 4 no odd order is. *)
Theorem Calculate_multiple_of_GCD order packSizes r g :
  int64 order → Forall int64 packSizes →
  Calculate order packSizes = Returns r → CalculateGCD packSizes = Returns g →
  (g | TotalItems r) ∧ (r ≠ emptyResult → Waste r = 0 → (g | order)).
Proof.
  intros Ho Hs Hr Hg.
  assert (Forall (λ s, (g | s)) packSizes) as Hdiv.
  { destruct packSizes as [|first rest]; [done|].
    destruct (foldM_gcd rest first) as (g' & Hg' & Hfirst & Hrest & _).
    cbn [CalculateGCD] in Hg. rewrite Hg in Hg'. injection Hg' as <-.
    by constructor. }
  destruct (decide (order ≤ 0)) as [Hle|Hpos].
  { unfold Calculate in Hr. rewrite bool_decide_true in Hr by done.
    injection Hr as <-. split; [apply Z.divide_0_r|done]. }
  destruct packSizes as [|s0 rest].
  { unfold Calculate in Hr. rewrite bool_decide_false in Hr by done.
    rewrite bool_decide_true in Hr by done.
    injection Hr as <-. split; [apply Z.divide_0_r|done]. }
  destruct (Calculate_cases order (s0 :: rest)) as [[Hp _]|Hc]; [lia|done|done|done|..].
  { rewrite Hr in Hp. discriminate Hp. }
  destruct Hc as (limit & dp & parent & _ & _ & _ & _ & [[He _]|Hfound]).
  { rewrite Hr in He. injection He as ->. split; [apply Z.divide_0_r|done]. }
  destruct Hfound as (T & ms & pc & HT & _ & _ & _ & Hwalk & Hms & _ & _ & _ & Hret).
  rewrite Hr in Hret. injection Hret as ->. cbn [TotalItems Waste].
  assert ((g | T)) as HgT.
  { rewrite <- (walk_total _ _ _ Hwalk). by eapply divide_total. }
  split; [exact HgT|]. intros _ Hw. by replace order with T by lia.
Qed.

Lemma Calculate_multiple_of_GCD_witness :
  (int64 10 ∧ Forall int64 [4; 6] ∧
   Calculate 10 [4; 6]
   = Returns {| PackCounts := {[ 4 := 1; 6 := 1 ]}; TotalItems := 10; TotalPacks := 2;
                Waste := 0 |} ∧
   CalculateGCD [4; 6] = Returns 2) ∧
  (2 | 10).
Proof.
  assert (int64 10) as H1 by (unfold int64, MinInt64, MaxInt64; lia).
  assert (Forall int64 [4; 6]) as H2.
  { repeat constructor; unfold MinInt64, MaxInt64; lia. }
  assert (Calculate 10 [4; 6]
          = Returns {| PackCounts := {[ 4 := 1; 6 := 1 ]}; TotalItems := 10;
                       TotalPacks := 2; Waste := 0 |}) as H3 by (by vm_compute).
  assert (CalculateGCD [4; 6] = Returns 2) as H4 by (by vm_compute).
  split; [exact (conj H1 (conj H2 (conj H3 H4)))|].
  exact (proj1 (Calculate_multiple_of_GCD 10 [4; 6] _ 2 H1 H2 H3 H4)).
Defined.

End gcd_facts.

(** ** The engine sees the sizes as a set *)

Section sizes_as_a_set.
Import GoInt.

(** Two loops over a range whose bodies agree wherever the invariant
    of the first holds. *)
Lemma foldM_seqZ_ext {A : Type} (f g : A → Z → outcome A) (I : Z → A → Prop) m n a :
  0 ≤ n → I m a →
  (∀ i a1, m ≤ i < m + n → I i a1 → f a1 i = g a1 i) →
  (∀ i a1 a2, m ≤ i < m + n → I i a1 → f a1 i = Returns a2 → I (i + 1) a2) →
  foldM f a (seqZ m n) = foldM g a (seqZ m n).
Proof.
  intros Hn. revert m a. pattern n. apply natlike_ind; [| |done].
  - intros m a _ _ _. by rewrite seqZ_nil by lia.
  - clear n Hn. intros n Hn IH m a H0 Hsame Hstep.
    rewrite seqZ_cons by lia. cbn [foldM].
    rewrite <- (Hsame m a) by (done || lia).
    destruct (f a m) as [a2| |] eqn:Hf; simpl; [|done..].
    replace (Z.pred (Z.succ n)) with n by lia.
    apply IH.
    + replace (Z.succ m) with (m + 1) by lia. apply (Hstep m a); [lia|done..].
    + intros i a1 Hi. apply Hsame. lia.
    + intros i a1 a3 Hi. apply Hstep. lia.
Qed.

(** A size that was tried at a row changes nothing when it is tried
    again. *)
Lemma relax_again sizes i st size st' :
  Forall int64 sizes →
  0 < i < Z.of_nat (length st.1) → size ∈ sizes → table_ok sizes i st →
  relax i st size = Returns st' → relax i st' size = Returns st'.
Proof.
  intros sizes64 Hi Hsize Hok. destruct st as [dp parent].
  intros Hrun. pose proof Hrun as Hrun0. revert Hrun. unfold relax at 1.
  assert (int64 size) as Hs64 by (by eapply Forall_forall in sizes64).
  pose proof (tk_len _ _ _ Hok) as Hlen. pose proof (tk_len64 _ _ _ Hok) as Hlen64.
  simpl in Hlen, Hlen64, Hi.
  case_bool_decide as Hle; [|intros ?; by simplify_eq].
  intros Hrun. apply bind_Returns in Hrun as (prev & Hprev & Hrun).
  pose proof Hprev as Hprev0.
  apply index_Returns in Hprev as [Hidx Hprev].
  assert (sub i size = i - size) as Hsub.
  { apply sub_nonneg_exact; [done|lia|done|done]. }
  rewrite Hsub in *. clear Hsub.
  case_bool_decide as Hne; [|by simplify_eq].
  apply bind_Returns in Hrun as (cur & Hcur & Hrun).
  apply index_Returns in Hcur as [_ Hcur].
  destruct (tk_walk _ _ _ Hok (i - size) prev Hidx Hprev Hne) as (Hrow & _).
  pose proof (tk_bound _ _ _ Hok _ _ Hprev) as Hpb. simpl in Hpb.
  assert (add prev 1 = prev + 1) as Hadd.
  { apply wrap_id. unfold int64, MinInt64, MaxInt64, MaxInt32 in *. lia. }
  rewrite Hadd in *.
  case_bool_decide as Hlt; [|by simplify_eq].
  apply bind_Returns in Hrun as (dp' & Hdp' & Hrun).
  apply bind_Returns in Hrun as (parent' & Hparent' & Hrun).
  apply assign_Returns in Hdp' as [_ ->]. apply assign_Returns in Hparent' as [_ ->].
  injection Hrun as <-.
  pose proof (tk_bound _ _ _ Hok _ _ Hcur) as Hcb. simpl in Hcb.
  assert (0 < size) as Hpos.
  { destruct (decide (size = 0)) as [->|]; [|lia].
    rewrite Z.sub_0_r in Hprev. simplify_eq. lia. }
  unfold relax. rewrite bool_decide_true by done.
  assert (sub i size = i - size) as ->.
  { apply wrap_id. unfold int64, MinInt64, MaxInt64 in *. lia. }
  assert (Slice.index (<[Z.to_nat i:=prev + 1]> dp) (i - size) = Returns prev) as ->.
  { apply index_Returns. split; [done|]. by rewrite list_lookup_insert_ne by lia. }
  cbn [bind]. rewrite bool_decide_true by done.
  assert (Slice.index (<[Z.to_nat i:=prev + 1]> dp) i = Returns (prev + 1)) as ->.
  { apply index_Returns. split; [lia|]. by rewrite list_lookup_insert_eq by lia. }
  cbn [bind]. rewrite Hadd. by rewrite bool_decide_false by lia.
Qed.

Lemma squeeze_cons x y l :
  squeeze (x :: y :: l)
  = if bool_decide (x = y) then squeeze (y :: l) else x :: squeeze (y :: l).
Proof. done. Qed.

Lemma squeeze_elem l x : x ∈ squeeze l ↔ x ∈ l.
Proof.
  induction l as [|a l IH]; [done|]. destruct l as [|b l]; [done|].
  rewrite squeeze_cons. case_bool_decide as Hab.
  - subst b. rewrite IH. rewrite !elem_of_cons. tauto.
  - rewrite elem_of_cons, IH. by rewrite (elem_of_cons (b :: l)).
Qed.

Lemma squeeze_sorted l : StronglySorted Z.le l → StronglySorted Z.lt (squeeze l).
Proof.
  induction 1 as [|a l Hl IH Ha]; [constructor|].
  destruct l as [|b l]; [repeat constructor|].
  rewrite squeeze_cons. case_bool_decide as Hab; [done|].
  constructor; [done|].
  apply Forall_forall. intros x Hx. apply (proj1 (squeeze_elem _ _)) in Hx.
  inversion Ha as [|? ? Hb _]; subst. inversion Hl as [|? ? _ Hbl]; subst.
  apply elem_of_cons in Hx as [->|Hx]; [lia|].
  rewrite Forall_forall in Hbl. specialize (Hbl x Hx). lia.
Qed.

(** A strictly ascending list is determined by its elements. *)
Lemma ascending_unique l1 : ∀ l2,
  StronglySorted Z.lt l1 → StronglySorted Z.lt l2 →
  (∀ x, x ∈ l1 ↔ x ∈ l2) → l1 = l2.
Proof.
  induction l1 as [|a l1 IH]; intros l2 H1 H2 Hsame.
  - destruct l2 as [|b l2]; [done|]. exfalso.
    eapply not_elem_of_nil. apply Hsame. by left.
  - destruct l2 as [|b l2].
    { exfalso. eapply not_elem_of_nil. apply Hsame. by left. }
    inversion H1 as [|? ? H1' Ha]; subst. inversion H2 as [|? ? H2' Hb]; subst.
    rewrite Forall_forall in Ha, Hb.
    assert (a = b) as <-.
    { pose proof (proj1 (Hsame a) ltac:(by left)) as Hab.
      pose proof (proj2 (Hsame b) ltac:(by left)) as Hba.
      apply elem_of_cons in Hab as [?|Hab]; [done|].
      apply elem_of_cons in Hba as [?|Hba]; [done|].
      specialize (Ha _ Hba). specialize (Hb _ Hab). lia. }
    f_equal. apply IH; [done..|].
    intros x. split; intros Hx.
    + pose proof (proj1 (Hsame x) ltac:(by right)) as Hx2.
      apply elem_of_cons in Hx2 as [->|?]; [|done].
      specialize (Ha _ Hx). lia.
    + pose proof (proj2 (Hsame x) ltac:(by right)) as Hx1.
      apply elem_of_cons in Hx1 as [->|?]; [|done].
      specialize (Hb _ Hx). lia.
Qed.

Lemma squeeze_sort_Ints l1 l2 :
  (∀ x, x ∈ l1 ↔ x ∈ l2) → squeeze (sort_Ints l1) = squeeze (sort_Ints l2).
Proof.
  intros Hsame. apply ascending_unique.
  - apply squeeze_sorted, sort_Ints_sorted.
  - apply squeeze_sorted, sort_Ints_sorted.
  - intros x. by rewrite !squeeze_elem, !sort_Ints_elem.
Qed.

(** A row of the fill does the same on a list of sizes and on the list
    without its repetitions. *)
Lemma row_squeeze sizes i l :
  Forall int64 sizes → (∀ x, x ∈ l → x ∈ sizes) →
  ∀ st, 0 < i < Z.of_nat (length st.1) → table_ok sizes i st →
        foldM (relax i) st l = foldM (relax i) st (squeeze l).
Proof.
  intros sizes64. induction l as [|a l IH]; intros Hin st Hi Hok; [done|].
  destruct l as [|b l]; [done|].
  assert (∀ x, x ∈ b :: l → x ∈ sizes) as Hin' by (intros x Hx; apply Hin; by right).
  rewrite squeeze_cons. case_bool_decide as Hab.
  - subst b. rewrite <- (IH Hin' st Hi Hok). cbn [foldM].
    destruct (relax i st a) as [st1| |] eqn:Hrun; [|done..]. cbn [bind].
    rewrite (relax_again sizes i st a st1); [done..| |done|done]. apply Hin. by left.
  - cbn [foldM]. destruct (relax i st a) as [st1| |] eqn:Hrun; [|done..]. cbn [bind].
    destruct (relax_spec sizes sizes64 i st a st1) as (Hok1 & Hlen1 & _);
      [done| |done..|].
    { apply Hin. by left. }
    apply (IH Hin' st1); [lia|done].
Qed.

Lemma fill_squeeze sizes limit st :
  Forall int64 sizes → 0 ≤ limit < Z.of_nat (length st.1) → table_ok sizes 0 st →
  fill sizes limit st = fill (squeeze sizes) limit st.
Proof.
  intros sizes64 Hlimit Hok. unfold fill.
  apply (foldM_seqZ_ext _ _
           (λ i st1, table_ok sizes (i - 1) st1 ∧ length st1.1 = length st.1));
    [lia|done| |].
  - intros i st1 Hi [Hok1 Hlen1]. apply (row_squeeze sizes); [done..|lia|].
    eapply table_ok_mono; [|done]. lia.
  - intros i st1 st2 Hi [Hok1 Hlen1] Hrun.
    destruct (row_spec sizes sizes64 i st1 st2) as (Hok2 & Hlen2 & _); [lia| |done|].
    { eapply table_ok_mono; [|done]. lia. }
    split; [|congruence]. by replace (i + 1 - 1) with i by lia.
Qed.

(** The largest size, as [Calculate] reads it off the sorted slice. *)
Lemma sort_Ints_last l :
  l ≠ [] →
  ∃ m, Slice.index (sort_Ints l) (Z.of_nat (length (sort_Ints l)) - 1) = Returns m ∧
       m ∈ l ∧ ∀ x, x ∈ l → x ≤ m.
Proof.
  intros Hne.
  destruct (index_in_range (sort_Ints l) (Z.of_nat (length (sort_Ints l)) - 1))
    as (m & Hidx & Hm).
  { rewrite sort_Ints_length. destruct l; [done|]. simpl length. lia. }
  exists m. split; [done|]. split.
  - apply sort_Ints_elem. by eapply list_elem_of_lookup_2.
  - intros x Hx. apply (sorted_last_max (sort_Ints l)); [apply sort_Ints_sorted| |].
    + rewrite <- Hm. f_equal. lia.
    + by apply sort_Ints_elem.
Qed.

(** [Calculate] with the fill run on the sizes without repetitions. *)
Lemma Calculate_squeezed order l m :
  Forall int64 l → l ≠ [] → ¬ order ≤ 0 →
  Slice.index (sort_Ints l) (Z.of_nat (length (sort_Ints l)) - 1) = Returns m →
  Calculate order l
  = (let limit := add order m in
     dp ←! Slice.make (add limit 1) MaxInt32;
     dp ←! Slice.assign dp 0 0;
     parent ←! Slice.make (add limit 1) 0;
     '(dp, parent) ←! fill (squeeze (sort_Ints l)) limit (dp, parent);
     '(bestItems, bestPacks) ←! scan dp (seqZ order (limit - order + 1)) (-1, MaxInt32);
     if bool_decide (bestItems = -1) then Returns emptyResult
     else
       packCounts ←! backtrack (Z.to_nat bestItems) parent bestItems ∅;
       Returns {| PackCounts := packCounts; TotalItems := bestItems;
                  TotalPacks := bestPacks; Waste := sub bestItems order |}).
Proof.
  intros Hl Hne Ho Hm. unfold Calculate.
  rewrite bool_decide_false by done.
  rewrite bool_decide_false by (by destruct l).
  cbv zeta. rewrite Hm. cbn [bind].
  set (limit := add order m).
  unfold Slice.make. case_bool_decide as HL; [|done]. cbn [bind].
  destruct HL as [HL HLmax].
  unfold Slice.assign. rewrite length_replicate.
  case_bool_decide as HL0; [|done]. cbn [bind].
  destruct (add_one_nonneg limit) as [HL1 Hlim]; [apply wrap_int64|done|].
  destruct (initial_tables (sort_Ints l) (add limit 1)) as (Hok & _ & Hlen).
  { unfold MaxInt64 in *. lia. }
  rewrite (fill_squeeze (sort_Ints l)); [done|by apply sort_Ints_Forall| |exact Hok].
  cbn [fst]. rewrite length_insert, length_replicate. lia.
Qed.

(** X4: [Calculate] sees the sizes as a set.  Two lists with the same
    elements, in any order and with any repetitions, give the same
    outcome for every order: the same result, or a panic for both. *)
Theorem Calculate_sizes_as_set order packSizes1 packSizes2 :
  Forall int64 packSizes1 → Forall int64 packSizes2 →
  (∀ size, size ∈ packSizes1 ↔ size ∈ packSizes2) →
  Calculate order packSizes1 = Calculate order packSizes2.
Proof.
  intros H1 H2 Hsame.
  destruct (decide (order ≤ 0)) as [Ho|Ho].
  { unfold Calculate. by rewrite !bool_decide_true by done. }
  destruct (decide (packSizes1 = [])) as [->|Hne1].
  { destruct packSizes2 as [|s l]; [done|]. exfalso.
    eapply not_elem_of_nil. apply Hsame. by left. }
  assert (packSizes2 ≠ []) as Hne2.
  { intros ->. destruct packSizes1 as [|s l]; [done|].
    eapply not_elem_of_nil. apply Hsame. by left. }
  destruct (sort_Ints_last packSizes1 Hne1) as (m1 & Hidx1 & Hin1 & Hmax1).
  destruct (sort_Ints_last packSizes2 Hne2) as (m2 & Hidx2 & Hin2 & Hmax2).
  assert (m1 = m2) as <-.
  { apply Hsame in Hin1. apply Hsame in Hin2.
    specialize (Hmax1 _ Hin2). specialize (Hmax2 _ Hin1). lia. }
  rewrite (Calculate_squeezed order packSizes1 m1) by done.
  rewrite (Calculate_squeezed order packSizes2 m1) by done.
  by rewrite (squeeze_sort_Ints packSizes1 packSizes2).
Qed.

Lemma Calculate_sizes_as_set_witness :
  (Forall int64 [5; 3; 5] ∧ Forall int64 [3; 5] ∧
   ∀ size, size ∈ [5; 3; 5] ↔ size ∈ [3; 5]) ∧
  Calculate 7 [5; 3; 5] = Calculate 7 [3; 5].
Proof.
  assert (Forall int64 [5; 3; 5]) as H1.
  { repeat constructor; unfold MinInt64, MaxInt64; lia. }
  assert (Forall int64 [3; 5]) as H2.
  { repeat constructor; unfold MinInt64, MaxInt64; lia. }
  assert (∀ size, size ∈ [5; 3; 5] ↔ size ∈ [3; 5]) as H3.
  { intros size. rewrite !elem_of_cons. tauto. }
  exact (conj (conj H1 (conj H2 H3))
              (Calculate_sizes_as_set 7 [5; 3; 5] [3; 5] H1 H2 H3)).
Defined.

End sizes_as_a_set.

(** ** What the optimum means for the one who orders *)

Section optimum_facts.
Import GoInt.

(** X5: on a request of the domain, with an order below the marker,
    the waste is smaller than every pack size, and it is zero whenever
    the order itself is a sum of pack sizes; the number of packs is at
    least one and at most the order. *)
Theorem Calculate_bounds order packSizes :
  0 < order < MaxInt32 → packSizes ≠ [] → in_domain order packSizes →
  ∃ r, Calculate order packSizes = Returns r ∧
       (∀ size, size ∈ packSizes → Waste r < size) ∧
       (∀ ms, drawn_from packSizes ms → total ms = order → Waste r = 0) ∧
       1 ≤ TotalPacks r ≤ order.
Proof.
  intros Ho Hne Hdom.
  destruct (Calculate_in_domain order packSizes Ho Hne Hdom)
    as (T & ms & pc & maxSize & Hret & _ & _ & HT & Hms & Htot & _ & _ & _ & Hmin & Hpacks).
  pose proof (in_domain_positive _ _ Hdom) as Hpos.
  eexists. split; [exact Hret|]. cbn [Waste TotalPacks]. split; [|split; [|split]].
  - intros size Hsize.
    assert (0 < size) as Hs by (by eapply Forall_forall in Hpos).
    set (k := (order - 1) `div` size + 1).
    pose proof (Z.div_mod (order - 1) size ltac:(lia)) as Hdm.
    pose proof (Z.mod_pos_bound (order - 1) size Hs) as Hmod.
    assert (0 ≤ (order - 1) `div` size) as Hq by (apply Z.div_pos; lia).
    assert (T ≤ total (replicate (Z.to_nat k) size)) as Hle.
    { apply Hmin; [by apply Forall_replicate|].
      rewrite total_replicate. unfold k. nia. }
    rewrite total_replicate in Hle. unfold k in Hle. nia.
  - intros ms2 Hms2 Htot2. specialize (Hmin ms2 Hms2). lia.
  - destruct ms as [|s ms']; [simpl in Htot; lia|]. simpl length. lia.
  - destruct (trim order ms ltac:(lia) (packs_positive _ _ Hpos Hms) ltac:(lia))
      as (ms' & Hsub & Hrange & Hlen & _).
    assert (Forall (λ s, s ∈ packSizes) ms') as Hms'.
    { apply Forall_forall. intros x Hx. eapply Forall_forall in Hms; [exact Hms|].
      by apply Hsub. }
    specialize (Hmin ms' Hms' ltac:(lia)).
    specialize (Hpacks ms' Hms' ltac:(lia)). lia.
Qed.

Lemma Calculate_bounds_witness :
  (0 < 1201 < MaxInt32 ∧ [250; 500; 1000; 2000; 5000] ≠ [] ∧
   in_domain 1201 [250; 500; 1000; 2000; 5000]) ∧
  ∃ r, Calculate 1201 [250; 500; 1000; 2000; 5000] = Returns r ∧
       (∀ size, size ∈ [250; 500; 1000; 2000; 5000] → Waste r < size) ∧
       (∀ ms, drawn_from [250; 500; 1000; 2000; 5000] ms → total ms = 1201 →
              Waste r = 0) ∧
       1 ≤ TotalPacks r ≤ 1201.
Proof.
  assert (0 < 1201 < MaxInt32) as H1 by (unfold MaxInt32; lia).
  assert ([250; 500; 1000; 2000; 5000] ≠ ([] : list Z)) as H2 by discriminate.
  assert (in_domain 1201 [250; 500; 1000; 2000; 5000]) as H3 by (by repeat constructor).
  exact (conj (conj H1 (conj H2 H3))
              (Calculate_bounds 1201 [250; 500; 1000; 2000; 5000] H1 H2 H3)).
Defined.

(** X6: more pack sizes to choose from never make the answer worse:
    with the sizes of a first list among those of a second, the second
    list gives a total that is not larger, and with the same total a
    number of packs that is not larger. *)
Theorem Calculate_more_sizes order packSizes1 packSizes2 :
  0 < order < MaxInt32 → packSizes1 ≠ [] → in_domain order packSizes2 →
  (∀ size, size ∈ packSizes1 → size ∈ packSizes2) →
  ∃ r1 r2, Calculate order packSizes1 = Returns r1 ∧
           Calculate order packSizes2 = Returns r2 ∧
           TotalItems r2 ≤ TotalItems r1 ∧
           (TotalItems r2 = TotalItems r1 → TotalPacks r2 ≤ TotalPacks r1).
Proof.
  intros Ho Hne1 Hdom2 Hsub.
  assert (in_domain order packSizes1) as Hdom1.
  { apply Forall_forall. intros s Hs. eapply Forall_forall in Hdom2; [exact Hdom2|].
    by apply Hsub. }
  assert (packSizes2 ≠ []) as Hne2.
  { destruct packSizes1 as [|s l]; [done|]. intros ->.
    eapply not_elem_of_nil. apply (Hsub s). by left. }
  destruct (Calculate_in_domain order packSizes1 Ho Hne1 Hdom1)
    as (T1 & ms1 & pc1 & max1 & Hret1 & _ & _ & HT1 & Hms1 & Htot1 & _).
  destruct (Calculate_in_domain order packSizes2 Ho Hne2 Hdom2)
    as (T2 & ms2 & pc2 & max2 & Hret2 & _ & _ & _ & _ & _ & _ & _ & _ & Hmin2 & Hpacks2).
  assert (Forall (λ s, s ∈ packSizes2) ms1) as Hms12.
  { eapply Forall_impl; [exact Hms1|]. intros s. apply Hsub. }
  eexists _, _. split; [exact Hret1|]. split; [exact Hret2|].
  cbn [TotalItems TotalPacks]. split.
  - specialize (Hmin2 ms1 Hms12). lia.
  - intros HT. specialize (Hpacks2 ms1 Hms12). lia.
Qed.

Lemma Calculate_more_sizes_witness :
  (0 < 7 < MaxInt32 ∧ [3; 5] ≠ [] ∧ in_domain 7 [3; 4; 5] ∧
   ∀ size, size ∈ [3; 5] → size ∈ [3; 4; 5]) ∧
  ∃ r1 r2, Calculate 7 [3; 5] = Returns r1 ∧
           Calculate 7 [3; 4; 5] = Returns r2 ∧
           TotalItems r2 ≤ TotalItems r1 ∧
           (TotalItems r2 = TotalItems r1 → TotalPacks r2 ≤ TotalPacks r1).
Proof.
  assert (0 < 7 < MaxInt32) as H1 by (unfold MaxInt32; lia).
  assert ([3; 5] ≠ ([] : list Z)) as H2 by discriminate.
  assert (in_domain 7 [3; 4; 5]) as H3 by (by repeat constructor).
  assert (∀ size, size ∈ [3; 5] → size ∈ [3; 4; 5]) as H4.
  { intros size. rewrite !elem_of_cons. tauto. }
  exact (conj (conj H1 (conj H2 (conj H3 H4)))
              (Calculate_more_sizes 7 [3; 5] [3; 4; 5] H1 H2 H3 H4)).
Defined.

End optimum_facts.

(** ** The adaptive cache: hits in a row, and [Clear] *)

Section cache_runs.
Import GoInt cache cache_ops.

Lemma TTL_after_0 : TTL_after 0 = InitialTTL.
Proof. done. Qed.

Lemma TTL_after_bounds n : 0 < TTL_after n ≤ MaxTTL.
Proof.
  unfold TTL_after. assert (0 < 2 ^ Z.of_nat n) by (apply Z.pow_pos_nonneg; lia).
  assert (0 < InitialTTL) by done. assert (0 < MaxTTL) by done. nia.
Qed.

(** The time to live that a hit stores. *)
Lemma TTL_after_S n :
  (if bool_decide (mul (TTL_after n) 2 > MaxTTL) then MaxTTL else mul (TTL_after n) 2)
  = TTL_after (S n).
Proof.
  pose proof (TTL_after_bounds n) as Hb.
  assert (mul (TTL_after n) 2 = TTL_after n * 2) as ->.
  { apply wrap_id. revert Hb. unfold int64, MinInt64, MaxInt64, MaxTTL, Hour, Minute. lia. }
  unfold TTL_after in *. rewrite Nat2Z.inj_succ, Z.pow_succ_r by lia.
  case_bool_decide; lia.
Qed.

(** What one hit does to an entry that is on the server. *)
Lemma Get_hit c now items packSizes e n expiry :
  enabled c = true → Z.of_nat n < MaxInt64 →
  entries (client c) !! generateKey items packSizes = Some (hit_n_times e n, Some expiry) →
  now < expiry →
  ∃ c', Get c now items packSizes = (c', Some (hit_n_times e (S n))) ∧
        enabled c' = true ∧
        entries (client c') !! generateKey items packSizes
        = Some (hit_n_times e (S n), Some (now + TTL_after (S n))).
Proof.
  intros He Hn Hkey Hnow. rewrite Get_enabled by done. cbv zeta.
  unfold redis_get. rewrite Hkey. rewrite bool_decide_true by done.
  cbn [HitCount CurrentTTL hit_n_times Items PackSizes Result cache.TotalItems
       cache.TotalPacks cache.Waste CalculationTimeMs CachedAt].
  rewrite TTL_after_S.
  assert (add (Z.of_nat n) 1 = Z.of_nat (S n)) as ->.
  { rewrite Nat2Z.inj_succ. apply wrap_id. unfold int64, MinInt64, MaxInt64 in *. lia. }
  eexists. split; [reflexivity|]. split; [done|].
  cbn [incrementHits set client entries redis_set].
  rewrite lookup_insert_eq. pose proof (TTL_after_bounds (S n)).
  by rewrite bool_decide_true by lia.
Qed.

Lemma List_last_cons (t : Z) times : ∀ prev, List.last (t :: times) prev = List.last times t.
Proof.
  revert t. induction times as [|x times IH]; intros t prev; [done|].
  change (List.last (t :: x :: times) prev) with (List.last (x :: times) prev).
  by rewrite !IH.
Qed.

Lemma Gets_hits items packSizes e times : ∀ c prev n,
  enabled c = true →
  entries (client c) !! generateKey items packSizes
  = Some (hit_n_times e n, Some (prev + TTL_after n)) →
  in_time prev n times → Z.of_nat n + Z.of_nat (length times) ≤ MaxInt64 →
  let run := Gets c (map (λ t, (t, items, packSizes)) times) in
  run.2 = imap (λ k _, Some (hit_n_times e (n + S k))) times ∧
  enabled run.1 = true ∧
  entries (client run.1) !! generateKey items packSizes
  = Some (hit_n_times e (n + length times),
          Some (List.last times prev + TTL_after (n + length times))).
Proof.
  induction times as [|t times IH]; intros c prev n He Hkey Htimes Hlen.
  { cbn. rewrite Nat.add_0_r. done. }
  destruct Htimes as [Ht Htimes]. simpl length in Hlen.
  destruct (Get_hit c t items packSizes e n _ He ltac:(lia) Hkey Ht) as (c1 & Hget & He1 & Hkey1).
  destruct (IH c1 t (S n) He1 Hkey1 Htimes ltac:(lia)) as (IH1 & IH2 & IH3).
  cbn [map Gets]. rewrite Hget.
  destruct (Gets c1 (map (λ t, (t, items, packSizes)) times)) as [c2 rs].
  cbn [fst snd] in *. split; [|split; [done|]].
  - rewrite IH1. cbn [imap]. rewrite Nat.add_1_r. f_equal.
    apply imap_ext. intros k x _. cbn. do 2 f_equal. lia.
  - rewrite IH3. simpl length. rewrite Nat.add_succ_r, List_last_cons. done.
Qed.

(** X7: the time to live of an entry doubles with every hit, from the
    5 minutes that [Set] gives it up to 24 hours, and is counted anew
    from each hit.  After [Set] at the time [t0], in a row of [Get]
    calls for the same request of which each comes before the expiry
    that the call before it has set, all are hits, the k-th returns the
    stored result with [HitCount = k] and
    [CurrentTTL = min(2^k * InitialTTL, MaxTTL)]; a [Get] that comes
    when the last of these times to live has passed is a miss. *)
Theorem Gets_hits_in_a_row c t0 items packSizes result totalItems totalPacks waste calcTime
    times :
  enabled c = true → in_time t0 0 times → Z.of_nat (length times) ≤ MaxInt64 →
  let stored :=
    {| Items := items; PackSizes := packSizes; Result := result;
       cache.TotalItems := totalItems; cache.TotalPacks := totalPacks;
       cache.Waste := waste; CalculationTimeMs := calcTime; CachedAt := t0;
       HitCount := 0; CurrentTTL := InitialTTL |} in
  let run := Gets (Set_ c t0 items packSizes result totalItems totalPacks waste calcTime)
                  (map (λ t, (t, items, packSizes)) times) in
  run.2 = imap (λ k _, Some (hit_n_times stored (S k))) times ∧
  ∀ t, List.last times t0 + TTL_after (length times) ≤ t →
       (Get run.1 t items packSizes).2 = None.
Proof.
  intros He Htimes Hlen stored run.
  destruct (Gets_hits items packSizes stored times
              (Set_ c t0 items packSizes result totalItems totalPacks waste calcTime)
              t0 0%nat) as (H1 & H2 & H3); [| |done|lia|].
  { unfold Set_. by rewrite He. }
  { unfold Set_. rewrite He. cbn [negb set client entries redis_set].
    rewrite lookup_insert_eq. by rewrite bool_decide_true by done. }
  fold run in H1, H2, H3. split; [exact H1|].
  intros t Ht. rewrite Get_enabled by done. cbv zeta.
  unfold redis_get. rewrite H3. cbn [Nat.add]. by rewrite bool_decide_false by lia.
Qed.

Lemma Gets_hits_in_a_row_witness :
  let c := fresh_cache in
  (enabled c = true ∧ in_time 0 0 [1; 2] ∧ Z.of_nat (length [1; 2]) ≤ MaxInt64) ∧
  let stored :=
    {| Items := 250; PackSizes := [250; 500]; Result := {[ 250 := 1 ]};
       cache.TotalItems := 250; cache.TotalPacks := 1;
       cache.Waste := 0; CalculationTimeMs := 5; CachedAt := 0;
       HitCount := 0; CurrentTTL := InitialTTL |} in
  let run := Gets (Set_ c 0 250 [250; 500] {[ 250 := 1 ]} 250 1 0 5)
                  (map (λ t, (t, 250, [250; 500])) [1; 2]) in
  run.2 = imap (λ k _, Some (hit_n_times stored (S k))) [1; 2] ∧
  ∀ t, List.last [1; 2] 0 + TTL_after (length [1; 2]) ≤ t →
       (Get run.1 t 250 [250; 500]).2 = None.
Proof.
  intros c.
  assert (enabled c = true) as H1 by reflexivity.
  assert (in_time 0 0 [1; 2]) as H2 by (by vm_compute).
  assert (Z.of_nat (length [1; 2]) ≤ MaxInt64) as H3 by (by vm_compute).
  split; [exact (conj H1 (conj H2 H3))|].
  exact (Gets_hits_in_a_row c 0 250 [250; 500] {[ 250 := 1 ]} 250 1 0 5 [1; 2] H1 H2 H3).
Defined.

(** *** [Clear] *)

Lemma prefix_append a b : String.prefix a (String.append a b) = true.
Proof.
  induction a as [|ch a IH]; simpl; [by destruct b|].
  destruct (Ascii.ascii_dec ch ch); [done|congruence].
Qed.

Lemma generateKey_prefix items packSizes :
  String.prefix CacheKeyPrefix (generateKey items packSizes) = true.
Proof. apply prefix_append. Qed.

Lemma lookup_foldr_delete (m : gmap string (CachedResult * option Z)) keys key :
  foldr delete m keys !! key = if bool_decide (key ∈ keys) then None else m !! key.
Proof.
  induction keys as [|k keys IH]; cbn [foldr].
  - by rewrite bool_decide_false by apply not_elem_of_nil.
  - destruct (decide (key = k)) as [->|Hne].
    + rewrite lookup_delete_eq. by rewrite bool_decide_true by (by left).
    + rewrite lookup_delete_ne by done. rewrite IH.
      case_bool_decide as Hin.
      * by rewrite bool_decide_true by (by right).
      * rewrite bool_decide_false; [done|]. by intros [?|?]%elem_of_cons.
Qed.

(** The keys that [Clear] asks the server for. *)
Lemma redis_keys_elem now prefix r key :
  key ∈ redis_keys now prefix r → String.prefix prefix key = true.
Proof.
  unfold redis_keys. rewrite !elem_of_app. intros [Hk|[Hk|Hk]].
  - apply list_elem_of_fmap in Hk as ([k e] & -> & Hk).
    apply elem_of_map_to_list in Hk. apply map_lookup_filter_Some in Hk as [_ [Hp _]].
    exact Hp.
  - destruct (bool_decide _ && String.prefix prefix StatsHitsKey) eqn:E;
      [|by apply elem_of_nil in Hk].
    apply list_elem_of_singleton in Hk as ->. by apply andb_true_iff in E as [_ ?].
  - destruct (bool_decide _ && String.prefix prefix StatsMissesKey) eqn:E;
      [|by apply elem_of_nil in Hk].
    apply list_elem_of_singleton in Hk as ->. by apply andb_true_iff in E as [_ ?].
Qed.

Lemma redis_keys_live now prefix r key e :
  entries r !! key = Some e → String.prefix prefix key = true → live now e = true →
  key ∈ redis_keys now prefix r.
Proof.
  intros Hk Hp Hl. unfold redis_keys. apply elem_of_app. left.
  apply list_elem_of_fmap. exists (key, e). split; [done|].
  apply elem_of_map_to_list. apply map_lookup_filter_Some. done.
Qed.

Lemma live_later now t e : now ≤ t → live now e = false → live t e = false.
Proof.
  unfold live. destruct e.2 as [expiry|]; [|done].
  intros Ht Hl. apply bool_decide_eq_false in Hl. apply bool_decide_eq_false. lia.
Qed.

Lemma redis_get_live t key r :
  redis_get t key r
  = match entries r !! key with
    | Some e => if live t e then Some e.1 else None
    | None => None
    end.
Proof. unfold redis_get, live. by destruct (entries r !! key) as [[v [expiry|]]|]. Qed.

(** The entries after [Clear]: one that begins with the prefix is
    absent or had expired before, any other is as it was. *)
Lemma Clear_entries c now key :
  enabled c = true →
  (String.prefix CacheKeyPrefix key = true →
   match entries (client (Clear c now)) !! key with
   | Some e => live now e = false
   | None => True
   end) ∧
  (String.prefix CacheKeyPrefix key = false →
   entries (client (Clear c now)) !! key = entries (client c) !! key).
Proof.
  intros He. unfold Clear. rewrite He. cbn [negb client].
  set (keys := redis_keys now CacheKeyPrefix (client c)).
  assert (entries (redis_del [StatsHitsKey; StatsMissesKey]
                     (if bool_decide (0 < length keys)%nat
                      then redis_del keys (client c) else client c)) !! key
          = if bool_decide (key ∈ [StatsHitsKey; StatsMissesKey]) then None
            else if bool_decide (key ∈ keys) then None
            else entries (client c) !! key) as ->.
  { cbn [redis_del entries]. rewrite lookup_foldr_delete.
    case_bool_decide; [done|].
    case_bool_decide as Hlen; cbn [redis_del entries].
    - apply lookup_foldr_delete.
    - destruct keys; [|simpl in Hlen; lia].
      by rewrite bool_decide_false by apply not_elem_of_nil. }
  split; intros Hp.
  - case_bool_decide; [done|]. case_bool_decide as Hin; [done|].
    destruct (entries (client c) !! key) as [e|] eqn:Hk; [|done].
    destruct (live now e) eqn:Hl; [|done].
    exfalso. apply Hin. by eapply redis_keys_live.
  - rewrite bool_decide_false.
    + rewrite bool_decide_false; [done|].
      intros Hin%redis_keys_elem. congruence.
    + intros [->|[->|Hin%elem_of_nil]%elem_of_cons]%elem_of_cons; done.
Qed.

(** X8: [Clear] empties the cache and leaves the rest of the server
    alone.  After it every [Get] is a miss, no key that begins with
    the prefix of the cache is left, the statistics read zero hits,
    zero misses and a hit rate of zero, and any key that does not begin
    with the prefix holds what it held. *)
Theorem Clear_spec c now :
  enabled c = true →
  let c' := Clear c now in
  (∀ t items packSizes, now ≤ t → (Get c' t items packSizes).2 = None) ∧
  (∀ t, now ≤ t → TotalKeys c' t = 0) ∧
  GetStats c' = {| Hits := 0; Misses := 0; HitRate := float64.zero |} ∧
  (∀ key, String.prefix CacheKeyPrefix key = false →
          entries (client c') !! key = entries (client c) !! key).
Proof.
  intros He c'.
  assert (enabled c' = true) as He' by (unfold c', Clear; by rewrite He).
  assert (hits (client c') = None ∧ misses (client c') = None) as [Hh Hm].
  { unfold c', Clear. rewrite He. cbn [negb client redis_del hits misses].
    by rewrite !bool_decide_true by (rewrite !elem_of_cons; tauto). }
  split; [|split; [|split]].
  - intros t items packSizes Ht. rewrite Get_enabled by done. cbv zeta.
    rewrite redis_get_live.
    pose proof (proj1 (Clear_entries c now (generateKey items packSizes) He)
                      (generateKey_prefix _ _)) as Hk. fold c' in Hk.
    destruct (entries (client c') !! generateKey items packSizes) as [e|]; [|done].
    by rewrite (live_later now t e).
  - intros t Ht. unfold TotalKeys. rewrite He'. cbn [negb].
    unfold redis_keys. rewrite Hh, Hm. cbn [andb bool_decide].
    rewrite (bool_decide_false (is_Some None)) by (by intros [? ?]). cbn [andb].
    rewrite !app_nil_r.
    match goal with |- context [filter ?P ?m] =>
      assert (filter P m = ∅) as -> end; [|done].
    apply map_eq. intros key. rewrite lookup_empty. apply map_lookup_filter_None.
    right. intros e Hk [Hp Hl]. cbn [fst snd] in *.
    pose proof (proj1 (Clear_entries c now key He) Hp) as Hdead. fold c' in Hdead.
    rewrite Hk in Hdead. rewrite (live_later now t e) in Hl; done.
  - unfold GetStats. rewrite He', Hh, Hm. done.
  - intros key Hp. by apply Clear_entries.
Qed.

Lemma Clear_spec_witness :
  let c := Set_ fresh_cache 0 250 [250; 500] {[ 250 := 1 ]} 250 1 0 5 in
  enabled c = true ∧
  let c' := Clear c 3 in
  (∀ t items packSizes, 3 ≤ t → (Get c' t items packSizes).2 = None) ∧
  (∀ t, 3 ≤ t → TotalKeys c' t = 0) ∧
  GetStats c' = {| Hits := 0; Misses := 0; HitRate := float64.zero |} ∧
  (∀ key, String.prefix CacheKeyPrefix key = false →
          entries (client c') !! key = entries (client c) !! key).
Proof.
  intros c.
  assert (enabled c = true) as H1 by reflexivity.
  exact (conj H1 (Clear_spec c 3 H1)).
Defined.

End cache_runs.

(** ** The reader of the server's [INFO] text *)

Section info_facts.
Import info.

Lemma is_field_true field line :
  is_field field line = true ↔ ∃ value, value ≠ [] ∧ line = field ++ ":"%char :: value.
Proof.
  unfold is_field. rewrite !andb_true_iff, !bool_decide_eq_true. split.
  - intros [[Hlen Htake] Hcolon]. exists (drop (length field + 1) line). split.
    + intros Hnil. apply (f_equal length) in Hnil. rewrite length_drop in Hnil.
      simpl in Hnil. lia.
    + rewrite <- (take_drop (length field) line) at 1. rewrite Htake. f_equal.
      rewrite <- (take_drop 1 (drop (length field) line)) at 1.
      rewrite drop_drop. f_equal.
      assert (drop (length field) line !! 0%nat = Some ":"%char) as Hhead.
      { by rewrite lookup_drop, Nat.add_0_r. }
      destruct (drop (length field) line) as [|ch rest]; [done|].
      simpl in Hhead. by simplify_eq.
  - intros (value & Hne & ->). split; [split|].
    + rewrite length_app. simpl. destruct value; [done|]. simpl. lia.
    + by rewrite take_app_length.
    + by rewrite list_lookup_middle.
Qed.

Lemma is_field_drop field value :
  drop (length field + 1) (field ++ ":"%char :: value) = value.
Proof.
  rewrite <- drop_drop, drop_app_length. done.
Qed.

(** Inside a line: the loop walks on to its line feed. *)
Lemma scan_lines_line field pre l post k : ∀ j,
  newline ∉ l → (j + k = length l)%nat →
  scan_lines (k + S (length post)) (pre ++ l ++ newline :: post) field
             (length pre + j) (length pre)
  = if is_field field l then drop (length field + 1) l
    else scan_lines (length post) (pre ++ l ++ newline :: post) field
           (length pre + length l + 1) (length pre + length l + 1).
Proof.
  induction k as [|k IH]; intros j Hl Hj.
  - assert (j = length l) as -> by lia. cbn [Nat.add scan_lines].
    rewrite bool_decide_true.
    2:{ rewrite lookup_app_r by lia. rewrite lookup_app_r by lia.
        by replace (length pre + length l - length pre - length l)%nat with 0%nat by lia. }
    replace (length pre + length l - length pre)%nat with (length l) by lia.
    rewrite drop_app_length, take_app_length. fold (is_field field l).
    destruct (is_field field l); [done|].
    by replace (S (length pre + length l)) with (length pre + length l + 1)%nat by lia.
  - cbn [Nat.add scan_lines]. rewrite bool_decide_false.
    2:{ rewrite lookup_app_r by lia. rewrite lookup_app_l by lia.
        intros Hnl. apply Hl. eapply list_elem_of_lookup_2. exact Hnl. }
    replace (S (length pre + j)) with (length pre + S j)%nat by lia.
    apply IH; [done|lia].
Qed.

(** After the last line feed: nothing is found. *)
Lemma scan_lines_rest field pre rest k : ∀ j start,
  newline ∉ rest → (j + k = length rest)%nat →
  scan_lines k (pre ++ rest) field (length pre + j) start = [].
Proof.
  induction k as [|k IH]; intros j start Hr Hj; [done|].
  cbn [scan_lines]. rewrite bool_decide_false.
  2:{ rewrite lookup_app_r by lia. intros Hnl. apply Hr.
      eapply list_elem_of_lookup_2. exact Hnl. }
  replace (S (length pre + j)) with (length pre + S j)%nat by lia.
  apply IH; [done|lia].
Qed.

Lemma chars_text line lines rest :
  list_ascii_of_string (text (line :: lines) rest)
  = list_ascii_of_string line ++ newline :: list_ascii_of_string (text lines rest).
Proof. cbn [text foldr]. by rewrite chars_append. Qed.

Lemma gives_is_field field line :
  gives field line
  ↔ is_field (list_ascii_of_string field) (list_ascii_of_string line) = true.
Proof.
  rewrite is_field_true. split.
  - intros (value & Hne & ->). exists (list_ascii_of_string value). split.
    + by destruct value.
    + by rewrite !chars_append.
  - intros (v & Hne & Hline). exists (string_of_list_ascii v). split.
    + by destruct v.
    + rewrite <- (string_of_list_ascii_of_string line), Hline.
      rewrite <- (string_of_list_ascii_of_string (field +:+ ":" +:+ _)).
      by rewrite !chars_append, list_ascii_of_string_of_list_ascii.
Qed.

(** One round of lines: a line that does not give the field is passed. *)
Lemma scan_lines_pass field pre line post :
  newline ∉ line → is_field field line = false →
  scan_lines (length (line ++ newline :: post)) (pre ++ line ++ newline :: post) field
             (length pre) (length pre)
  = scan_lines (length post) ((pre ++ line ++ [newline]) ++ post) field
               (length (pre ++ line ++ [newline])) (length (pre ++ line ++ [newline])).
Proof.
  intros Hl Hf.
  pose proof (scan_lines_line field pre line post (length line) 0%nat Hl eq_refl) as H.
  rewrite Hf, Nat.add_0_r in H.
  rewrite length_app. cbn [length]. rewrite H.
  rewrite !length_app. cbn [length]. rewrite Nat.add_assoc.
  by rewrite <- !app_assoc.
Qed.

Lemma scan_lines_absent field lines rest :
  Forall one_line lines → one_line rest →
  Forall (λ l, is_field field (list_ascii_of_string l) = false) lines →
  ∀ pre,
    scan_lines (length (list_ascii_of_string (text lines rest)))
               (pre ++ list_ascii_of_string (text lines rest)) field
               (length pre) (length pre) = [].
Proof.
  intros Hlines Hrest. induction Hlines as [|l lines Hl _ IH]; intros Hnot pre.
  - cbn [text foldr].
    pose proof (scan_lines_rest field pre (list_ascii_of_string rest)
                  (length (list_ascii_of_string rest)) 0%nat (length pre) Hrest eq_refl) as H.
    by rewrite Nat.add_0_r in H.
  - inversion Hnot as [|? ? Hf Hnot']; subst.
    rewrite chars_text, scan_lines_pass by done. by apply IH.
Qed.

Lemma scan_lines_found field before line after rest :
  Forall one_line before → one_line line →
  Forall (λ l, is_field field (list_ascii_of_string l) = false) before →
  is_field field (list_ascii_of_string line) = true →
  ∀ pre,
    scan_lines (length (list_ascii_of_string (text (before ++ line :: after) rest)))
               (pre ++ list_ascii_of_string (text (before ++ line :: after) rest)) field
               (length pre) (length pre)
    = drop (length field + 1) (list_ascii_of_string line).
Proof.
  intros Hbefore Hline. induction Hbefore as [|l before Hl _ IH]; intros Hnot Hf pre.
  - cbn [app]. rewrite chars_text.
    pose proof (scan_lines_line field pre (list_ascii_of_string line)
                  (list_ascii_of_string (text after rest))
                  (length (list_ascii_of_string line)) 0%nat Hline eq_refl) as H.
    rewrite Hf, Nat.add_0_r in H. rewrite length_app. cbn [length]. exact H.
  - inversion Hnot as [|? ? Hfl Hnot']; subst.
    rewrite <- app_comm_cons, chars_text, scan_lines_pass by done. by apply IH.
Qed.

(** X9: [parseInfoField] returns the value of the first line
    [field:value] of the text that is closed by a line feed and whose
    value is not empty, whatever comes after this line. *)
Theorem parseInfoField_found field value before after rest :
  Forall one_line before → one_line field → one_line value → value ≠ ""%string →
  Forall (λ line, ¬ gives field line) before →
  parseInfoField (text (before ++ (field +:+ ":" +:+ value) :: after) rest) field = value.
Proof.
  intros Hbefore Hfield Hvalue Hne Hnot. unfold parseInfoField. cbv zeta.
  assert (one_line (field +:+ ":" +:+ value)) as Hline.
  { unfold one_line in *. rewrite !chars_append, !elem_of_app.
    intros [?|[Hc|?]]; [done| |done].
    apply list_elem_of_singleton in Hc. discriminate Hc. }
  assert (Forall (λ l, is_field (list_ascii_of_string field) (list_ascii_of_string l)
                       = false) before) as Hnot'.
  { eapply Forall_impl; [exact Hnot|]. intros l Hl. cbv beta in Hl.
    rewrite gives_is_field in Hl. by destruct (is_field _ _). }
  assert (is_field (list_ascii_of_string field)
            (list_ascii_of_string (field +:+ ":" +:+ value)) = true) as Hf.
  { apply gives_is_field. by exists value. }
  pose proof (scan_lines_found _ before _ after rest Hbefore Hline Hnot' Hf []) as H.
  cbn [app length] in H. rewrite H.
  rewrite !chars_append. change (list_ascii_of_string ":") with [":"%char]. cbn [app].
  rewrite is_field_drop. apply string_of_list_ascii_of_string.
Qed.

Lemma parseInfoField_found_witness :
  let before := ["# Memory"%string; "used_memory:1101560"%string] in
  let after := ["used_memory_peak:1"%string] in
  (Forall one_line before ∧
   one_line "used_memory_human" ∧ one_line "1.05M" ∧ "1.05M"%string ≠ ""%string ∧
   Forall (λ line, ¬ gives "used_memory_human" line) before) ∧
  parseInfoField
    (text (before ++ ("used_memory_human" +:+ ":" +:+ "1.05M") :: after) "")
    "used_memory_human" = "1.05M"%string.
Proof.
  intros before after.
  assert (∀ s, bool_decide (one_line s) = true → one_line s) as Hone.
  { intros s. apply bool_decide_eq_true_1. }
  assert (Forall one_line before) as H1.
  { repeat constructor; by apply Hone. }
  assert (one_line "used_memory_human") as H2 by (by apply Hone).
  assert (one_line "1.05M") as H3 by (by apply Hone).
  assert ("1.05M"%string ≠ ""%string) as H4 by done.
  assert (Forall (λ line, ¬ gives "used_memory_human" line) before) as H5.
  { repeat constructor; intros Hg%gives_is_field; discriminate Hg. }
  exact (conj (conj H1 (conj H2 (conj H3 (conj H4 H5))))
           (parseInfoField_found "used_memory_human" "1.05M" before after
              "" H1 H2 H3 H4 H5)).
Defined.

(** X10: [parseInfoField] returns the empty string when no line of the
    text that is closed by a line feed gives the field a value: a line
    [field:] with nothing after the colon does not count, and neither
    does what follows the last line feed, be it [field:value]. *)
Theorem parseInfoField_absent field lines rest :
  Forall one_line lines → one_line rest →
  Forall (λ line, ¬ gives field line) lines →
  parseInfoField (text lines rest) field = ""%string.
Proof.
  intros Hlines Hrest Hnot. unfold parseInfoField. cbv zeta.
  assert (Forall (λ l, is_field (list_ascii_of_string field) (list_ascii_of_string l)
                       = false) lines) as Hnot'.
  { eapply Forall_impl; [exact Hnot|]. intros l Hl. cbv beta in Hl.
    rewrite gives_is_field in Hl. by destruct (is_field _ _). }
  pose proof (scan_lines_absent _ lines rest Hlines Hrest Hnot' []) as H.
  cbn [app length] in H. by rewrite H.
Qed.

Lemma parseInfoField_absent_witness :
  let lines := ["# Server"%string; "uptime_in_seconds:"%string] in
  (Forall one_line lines ∧ one_line "uptime_in_seconds:12" ∧
   Forall (λ line, ¬ gives "uptime_in_seconds" line) lines) ∧
  parseInfoField (text lines "uptime_in_seconds:12") "uptime_in_seconds" = ""%string.
Proof.
  intros lines.
  assert (∀ s, bool_decide (one_line s) = true → one_line s) as Hone.
  { intros s. apply bool_decide_eq_true_1. }
  assert (Forall one_line lines) as H1.
  { repeat constructor; by apply Hone. }
  assert (one_line "uptime_in_seconds:12") as H2 by (by apply Hone).
  assert (Forall (λ line, ¬ gives "uptime_in_seconds" line) lines) as H3.
  { repeat constructor; intros Hg%gives_is_field; discriminate Hg. }
  exact (conj (conj H1 (conj H2 H3))
           (parseInfoField_absent "uptime_in_seconds" lines _ H1 H2 H3)).
Defined.

End info_facts.

(** ** The server *)

Section server_facts.
Import GoInt.

Lemma Validate_iff packSizes :
  Validate packSizes = true ↔ packSizes ≠ [] ∧ Forall (λ size, 0 < size) packSizes.
Proof.
  unfold Validate. destruct packSizes as [|s l].
  - simpl. split; [done|]. by intros [? _].
  - rewrite bool_decide_false by done. rewrite forallb_forall, Forall_forall.
    split.
    + intros H. split; [done|]. intros x Hx%list_elem_of_In. apply H in Hx.
      apply negb_true_iff, bool_decide_eq_false in Hx. lia.
    + intros [_ H] x Hx%list_elem_of_In. apply H in Hx.
      apply negb_true_iff, bool_decide_eq_false. lia.
Qed.

Lemma Validate_perm l1 l2 : l1 ≡ₚ l2 → Validate l1 = Validate l2.
Proof.
  intros Hp. apply eq_true_iff_eq. rewrite !Validate_iff.
  split; intros [Hne Hall]; split.
  - intros ->. by apply Permutation_nil_r in Hp.
  - by rewrite <- Hp.
  - intros ->. by apply Permutation_nil_l in Hp.
  - by rewrite Hp.
Qed.

Lemma Calculate_perm order l1 l2 : l1 ≡ₚ l2 → Calculate order l1 = Calculate order l2.
Proof.
  intros Hp. unfold Calculate.
  by rewrite (sort_Ints_unique l1 l2 Hp), (Permutation_length Hp).
Qed.

(** [Calculate] returns on the requests that pass the checks of the
    handler and whose tables the runtime allocates. *)
Lemma Calculate_returns order packSizes :
  0 < order → Validate packSizes = true →
  (∀ size, size ∈ packSizes → order + size < Slice.MaxLen) →
  ∃ r, Calculate order packSizes = Returns r.
Proof.
  intros Ho [Hne Hpos]%Validate_iff Hsum.
  assert (in_domain order packSizes) as Hdom.
  { apply Forall_forall. intros s Hs. split; [|by apply Hsum].
    rewrite Forall_forall in Hpos. by apply Hpos. }
  assert (int64 order) as Ho64.
  { destruct packSizes as [|s l]; [done|]. apply Forall_cons in Hdom as [[? ?] _].
    unfold int64, MinInt64, MaxInt64, Slice.MaxLen in *. lia. }
  pose proof (in_domain_int64 order packSizes ltac:(lia) Hdom) as Hs64.
  destruct (Calculate_cases order packSizes Ho Hne Ho64 Hs64)
    as [[_ Hnd]|(limit & dp & parent & _ & _ & _ & _ & Hres)]; [done|].
  destruct Hres as [[-> _]|(T & ms & pc & _ & _ & _ & _ & _ & _ & _ & _ & _ & ->)]; eauto.
Qed.

(** [Calculate] panics on the requests that pass the checks of the
    handler and whose tables the runtime does not allocate. *)
Lemma Calculate_panics order packSizes :
  0 < order → Validate packSizes = true → int64 order → Forall int64 packSizes →
  (∃ size, size ∈ packSizes ∧ Slice.MaxLen ≤ order + size) →
  Calculate order packSizes = Panics.
Proof.
  intros Ho [Hne Hpos]%Validate_iff Ho64 Hs64 (size & Hsize & Hbig).
  destruct (sort_Ints_last packSizes Hne) as (m & Hidx & Hin & Hmax).
  unfold Calculate. rewrite bool_decide_false by lia.
  rewrite bool_decide_false by (by destruct packSizes).
  cbv zeta. rewrite Hidx. cbn [bind].
  specialize (Hmax size Hsize).
  assert (int64 m) as Hm64 by (by eapply Forall_forall in Hs64).
  unfold Slice.make. rewrite bool_decide_false; [done|].
  intros [HL HLmax].
  destruct (add_one_nonneg (add order m)) as [HL1 Hlim]; [apply wrap_int64|done|].
  rewrite HL1 in HL, HLmax.
  assert (0 < m) as Hmpos by (by eapply Forall_forall in Hpos).
  destruct (decide (order + m ≤ MaxInt64)) as [Hfit|Hwrap].
  - assert (add order m = order + m) as Hadd.
    { apply wrap_id. unfold int64, MinInt64, MaxInt64 in *. lia. }
    rewrite Hadd in HLmax. unfold Slice.MaxLen, Slice.maxAlloc in *. lia.
  - assert (add order m ≤ -2); [|lia].
    clear HL HLmax HL1 Hlim.
    unfold add, wrap, int64, MinInt64, MaxInt64 in *.
    replace (order + m + 2 ^ 63) with ((order + m - 2 ^ 63) + 1 * 2 ^ 64) by lia.
    rewrite Z.mod_add by lia. rewrite Z.mod_small; lia.
Qed.

(** *** The database *)

Lemma foldl_insert_size_None sizes :
  foldl (λ table size, table ≫= λ t, repo.insert_size t size) None sizes = None.
Proof. by induction sizes. Qed.

Lemma foldl_insert_size sizes : ∀ t,
  foldl (λ table size, table ≫= λ t, repo.insert_size t size) (Some t) sizes
  = if bool_decide (NoDup sizes ∧ Forall (λ x, x ∉ t) sizes)
    then Some (list_to_set sizes ∪ t) else None.
Proof.
  induction sizes as [|s sizes IH]; intros t.
  - cbn [foldl]. rewrite bool_decide_true.
    + f_equal. cbn [list_to_set foldr]. by rewrite (left_id_L ∅ (∪)).
    + split; constructor.
  - cbn [foldl mbind option_bind]. unfold repo.insert_size at 2.
    case_bool_decide as Hin.
    + rewrite foldl_insert_size_None. rewrite bool_decide_false; [done|].
      intros [_ H]. by inversion H.
    + rewrite IH. case_bool_decide as H1.
      * destruct H1 as [Hnd Hnot]. rewrite Forall_forall in Hnot.
        rewrite bool_decide_true.
        -- f_equal. apply set_eq. intros x.
           rewrite !elem_of_union, !elem_of_list_to_set, elem_of_cons, elem_of_singleton.
           tauto.
        -- split.
           ++ constructor; [|done]. intros Hs. apply (Hnot s Hs).
              apply elem_of_union. left. by apply elem_of_singleton.
           ++ constructor; [done|]. apply Forall_forall.
              intros x Hx Hxt. apply (Hnot x Hx). apply elem_of_union. by right.
      * rewrite bool_decide_false; [done|]. intros [Hnd Hnot]. apply H1.
        inversion Hnd as [|? ? Hs Hnd']; subst.
        inversion Hnot as [|? ? _ Hnot']; subst. split; [done|].
        rewrite Forall_forall in Hnot'. apply Forall_forall.
        intros x Hx [->%elem_of_singleton|Hxt]%elem_of_union; [done|].
        by apply (Hnot' x).
Qed.

Lemma SetPackSizes_eq r sizes :
  repo.SetPackSizes r sizes
  = if bool_decide (NoDup sizes)
    then Some {| repo.pack_sizes := list_to_set sizes;
                 repo.calculations := repo.calculations r |}
    else None.
Proof.
  unfold repo.SetPackSizes. rewrite foldl_insert_size.
  case_bool_decide as H1.
  - destruct H1 as [Hnd _]. rewrite bool_decide_true by done. cbn.
    do 2 f_equal. by rewrite (right_id_L ∅ (∪)).
  - rewrite bool_decide_false; [done|]. intros Hnd. apply H1. split; [done|].
    apply Forall_forall. intros x _. apply not_elem_of_empty.
Qed.

Lemma GetPackSizes_stored sizes calcs :
  sizes ≠ [] → NoDup sizes →
  repo.GetPackSizes {| repo.pack_sizes := list_to_set sizes; repo.calculations := calcs |}
  = sort_Ints sizes.
Proof.
  intros Hne Hnd. unfold repo.GetPackSizes. cbn [repo.pack_sizes].
  pose proof (elements_list_to_set (C := gset Z) sizes Hnd) as Hp.
  fold (sort_Ints (elements (list_to_set sizes : gset Z))).
  rewrite (sort_Ints_unique _ _ Hp).
  rewrite bool_decide_false; [done|].
  rewrite sort_Ints_length. by destruct sizes.
Qed.

(** X15: [GetPackSizes] never returns an empty list, whatever the
    table holds: an empty table reads as the default sizes.  So the
    step of [runAPI] and [runServe] that is to write the default sizes
    into an empty database never writes: it leaves every database as
    it is, and the sizes in force on a new database are those that
    [GetDefaultPackSizes] returns, read through [GetPackSizes]. *)
Theorem init_pack_sizes_idle r :
  repo.GetPackSizes r ≠ [] ∧
  cmd.init_pack_sizes r = Some r ∧
  (repo.pack_sizes r = ∅ → repo.GetPackSizes r = models.GetDefaultPackSizes).
Proof.
  assert (repo.GetPackSizes r ≠ []) as Hne.
  { unfold repo.GetPackSizes. cbv zeta. case_bool_decide as Hlen; [done|].
    intros Hnil. by rewrite Hnil in Hlen. }
  split; [exact Hne|]. split.
  - unfold cmd.init_pack_sizes. cbv zeta. rewrite bool_decide_false; [done|].
    by destruct (repo.GetPackSizes r).
  - intros Hempty. unfold repo.GetPackSizes. rewrite Hempty, elements_empty. done.
Qed.

(** X11: the pack configuration is stored as a set of sizes.  An
    update with sizes that pass [Validate] and are distinct succeeds,
    and the configuration read back, which is also what a calculation
    without sizes of its own uses, is these sizes in ascending order;
    the cache and the history stay as they are.  An update in which a
    size occurs twice passes [Validate], fails in the database with the
    status 500, and changes nothing. *)
Theorem UpdatePackConfig_then_Get h packSizes :
  Validate packSizes = true →
  (NoDup packSizes →
   let h' := (api.HandleUpdatePackConfig h (Some packSizes)).1 in
   api.HandleUpdatePackConfig h (Some packSizes) = (h', Returns (api.Updated packSizes)) ∧
   api.HandleGetPackConfig h' = (h', Returns (api.Config (sort_Ints packSizes))) ∧
   (∀ req, models.ReqPackSizes req = [] → api.sizes_of h' req = sort_Ints packSizes) ∧
   api.cache h' = api.cache h ∧
   repo.calculations (api.repo h') = repo.calculations (api.repo h)) ∧
  (¬ NoDup packSizes →
   api.HandleUpdatePackConfig h (Some packSizes)
   = (h, Returns (api.Failure 500 "Failed to update pack config"))).
Proof.
  intros Hv. unfold api.HandleUpdatePackConfig. rewrite Hv. cbn [negb].
  rewrite SetPackSizes_eq. split; intros Hnd.
  - rewrite bool_decide_true by done. cbn [fst].
    assert (packSizes ≠ []) as Hne by (by apply Validate_iff in Hv as [? _]).
    split; [done|]. split; [|split; [|done]].
    + unfold api.HandleGetPackConfig. cbn [api.repo].
      by rewrite GetPackSizes_stored.
    + intros req Hreq. unfold api.sizes_of. rewrite Hreq.
      rewrite bool_decide_true by done. cbn [api.repo].
      by rewrite GetPackSizes_stored.
  - by rewrite bool_decide_false by done.
Qed.

Lemma UpdatePackConfig_then_Get_witness :
  Validate [500; 250] = true ∧ NoDup [500; 250] ∧
  (api.HandleGetPackConfig (api.HandleUpdatePackConfig fresh_handler (Some [500; 250])).1).2
  = Returns (api.Config [250; 500]).
Proof.
  assert (Validate [500; 250] = true) as H1 by reflexivity.
  assert (NoDup [500; 250]) as H2 by (apply (bool_decide_unpack _); by vm_compute).
  split; [exact H1|]. split; [exact H2|].
  destruct (proj1 (UpdatePackConfig_then_Get fresh_handler [500; 250] H1) H2)
    as (_ & Hget & _).
  exact (f_equal snd Hget).
Defined.

(** *** The entries of the cache are right *)

Lemma Get_perm c now items l1 l2 :
  l1 ≡ₚ l2 → cache.Get c now items l1 = cache.Get c now items l2.
Proof. intros Hp. unfold cache.Get. by rewrite (generateKey_perm items l1 l2 Hp). Qed.

Lemma redis_get_Some now key r v :
  cache.redis_get now key r = Some v →
  ∃ expiry, cache.entries r !! key = Some (v, expiry).
Proof.
  unfold cache.redis_get. destruct (cache.entries r !! key) as [[v' [expiry|]]|]; [| |done].
  - case_bool_decide; [|done]. intros [= ->]. eauto.
  - intros [= ->]. eauto.
Qed.

(** A hit returns an entry that is right, under the key of the request. *)
Lemma stored_right_Get c now items packSizes :
  stored_right c →
  stored_right (cache.Get c now items packSizes).1 ∧
  ∀ r, (cache.Get c now items packSizes).2 = Some r →
       cache.generateKey (cache.Items r) (cache.PackSizes r)
       = cache.generateKey items packSizes ∧
       Calculate (cache.Items r) (cache.PackSizes r)
       = Returns {| PackCounts := cache.Result r; TotalItems := cache.TotalItems r;
                    TotalPacks := cache.TotalPacks r; Waste := cache.Waste r |}.
Proof.
  intros Hc. unfold cache.Get. destruct (cache.enabled c); cbn [negb]; [|done].
  destruct (cache.redis_get now (cache.generateKey items packSizes) (cache.client c))
    as [e|] eqn:Hget; cbv zeta; cbn [fst snd]; [|done].
  apply redis_get_Some in Hget as [expiry Hkey].
  destruct (Hc _ _ _ Hkey) as [Hk Hans]. split.
  - intros key e' expiry'.
    cbn [cache.incrementHits cache.set cache.client cache.entries cache.redis_set].
    destruct (decide (key = cache.generateKey items packSizes)) as [->|Hne].
    + rewrite lookup_insert_eq. intros [= <- _]. done.
    + rewrite lookup_insert_ne by done. apply Hc.
  - intros r [= <-]. done.
Qed.

Lemma stored_right_Set c now items packSizes r ms :
  stored_right c → Calculate items packSizes = Returns r →
  stored_right (cache.Set_ c now items packSizes (PackCounts r) (TotalItems r)
                  (TotalPacks r) (Waste r) ms).
Proof.
  intros Hc Hr. unfold cache.Set_. destruct (cache.enabled c); cbn [negb]; [|done].
  intros key e expiry.
  cbn [cache.set cache.client cache.entries cache.redis_set].
  destruct (decide (key = cache.generateKey items packSizes)) as [->|Hne].
  - rewrite lookup_insert_eq. intros [= <- _]. split; [done|].
    cbn. rewrite Hr. by destruct r.
  - rewrite lookup_insert_ne by done. apply Hc.
Qed.

Lemma stored_right_Clear c now : stored_right c → stored_right (cache_ops.Clear c now).
Proof.
  intros Hc. unfold cache_ops.Clear. destruct (cache.enabled c); cbn [negb]; [|done].
  intros key e expiry. cbn [cache.client cache_ops.redis_del cache.entries].
  rewrite lookup_foldr_delete. case_bool_decide; [done|].
  case_bool_decide; [|apply Hc].
  cbn [cache_ops.redis_del cache.entries]. rewrite lookup_foldr_delete.
  case_bool_decide; [done|]. apply Hc.
Qed.

Lemma HandleCalculate_repo h now elapsed body :
  repo.pack_sizes (api.repo (api.HandleCalculate h now elapsed body).1)
  = repo.pack_sizes (api.repo h).
Proof.
  unfold api.HandleCalculate. destruct body as [req|]; [|done].
  case_bool_decide; [done|]. destruct (negb _); [done|].
  destruct (cache.Get _ _ _ _) as [c [cached|]]; [done|].
  by destruct (Calculate _ _).
Qed.

Lemma HandleCalculate_sound h now elapsed body :
  sound h → sound (api.HandleCalculate h now elapsed body).1.
Proof.
  intros [Hv Hc]. split.
  { unfold repo.GetPackSizes. by rewrite HandleCalculate_repo. }
  unfold api.HandleCalculate. destruct body as [req|]; [|done].
  case_bool_decide; [done|]. destruct (negb _); [done|].
  pose proof (stored_right_Get (api.cache h) now (models.ReqItems req)
                (api.sizes_of h req) Hc) as [Hc1 _].
  destruct (cache.Get _ _ _ _) as [c [cached|]]; [done|]. cbn [fst] in Hc1.
  destruct (Calculate _ _) as [r| |] eqn:Hr; [|done..].
  cbn [fst api.cache]. by apply stored_right_Set.
Qed.

Lemma serve_sound h req : sound h → sound (api.serve h req).1.
Proof.
  intros Hs. destruct req as [now elapsed body| |body| |now]; cbn [api.serve].
  - by apply HandleCalculate_sound.
  - done.
  - destruct Hs as [Hv Hc]. unfold api.HandleUpdatePackConfig.
    destruct body as [packSizes|]; [|done].
    destruct (Validate packSizes) eqn:Hvp; cbn [negb]; [|done].
    rewrite SetPackSizes_eq. case_bool_decide as Hnd; [|done].
    split; [|done]. cbn [fst api.repo].
    assert (packSizes ≠ []) as Hne by (by apply Validate_iff in Hvp as [? _]).
    rewrite GetPackSizes_stored by done.
    by rewrite (Validate_perm _ _ (sort_Ints_perm packSizes)).
  - done.
  - destruct Hs as [Hv Hc]. split; [done|]. by apply stored_right_Clear.
Qed.

Lemma run_sound reqs : ∀ h, sound h → sound (run h reqs).1.
Proof.
  induction reqs as [|req reqs IH]; intros h Hs; [done|].
  cbn [run]. pose proof (serve_sound h req Hs) as Hs1.
  destruct (api.serve h req) as [h1 out]. specialize (IH h1 Hs1).
  by destruct (run h1 reqs).
Qed.

Lemma sound_fresh : sound fresh_handler.
Proof. split; [done|]. intros key e expiry Hk. done. Qed.

(** X12: the cache never changes an answer.  After any run of
    requests on a server whose state was sound at the start, as that
    of a server with an empty cache is, a calculation that is answered
    holds in its response what [Calculate] returns for the quantity
    and the sizes that the response names, be it computed or taken
    from the cache.  These lie under the cache key of the request: an
    answer that was computed names the request itself, and one from
    the cache names it up to the order of the sizes unless two
    different texts have the same digest. *)
Theorem HandleCalculate_right h0 reqs now elapsed req response :
  sound h0 →
  (api.HandleCalculate (run h0 reqs).1 now elapsed (Some req)).2
  = Returns (api.Calculated response) →
  let packSizes := api.sizes_of (run h0 reqs).1 req in
  answers (models.Items response) (models.PackSizes response) response ∧
  cache.generateKey (models.Items response) (models.PackSizes response)
  = cache.generateKey (models.ReqItems req) packSizes ∧
  (models.Cached response = false →
   models.Items response = models.ReqItems req ∧ models.PackSizes response = packSizes) ∧
  (cache.data (models.Items response) (sort_Ints (models.PackSizes response))
   = cache.data (models.ReqItems req) (sort_Ints packSizes) →
   answers (models.ReqItems req) packSizes response).
Proof.
  intros Hs0. pose proof (run_sound reqs h0 Hs0) as [_ Hc].
  set (h := (run h0 reqs).1) in *. clearbody h. intros Hout packSizes.
  assert (answers (models.Items response) (models.PackSizes response) response ∧
          cache.generateKey (models.Items response) (models.PackSizes response)
          = cache.generateKey (models.ReqItems req) packSizes ∧
          (models.Cached response = false →
           models.Items response = models.ReqItems req ∧
           models.PackSizes response = packSizes)) as (Hans & Hkey & Hown).
  { revert Hout. unfold api.HandleCalculate. fold packSizes.
    case_bool_decide; [done|]. destruct (negb _); [done|].
    pose proof (stored_right_Get (api.cache h) now (models.ReqItems req) packSizes Hc)
      as [_ Hhit].
    destruct (cache.Get _ _ _ _) as [c [cached|]]; cbn [snd] in *.
    - intros [= <-]. destruct (Hhit cached eq_refl) as [Hk Hans].
      split; [exact Hans|]. split; [exact Hk|]. done.
    - destruct (Calculate _ _) as [r| |] eqn:Hr; [|done..].
      intros [= <-]. unfold answers. cbn. rewrite Hr. by destruct r. }
  split; [exact Hans|]. split; [exact Hkey|]. split; [exact Hown|].
  intros [Hitems Hsort]%data_inj. unfold answers in *.
  rewrite <- Hans, Hitems. unfold Calculate. rewrite Hsort.
  by rewrite <- (sort_Ints_length (models.PackSizes response)), Hsort, sort_Ints_length.
Qed.

Lemma HandleCalculate_right_witness :
  let first := {| models.ReqItems := 12; models.ReqPackSizes := [10; 5] |} in
  let again := {| models.ReqItems := 12; models.ReqPackSizes := [5; 10] |} in
  let reqs := [api.PostCalculate 0 2000000 (Some first)] in
  let response :=
    {| models.Items := 12; models.PackSizes := [10; 5];
       models.Result := {[ 5 := 1; 10 := 1 ]}; models.TotalItems := 15;
       models.TotalPacks := 2; models.Waste := 3; models.CalculationTimeMs := 2;
       models.Cached := true; models.CacheTTL := Some (10 * cache.Minute);
       models.CacheHitCount := 1 |} in
  (sound fresh_handler ∧
   (api.HandleCalculate (run fresh_handler reqs).1 5000000 0 (Some again)).2
   = Returns (api.Calculated response)) ∧
  answers 12 [10; 5] response.
Proof.
  intros first again reqs response.
  assert ((api.HandleCalculate (run fresh_handler reqs).1 5000000 0 (Some again)).2
          = Returns (api.Calculated response)) as H2 by (by vm_compute).
  split; [exact (conj sound_fresh H2)|].
  exact (proj1 (HandleCalculate_right fresh_handler reqs 5000000 0 again response
                  sound_fresh H2)).
Defined.

(** X13: what [HandleCalculate] replies to a body that decodes.  A
    quantity that is not positive, or sizes that do not pass
    [Validate], are refused with the status 400, and nothing changes:
    no counter of the cache, no row of the history.  Any other request
    is answered, from the cache or by [Calculate], when
    [quantity + size < 2^45] for every size, so that the tables of
    [Calculate] are within what the runtime allocates; above this
    limit a request that is not in the cache ends in a panic of the
    allocation.  The pack configuration is not touched. *)
Theorem HandleCalculate_replies h now elapsed req :
  let packSizes := api.sizes_of h req in
  let served := api.HandleCalculate h now elapsed (Some req) in
  (models.ReqItems req ≤ 0 →
   served = (h, Returns (api.Failure 400 "Items must be greater than 0"))) ∧
  (0 < models.ReqItems req → Validate packSizes = false →
   served = (h, Returns (api.Failure 400 "Invalid pack sizes"))) ∧
  (0 < models.ReqItems req → Validate packSizes = true →
   (∀ size, size ∈ packSizes → models.ReqItems req + size < Slice.MaxLen) →
   ∃ response, served.2 = Returns (api.Calculated response)) ∧
  (0 < models.ReqItems req → Validate packSizes = true →
   (∃ size, size ∈ packSizes ∧ Slice.MaxLen ≤ models.ReqItems req + size) →
   int64 (models.ReqItems req) → Forall int64 packSizes →
   (cache.Get (api.cache h) now (models.ReqItems req) packSizes).2 = None →
   served.2 = Panics) ∧
  repo.pack_sizes (api.repo served.1) = repo.pack_sizes (api.repo h).
Proof.
  intros packSizes served. split; [|split; [|split; [|split]]].
  - intros Hi. unfold served, api.HandleCalculate. by rewrite bool_decide_true by done.
  - intros Hi Hv. unfold served, api.HandleCalculate.
    rewrite bool_decide_false by lia. fold packSizes. by rewrite Hv.
  - intros Hi Hv Hsum. unfold served, api.HandleCalculate.
    rewrite bool_decide_false by lia. fold packSizes. rewrite Hv. cbn [negb].
    destruct (cache.Get _ _ _ _) as [c [cached|]]; [by eexists|].
    destruct (Calculate_returns _ _ Hi Hv Hsum) as [r ->]. by eexists.
  - intros Hi Hv Hbig Hi64 Hs64 Hmiss. unfold served, api.HandleCalculate.
    rewrite bool_decide_false by lia. fold packSizes. rewrite Hv. cbn [negb].
    destruct (cache.Get _ _ _ _) as [c hit]. cbn [snd] in Hmiss. subst hit.
    by rewrite (Calculate_panics _ _ Hi Hv Hi64 Hs64 Hbig).
  - apply HandleCalculate_repo.
Qed.

(** X14: a calculation that has been computed is served from the cache
    when it is asked for again.  With the cache enabled, a request for
    the same quantity and the same sizes, in any order, that comes
    within [InitialTTL] of the first answer gets the response of the
    first with [Cached] set, a hit count of 1 and a time to live of ten
    minutes; the sizes of the response are in the order of the first
    request, and no row is added to the history. *)
Theorem HandleCalculate_again h t0 elapsed t1 elapsed1 req req1 response :
  cache.enabled (api.cache h) = true →
  (api.HandleCalculate h t0 elapsed (Some req)).2 = Returns (api.Calculated response) →
  models.Cached response = false →
  let h1 := (api.HandleCalculate h t0 elapsed (Some req)).1 in
  models.ReqItems req1 = models.ReqItems req →
  api.sizes_of h1 req1 ≡ₚ api.sizes_of h req →
  t0 + elapsed ≤ t1 < t0 + elapsed + cache.InitialTTL →
  let served := api.HandleCalculate h1 t1 elapsed1 (Some req1) in
  served.2
  = Returns (api.Calculated
      {| models.Items := models.Items response;
         models.PackSizes := models.PackSizes response;
         models.Result := models.Result response;
         models.TotalItems := models.TotalItems response;
         models.TotalPacks := models.TotalPacks response;
         models.Waste := models.Waste response;
         models.CalculationTimeMs := models.CalculationTimeMs response;
         models.Cached := true;
         models.CacheTTL := Some (10 * cache.Minute);
         models.CacheHitCount := 1 |}) ∧
  api.repo served.1 = api.repo h1.
Proof.
  intros He Hout Hcached h1 Hitems Hperm Ht served.
  assert (Validate (api.sizes_of h req) = true ∧
          ∃ c r,
            cache.enabled c = true ∧
            api.cache h1
            = cache.Set_ c (t0 + elapsed) (models.ReqItems req) (api.sizes_of h req)
                (PackCounts r) (TotalItems r) (TotalPacks r) (Waste r)
                (elapsed `quot` 1000000) ∧
            response
            = {| models.Items := models.ReqItems req;
                 models.PackSizes := api.sizes_of h req;
                 models.Result := PackCounts r;
                 models.TotalItems := TotalItems r;
                 models.TotalPacks := TotalPacks r;
                 models.Waste := Waste r;
                 models.CalculationTimeMs := elapsed `quot` 1000000;
                 models.Cached := false;
                 models.CacheTTL := None;
                 models.CacheHitCount := 0 |}) as (Hv & c & r & Hec & Hc1 & ->).
  { revert Hout. unfold h1. unfold api.HandleCalculate.
    case_bool_decide as Hi; [done|].
    destruct (Validate (api.sizes_of h req)) eqn:Hv; cbn [negb]; [|done].
    destruct (cache.Get (api.cache h) t0 (models.ReqItems req) (api.sizes_of h req))
      as [c [cached|]] eqn:Hget.
    { intros [= <-]. done. }
    destruct (Calculate (models.ReqItems req) (api.sizes_of h req)) as [r| |] eqn:Hr;
      [|done..].
    cbv zeta. cbn [fst snd api.cache]. intros [= <-].
    split; [done|]. exists c, r. split; [|done].
    revert Hget. unfold cache.Get. rewrite He. cbn [negb].
    destruct (cache.redis_get _ _ _); [done|]. by intros [= <-]. }
  assert (¬ models.ReqItems req ≤ 0) as Hi.
  { revert Hout. unfold api.HandleCalculate. by case_bool_decide. }
  clear Hout Hcached. cbn [models.Items models.PackSizes models.Result models.TotalItems
    models.TotalPacks models.Waste models.CalculationTimeMs].
  unfold served. clear served. clearbody h1.
  unfold api.HandleCalculate. rewrite Hitems. rewrite bool_decide_false by done.
  rewrite (Validate_perm _ _ Hperm), Hv. cbn [negb].
  rewrite (Get_perm _ _ _ _ _ Hperm), Hc1.
  pose proof (Set_then_Get c (t0 + elapsed) t1 (models.ReqItems req) (api.sizes_of h req)
                (PackCounts r) (TotalItems r) (TotalPacks r) (Waste r)
                (elapsed `quot` 1000000) Hec Ht) as Hhit.
  destruct (cache.Get _ t1 _ _) as [c2 hit]. cbn [snd] in Hhit. subst hit.
  cbn [fst snd]. split; [|done]. done.
Qed.

Lemma HandleCalculate_again_witness :
  let req := {| models.ReqItems := 12; models.ReqPackSizes := [10; 5] |} in
  let req1 := {| models.ReqItems := 12; models.ReqPackSizes := [5; 10] |} in
  let response :=
    {| models.Items := 12; models.PackSizes := [10; 5];
       models.Result := {[ 5 := 1; 10 := 1 ]}; models.TotalItems := 15;
       models.TotalPacks := 2; models.Waste := 3; models.CalculationTimeMs := 2;
       models.Cached := false; models.CacheTTL := None; models.CacheHitCount := 0 |} in
  let h1 := (api.HandleCalculate fresh_handler 0 2000000 (Some req)).1 in
  (cache.enabled (api.cache fresh_handler) = true ∧
   (api.HandleCalculate fresh_handler 0 2000000 (Some req)).2
   = Returns (api.Calculated response) ∧
   models.Cached response = false ∧
   models.ReqItems req1 = models.ReqItems req ∧
   api.sizes_of h1 req1 ≡ₚ api.sizes_of fresh_handler req ∧
   0 + 2000000 ≤ 5000000 < 0 + 2000000 + cache.InitialTTL) ∧
  api.repo (api.HandleCalculate h1 5000000 0 (Some req1)).1 = api.repo h1.
Proof.
  intros req req1 response h1.
  assert (cache.enabled (api.cache fresh_handler) = true) as H1 by reflexivity.
  assert ((api.HandleCalculate fresh_handler 0 2000000 (Some req)).2
          = Returns (api.Calculated response)) as H2 by (by vm_compute).
  assert (models.Cached response = false) as H3 by reflexivity.
  assert (models.ReqItems req1 = models.ReqItems req) as H4 by reflexivity.
  assert (api.sizes_of h1 req1 ≡ₚ api.sizes_of fresh_handler req) as H5.
  { change ([5; 10] ≡ₚ [10; 5]). apply Permutation_swap. }
  assert (0 + 2000000 ≤ 5000000 < 0 + 2000000 + cache.InitialTTL) as H6.
  { unfold cache.InitialTTL, cache.Minute. lia. }
  split; [exact (conj H1 (conj H2 (conj H3 (conj H4 (conj H5 H6)))))|].
  exact (proj2 (HandleCalculate_again fresh_handler 0 2000000 5000000 0 req req1 response
                  H1 H2 H3 H4 H5 H6)).
Defined.

End server_facts.
